(** * Polo: a shallow embedding of the hologram projector (src/Polo.py)

    The development follows the source file top to bottom:
    - [Py]        the Python primitives the code relies on ([int()], [%],
                  indexing, [str.lower], [pathlib.Path.suffix], stable sort);
    - [Float]     Python floats: IEEE 754 doubles, with the exceptions
                  Python raises around them;
    - [Geometry]  the pixel/millimetre arithmetic of [Polo.hologrify];
    - [Raster]    frames as rasters, with flip, mirror, rotate and thumbnail;
    - [Heap]      PIL image objects as references into a store, and
                  [Polo.hologrify] as a store-passing program;
    - [Files]     the file filter of [Polo.choose_media];
    - [Session]   [choose_media], [set_media], [advance_media], [stop] on the
                  fields of the [Polo] object, with Python exceptions;
    - [Pipeline]  one iteration of [process_frames] and its sequential runs;
    - [Threads]   [stop()] interleaved with the player and producer threads;
    - [Samples]   small concrete inputs on which the model is evaluated;
    - [Controls]  the remaining slots ([clear_media], [size_changed]), the
                  frame rate [play] reads, and vocabulary for the
                  properties of the second part.

    The floats of [hologrify] are doubles ([SpecFloat] at precision 53):
    every operation rounds as the machine does, and a division by zero, an
    overflowing conversion and a [thumbnail] to an empty size raise as
    they do in Python.  The halves and quarters of small integers in the
    placement of the quadrants are exact in doubles and stay rationals. *)

From Stdlib Require Import ZArith QArith Qround Qabs Qpower Lia List Bool.
From Stdlib Require Import SpecFloat.
From Stdlib Require Import Ascii String Permutation Sorted.
From Stdlib Require Import Lqa.
From stdpp Require Import base list.
Import ListNotations.

Local Open Scope string_scope.
Local Open Scope list_scope.
Local Open Scope Z_scope.

(* ===================================================================== *)
(** ** Python primitives *)
(* ===================================================================== *)

Module Py.

(** Exceptions the modelled code can raise. *)
Inductive exn : Type :=
| ZeroDivisionError
| IndexError
| ValueError
| AttributeError
| RuntimeError
| IOError
| OverflowError.

(** The result of a statement sequence that may raise. *)
Inductive result (A : Type) : Type :=
| Ok (a : A)
| Raise (e : exn).
Arguments Ok {A} a.
Arguments Raise {A} e.

(** Statements in sequence: the first exception ends the sequence. *)
Definition bind {A B} (r : result A) (k : A -> result B) : result B :=
  match r with
  | Ok a => k a
  | Raise e => Raise e
  end.

(** [int(x)] on the exact value of a float: truncation toward zero. *)
Definition int (x : Q) : Z := Z.quot (Qnum x) (Zpos (Qden x)).

(** [a % b] on ints: the sign follows the divisor; [b = 0] raises. *)
Definition imod (a b : Z) : result Z :=
  if b =? 0 then Raise ZeroDivisionError else Ok (a mod b).

(** [l[i]]: negative indices count from the end; out of range raises. *)
Definition index {A} (l : list A) (i : Z) : result A :=
  let n := Z.of_nat (length l) in
  let j := if i <? 0 then i + n else i in
  if (0 <=? j) && (j <? n) then
    match l !! Z.to_nat j with
    | Some a => Ok a
    | None => Raise IndexError
    end
  else Raise IndexError.

(** [round(x)] of Python 3 on the exact value of a float: nearest integer,
    ties to even. *)
Definition round (x : Q) : Z :=
  let f := Qfloor x in
  let two_r := (2 * (x - inject_Z f))%Q in   (* twice the fractional part *)
  match (two_r ?= 1)%Q with
  | Lt => f
  | Gt => f + 1
  | Eq => if Z.even f then f else f + 1
  end.

(** *** Strings *)

(** [str.lower] and [str.upper] on one character (ASCII). *)
Definition lower_char (c : ascii) : ascii :=
  let n := nat_of_ascii c in
  if (65 <=? n)%nat && (n <=? 90)%nat then ascii_of_nat (n + 32) else c.

Definition upper_char (c : ascii) : ascii :=
  let n := nat_of_ascii c in
  if (97 <=? n)%nat && (n <=? 122)%nat then ascii_of_nat (n - 32) else c.

Fixpoint str_map (f : ascii -> ascii) (s : string) : string :=
  match s with
  | EmptyString => EmptyString
  | String c s' => String (f c) (str_map f s')
  end.

Definition lower : string -> string := str_map lower_char.
Definition upper : string -> string := str_map upper_char.

(** [s.rfind(c)]: the last position of [c] in [s]. *)
Fixpoint rfind (c : ascii) (s : string) : option nat :=
  match s with
  | EmptyString => None
  | String a s' =>
      match rfind c s' with
      | Some i => Some (S i)
      | None => if Ascii.eqb a c then Some 0%nat else None
      end
  end.

(** [s[i:]] *)
Fixpoint drop_str (i : nat) (s : string) : string :=
  match i, s with
  | O, _ => s
  | S i', EmptyString => EmptyString
  | S i', String _ s' => drop_str i' s'
  end.

(** [pathlib.PurePath.suffix] of a file name: the part from the last dot,
    unless that dot starts or ends the name. *)
Definition suffix (name : string) : string :=
  match rfind "." name with
  | Some i =>
      if (0 <? i)%nat && (i <? String.length name - 1)%nat
      then drop_str i name else EmptyString
  | None => EmptyString
  end.

(** [x in l] on a list of strings. *)
Definition str_in (x : string) (l : list string) : bool :=
  existsb (String.eqb x) l.

(** [l.index(x)]: the first position of [x]; [None] is ValueError. *)
Fixpoint list_index (x : string) (l : list string) : option nat :=
  match l with
  | [] => None
  | y :: l' => if String.eqb y x then Some 0%nat
               else option_map S (list_index x l')
  end.

(** [l.sort(key=key)]: a stable sort by the key, ascending. *)
Fixpoint insert_by (key : string -> string) (x : string) (l : list string)
    : list string :=
  match l with
  | [] => [x]
  | y :: l' => if String.leb (key x) (key y) then x :: y :: l'
               else y :: insert_by key x l'
  end.

Fixpoint sort_by (key : string -> string) (l : list string) : list string :=
  match l with
  | [] => []
  | x :: l' => insert_by key x (sort_by key l')
  end.

Module Notations.
Notation "x <-- m ;; k" := (bind m (fun x => k))
  (at level 100, m at next level, right associativity).
End Notations.

End Py.

(* ===================================================================== *)
(** ** Python floats *)
(* ===================================================================== *)

Module Float.
Import Py.Notations.

(** A float is an IEEE 754 double: 53 bits of precision, exponents below
    1024.  The operations round to nearest, ties to even. *)
Abbreviation float := spec_float.

Definition prec : Z := 53.
Definition emax : Z := 1024.

(** The double nearest to an integer; infinite beyond the doubles. *)
Definition of_Z (n : Z) : float := binary_normalize prec emax n 0 false.

Definition mul : float -> float -> float := SFmul prec emax.
Definition div : float -> float -> float := SFdiv prec emax.
Definition sub : float -> float -> float := SFsub prec emax.
Definition sqrt : float -> float := SFsqrt prec emax.
Definition abs : float -> float := SFabs.

Definition is_zero (x : float) : bool :=
  match x with S754_zero _ => true | _ => false end.

Definition is_finite (x : float) : bool :=
  match x with S754_zero _ | S754_finite _ _ _ => true | _ => false end.

Definition is_nan (x : float) : bool :=
  match x with S754_nan => true | _ => false end.

(** Below zero: a negative finite double or minus infinity. *)
Definition negative (x : float) : bool :=
  match x with
  | S754_finite true _ _ | S754_infinity true => true
  | _ => false
  end.

(** A zero or a positive finite double. *)
Definition nonneg (x : float) : bool :=
  match x with
  | S754_zero _ | S754_finite false _ _ => true
  | _ => false
  end.

(** The exact value of a finite double. *)
Definition value (x : float) : Q :=
  match x with
  | S754_finite s m e =>
      let n := cond_Zopp s (Zpos m) in
      match e with
      | Zneg p => Qmake n (2 ^ p)
      | _ => inject_Z (n * 2 ^ e)
      end
  | _ => 0%Q
  end.

(** Powers of two, and the bound [2^-52] on what one rounding adds to a
    value, relative to it, and in all near the bottom of the range. *)
Definition pow2 (e : Z) : Q := (2 ^ e)%Q.

Definition eps : Q := pow2 (-52).

(** An int operand of a float operation is converted first:
    OverflowError when it is beyond the doubles. *)
Definition of_int (n : Z) : Py.result float :=
  match of_Z n with
  | S754_infinity _ => Py.Raise Py.OverflowError
  | x => Py.Ok x
  end.

(** [x / y] on floats. *)
Definition truediv (x y : float) : Py.result float :=
  if is_zero y then Py.Raise Py.ZeroDivisionError else Py.Ok (div x y).

(** [a / b] on ints: the quotient of the two integers, rounded once. *)
Definition exact (n : Z) : float :=
  match n with
  | Z0 => S754_zero false
  | Zpos p => S754_finite false p 0
  | Zneg p => S754_finite true p 0
  end.

Definition int_truediv (a b : Z) : Py.result float :=
  if b =? 0 then Py.Raise Py.ZeroDivisionError
  else
    match div (exact a) (exact b) with
    | S754_infinity _ => Py.Raise Py.OverflowError
    | q => Py.Ok q
    end.

(** [int(x)] on a float. *)
Definition to_int (x : float) : Py.result Z :=
  match x with
  | S754_nan => Py.Raise Py.ValueError
  | S754_infinity _ => Py.Raise Py.OverflowError
  | _ => Py.Ok (Py.int (value x))
  end.

(** What a variable that is an int on one path and a float on the other
    holds. *)
Inductive num : Type :=
| Int (n : Z)
| Flt (x : float).

End Float.

(* ===================================================================== *)
(** ** The arithmetic of [hologrify] (lines 358-402) *)
(* ===================================================================== *)

Module Geometry.
Import Py.Notations.

(** What the display widget reports, and the sizing controls. *)
Record Display : Type := {
  width_px : Z;           (* display_widget.width() *)
  height_px : Z;          (* display_widget.height() *)
  physicalDpiX : Z;       (* display_widget.physicalDpiX() *)
  widthMM : Z;            (* display_widget.widthMM() *)
  heightMM : Z;           (* display_widget.heightMM() *)
  autosize : bool;        (* size_checkbox.isChecked() *)
  output_screen_size : Z  (* diagonal in inches, manual mode *)
}.

Definition center_length_mm : Z := 100.

(** The literal [25.4]: the double nearest to 254/10. *)
Definition mm_per_inch : Float.float := Float.div (Float.of_Z 254) (Float.of_Z 10).

Section Sizing.

(** [x ** 0.5] on a float, which the C library computes. *)
Variable fsqrt : Float.float -> Float.float.

(** Lines 368-376: (dpmm, screen_width_mm, screen_height_mm).  With
    automatic sizing the two lengths are the ints the widget reports; with
    a manual diagonal they are floats, and a zero diagonal or a zero-sized
    widget raises ZeroDivisionError at line 374 or 375. *)
Definition sizing (d : Display)
    : Py.result (Float.float * Float.num * Float.num) :=
  if autosize d then
    dpi <-- Float.of_int (physicalDpiX d) ;;
    Py.Ok (Float.div dpi mm_per_inch,
           Float.Int (widthMM d), Float.Int (heightMM d))
  else
    inches <-- Float.of_int (output_screen_size d) ;;
    let diagonal_length_mm := Float.mul inches mm_per_inch in
    squares <-- Float.of_int (width_px d ^ 2 + height_px d ^ 2) ;;
    dpmm <-- Float.truediv (fsqrt squares) diagonal_length_mm ;;
    w <-- Float.of_int (width_px d) ;;
    screen_width_mm <-- Float.truediv w dpmm ;;
    h <-- Float.of_int (height_px d) ;;
    screen_height_mm <-- Float.truediv h dpmm ;;
    Py.Ok (dpmm, Float.Flt screen_width_mm, Float.Flt screen_height_mm).

End Sizing.

(** Line 380: [abs(screen_height_mm - center_length_mm) / 2].  On an int
    the subtraction and [abs] are exact and [/ 2] is the division of two
    ints; on a float each of the three operations rounds. *)
Definition media_length_mm (screen_height_mm : Float.num)
    : Py.result Float.float :=
  match screen_height_mm with
  | Float.Int h => Float.int_truediv (Z.abs (h - center_length_mm)) 2
  | Float.Flt h =>
      hundred <-- Float.of_int center_length_mm ;;
      two <-- Float.of_int 2 ;;
      Float.truediv (Float.abs (Float.sub h hundred)) two
  end.

(** Line 383. *)
Definition media_length_px (dpmm : Float.float) (screen_height_mm : Float.num)
    : Py.result Z :=
  mm <-- media_length_mm screen_height_mm ;;
  Float.to_int (Float.mul mm dpmm).

(** Line 384. *)
Definition center_length_px (dpmm : Float.float) : Py.result Z :=
  hundred <-- Float.of_int center_length_mm ;;
  Float.to_int (Float.mul hundred dpmm).

Section Lengths.
Variable fsqrt : Float.float -> Float.float.

(** Lines 368-384: (media_length_px, center_length_px). *)
Definition lengths (d : Display) : Py.result (Z * Z) :=
  s <-- sizing fsqrt d ;;
  let '(dpmm, _, screen_height_mm) := s in
  mlp <-- media_length_px dpmm screen_height_mm ;;
  clp <-- center_length_px dpmm ;;
  Py.Ok (mlp, clp).

End Lengths.

(** The placement of the four quadrants (lines 389-402), given the size of
    [top] and of [left]/[right] after scaling. *)
Record Layout : Type := {
  top_x : Z; top_y : Z;
  bottom_x : Z; bottom_y : Z;
  left_x : Z; left_y : Z;
  right_x : Z; right_y : Z
}.

Definition placement (d : Display) (center_px : Z)
    (top_w top_h left_h right_w : Z) : Layout :=
  let screen_height_px := height_px d in
  let SC_H := height_px d + 600 in
  let tx := Py.int (inject_Z (SC_H - top_w) / 2) in
  let ty := Py.int ((inject_Z (screen_height_px - center_px) / 2
                     - inject_Z top_h) / 2) in
  let ly := Py.int (inject_Z (screen_height_px - left_h) / 2) in
  {| top_x := tx; top_y := ty;
     bottom_x := tx; bottom_y := screen_height_px - top_h - ty;
     left_x := ty + 300; left_y := ly;
     right_x := screen_height_px - right_w - ty + 300; right_y := ly |}.

End Geometry.

(* ===================================================================== *)
(** ** Frames as rasters (PIL.Image values) *)
(* ===================================================================== *)

Module Raster.

(** A pixel is the list of its band values ([[r; g; b; a]] in mode RGBA). *)
Definition Pixel : Type := list Z.

Definition Rows : Type := list (list Pixel).

Record Frame : Type := {
  mode : string;
  width : Z;
  height : Z;
  pixels : Rows            (* [height] rows of [width] pixels, top row first *)
}.

(** The primitives of the imaging and float libraries whose pixel
    arithmetic is outside the repository. *)
Class Primitives : Type := {
  (* the resampling filter behind [Image.resize]: rows, new width, new height *)
  resample : Rows -> Z -> Z -> Rows;
  (* [Image.convert] on one pixel: source mode, target mode *)
  convert : string -> string -> Pixel -> Pixel;
  (* the per-pixel blend of [Image.paste] with a mask value *)
  blend : Pixel -> Pixel -> Z -> Pixel;
  (* [x ** 0.5] on a float *)
  fsqrt : Float.float -> Float.float
}.

Definition empty_frame : Frame :=
  {| mode := "RGB"; width := 0; height := 0; pixels := [] |}.

(** [Image.new(mode, (w, h), color)] *)
Definition new_frame (m : string) (w h : Z) (color : Pixel) : Frame :=
  {| mode := m; width := w; height := h;
     pixels := repeat (repeat color (Z.to_nat w)) (Z.to_nat h) |}.

(** The pixel at column [x], row [y]. *)
Definition getpixel (f : Frame) (x y : nat) : option Pixel :=
  match pixels f !! y with
  | Some row => row !! x
  | None => None
  end.

(** [ImageOps.flip]: top to bottom. *)
Definition flip (f : Frame) : Frame :=
  {| mode := mode f; width := width f; height := height f;
     pixels := rev (pixels f) |}.

(** [ImageOps.mirror]: left to right. *)
Definition mirror (f : Frame) : Frame :=
  {| mode := mode f; width := width f; height := height f;
     pixels := map (@rev Pixel) (pixels f) |}.

(** Column [j] of a raster, read top to bottom. *)
Definition column (rows : Rows) (j : nat) : list Pixel :=
  map (fun row => nth j row []) rows.

Definition columns (w : nat) (rows : Rows) : Rows :=
  map (column rows) (seq 0 w).

(** [Image.rotate(90, expand=True)]: a quarter turn counter-clockwise; the
    first row of the result is the last column of the source. *)
Definition rotate90 (f : Frame) : Frame :=
  {| mode := mode f; width := height f; height := width f;
     pixels := rev (columns (Z.to_nat (width f)) (pixels f)) |}.

(** The target size of [Image.thumbnail] (Pillow 4 to 6, current when the
    program was written): shrink to the box keeping the aspect ratio, never
    enlarge.  Sizes are non-negative. *)
Definition thumbnail_size (w h : Z) (size : Z * Z) : Z * Z :=
  let '(x, y) := (w, h) in
  let '(x, y) := if x >? fst size then (fst size, Z.max (y * fst size / x) 1)
                 else (x, y) in
  let '(x, y) := if y >? snd size then (Z.max (x * snd size / y) 1, snd size)
                 else (x, y) in
  (x, y).

(** The content an image has after [thumbnail(size)].  An image that
    already has the target size is left alone; otherwise it is resized, and
    [Image.resize] raises ValueError for a target with an empty side (later
    versions of the library raise ZeroDivisionError at the same call). *)
Definition thumbnail `{Primitives} (f : Frame) (size : Z * Z)
    : Py.result Frame :=
  let '(x, y) := thumbnail_size (width f) (height f) size in
  if (x =? width f) && (y =? height f) then Py.Ok f
  else if (x <? 1) || (y <? 1) then Py.Raise Py.ValueError
  else Py.Ok {| mode := mode f; width := x; height := y;
                pixels := resample (pixels f) x y |}.

(** Number of bands of a mode ([Image.getbands]). *)
Definition nbands (m : string) : nat :=
  if String.eqb m "RGBA" then 4
  else if String.eqb m "CMYK" then 4
  else if String.eqb m "RGBX" then 4
  else if String.eqb m "RGB" then 3
  else if String.eqb m "YCbCr" then 3
  else if String.eqb m "HSV" then 3
  else if String.eqb m "LAB" then 3
  else if String.eqb m "LA" then 2
  else 1.

(** Band [k] of a frame as a single-band image ([Image.split()[k]]). *)
Definition band (f : Frame) (k : nat) : Frame :=
  {| mode := "L"; width := width f; height := height f;
     pixels := map (map (fun p : Pixel => [nth k p 0])) (pixels f) |}.

(** The content of [dst] after [dst.paste(src, corner, mask)]: every pixel
    of [dst] covered by [src] placed at [corner] is replaced, through the
    mask when there is one. *)
Definition paste `{Primitives} (dst src : Frame) (corner : Z * Z)
    (mask : option Frame) : Frame :=
  let put (Y X : nat) (p : Pixel) : Pixel :=
    let x := Z.of_nat X - fst corner in
    let y := Z.of_nat Y - snd corner in
    if (0 <=? x) && (x <? width src) && (0 <=? y) && (y <? height src) then
      match getpixel src (Z.to_nat x) (Z.to_nat y) with
      | Some q =>
          let q' := if String.eqb (mode src) (mode dst) then q
                    else convert (mode src) (mode dst) q in
          match mask with
          | None => q'
          | Some mk =>
              match getpixel mk (Z.to_nat x) (Z.to_nat y) with
              | Some [a] => blend p q' a
              | _ => p
              end
          end
      | None => p
      end
    else p in
  {| mode := mode dst; width := width dst; height := height dst;
     pixels := imap (fun Y row => imap (put Y) row) (pixels dst) |}.

End Raster.

(* ===================================================================== *)
(** ** PIL image objects: references into a store *)
(* ===================================================================== *)

Module Heap.
Import Raster Geometry.

(** An image object is a reference; the store holds the content of every
    object allocated so far.  Objects are never freed. *)
Abbreviation ref := nat.
Abbreviation Store := (list Frame).

(** Store-passing computations. *)
Definition M (A : Type) : Type := Store -> A * Store.

Definition ret {A} (a : A) : M A := fun s => (a, s).
Definition bind {A B} (m : M A) (k : A -> M B) : M B :=
  fun s => let '(a, s') := m s in k a s'.

Notation "x <- m ;; k" := (bind m (fun x => k))
  (at level 100, m at next level, right associativity).
Notation "m ;;; k" := (bind m (fun _ => k))
  (at level 100, right associativity).

Definition alloc (f : Frame) : M ref := fun s => (length s, s ++ [f]).
Definition load (r : ref) : M Frame := fun s => (default empty_frame (s !! r), s).
Definition store (r : ref) (f : Frame) : M unit := fun s => (tt, <[r := f]> s).

(** *** The PIL calls of the source *)

(** [Image.new(mode, size, color)] *)
Definition Image_new (m : string) (size : Z * Z) (color : Pixel) : M ref :=
  alloc (new_frame m (fst size) (snd size) color).

(** [img.copy()]: a new object with the same content. *)
Definition Image_copy (r : ref) : M ref := f <- load r ;; alloc f.

(** [img.thumbnail(size)]: rescales [img] itself; returns nothing.  When
    the call raises, [img] is as it was. *)
Definition Image_thumbnail `{Primitives} (r : ref) (size : Z * Z)
    : M (Py.result unit) :=
  f <- load r ;;
  match thumbnail f size with
  | Py.Ok f' => store r f' ;;; ret (Py.Ok tt)
  | Py.Raise e => ret (Py.Raise e)
  end.

(** [ImageOps.flip(img)], [ImageOps.mirror(img)], [img.rotate(90, expand=True)]:
    each returns a new object. *)
Definition ImageOps_flip (r : ref) : M ref := f <- load r ;; alloc (flip f).
Definition ImageOps_mirror (r : ref) : M ref := f <- load r ;; alloc (mirror f).
Definition Image_rotate90 (r : ref) : M ref := f <- load r ;; alloc (rotate90 f).

(** [img.split()]: one new object per band. *)
Fixpoint alloc_all (fs : list Frame) : M (list ref) :=
  match fs with
  | [] => ret []
  | f :: fs' => r <- alloc f ;; rs <- alloc_all fs' ;; ret (r :: rs)
  end.

Definition Image_split (r : ref) : M (list ref) :=
  f <- load r ;; alloc_all (map (band f) (seq 0 (nbands (mode f)))).

(** [dst.paste(src, corner, mask)]: draws into [dst] itself. *)
Definition Image_paste `{Primitives} (dst src : ref) (corner : Z * Z)
    (mask : option ref) : M unit :=
  d <- load dst ;;
  s <- load src ;;
  match mask with
  | None => store dst (paste d s corner None)
  | Some m => mk <- load m ;; store dst (paste d s corner (Some mk))
  end.

(** One turn of the loop of lines 418-422. *)
Definition paste_quadrant `{Primitives} (canvas img : ref) (corner : Z * Z)
    : M unit :=
  f <- load img ;;
  if String.eqb (mode f) "RGBA" then
    bands <- Image_split img ;;
    Image_paste canvas img corner (last bands)
  else Image_paste canvas img corner None.

(** The four mirrored images of lines 387-400, in the order
    (top, bottom, left, right); nothing follows a [thumbnail] that raises. *)
Definition quadrants `{Primitives} (media_length_px : Z) (media : ref)
    : M (Py.result (ref * ref * ref * ref)) :=
  top <- Image_copy media ;;
  scaled <- Image_thumbnail top (media_length_px, media_length_px) ;;
  match scaled with
  | Py.Raise e => ret (Py.Raise e)
  | Py.Ok _ =>
      bottom <- ImageOps_flip top ;;
      rotated <- Image_rotate90 top ;;
      left <- ImageOps_flip rotated ;;
      right <- ImageOps_mirror left ;;
      ret (Py.Ok (top, bottom, left, right))
  end.

(** Lines 406-415: the debug backdrop. *)
Definition debug_overlay `{Primitives} (d : Display) (center_px : Z)
    (canvas : ref) : M unit :=
  let shp := height_px d in
  hologram <- Image_new "RGB" (shp, shp) [0; 157; 172] ;;
  context <- Image_new "RGB" (shp, shp) [173; 243; 0] ;;
  center <- Image_new "RGB" (center_px, center_px) [255; 0; 0] ;;
  let center_coord := Py.int (inject_Z (shp - center_px) / 2) in
  Image_paste canvas hologram (0, 0) None ;;;
  Image_paste canvas context (shp, 0) None ;;;
  Image_paste canvas center (center_coord, center_coord) None.

(** Lines 389-424: the quadrants are placed and painted on a new canvas. *)
Definition compose `{Primitives} (d : Display) (debug : bool) (clp : Z)
    (q : ref * ref * ref * ref) : M ref :=
  let '(q_top, q_bottom, q_left, q_right) := q in
  top_f <- load q_top ;;
  left_f <- load q_left ;;
  right_f <- load q_right ;;
  let lay := placement d clp (width top_f) (height top_f)
                       (height left_f) (width right_f) in
  canvas <- Image_new "RGBA" (width_px d, height_px d) [0; 0; 0; 255] ;;
  (if debug then debug_overlay d clp canvas else ret tt) ;;;
  paste_quadrant canvas q_top (top_x lay, top_y lay) ;;;
  paste_quadrant canvas q_bottom (bottom_x lay, bottom_y lay) ;;;
  paste_quadrant canvas q_left (left_x lay, left_y lay) ;;;
  paste_quadrant canvas q_right (right_x lay, right_y lay) ;;;
  ret canvas.

(** [Polo.hologrify(media)] (lines 356-424); [debug] is [args.debug].  The
    arithmetic of lines 368-384 comes first and allocates nothing; the
    call of [thumbnail] at line 388 can raise after [top] was copied. *)
Definition hologrify `{Primitives} (d : Display) (debug : bool) (media : ref)
    : M (Py.result ref) :=
  match lengths fsqrt d with
  | Py.Raise e => ret (Py.Raise e)
  | Py.Ok (mlp, clp) =>
      q <- quadrants mlp media ;;
      match q with
      | Py.Raise e => ret (Py.Raise e)
      | Py.Ok q => canvas <- compose d debug clp q ;; ret (Py.Ok canvas)
      end
  end.

(** [hologrify] on a frame value: run it on a private store and read the
    result back (what [ImageQt(self.hologrify(frame))] captures). *)
Definition hologrify_frame `{Primitives} (d : Display) (debug : bool)
    (f : Frame) : Py.result Frame :=
  match hologrify d debug 0%nat [f] with
  | (Py.Ok r, s) => Py.Ok (default empty_frame (s !! r))
  | (Py.Raise e, _) => Py.Raise e
  end.

(** *** Vocabulary for the properties of the store *)

(** The content of object [r]. *)
Definition content (s : Store) (r : ref) : Frame := default empty_frame (s !! r).

(** [s'] extends [s] and agrees with it on every object below [n]. *)
Definition keeps (n : nat) (s s' : Store) : Prop :=
  (length s <= length s')%nat /\ forall r, (r < n)%nat -> s' !! r = s !! r.

(** A computation started on a store holding at least [n] objects leaves
    the first [n] as they are, and its result satisfies [Q]. *)
Definition triple {A} (n : nat) (m : M A) (Q : A -> Prop) : Prop :=
  forall s, (n <= length s)%nat -> keeps n s (snd (m s)) /\ Q (fst (m s)).

End Heap.

(* ===================================================================== *)
(** ** The file list of [choose_media] (lines 225-230) *)
(* ===================================================================== *)

Module Files.

(** Lines 90-91. *)
Definition image_fmts : list string := ["bmp"; "gif"; "jpeg"; "jpg"; "png"; "ppm"].
Definition video_fmts : list string := ["avi"; "mkv"; "mov"; "mp4"; "mpg"; "mpeg"].

(** [Polo.get_fmt]: the extension without its dot.  Paths are represented
    by their file names: all entries of one listing share the directory. *)
Definition get_fmt (path : string) : string :=
  Py.drop_str 1 (Py.suffix path).

(** [glob.glob(dir/"*")] on the names of a directory: [*] does not match
    names that start with a dot. *)
Definition glob_star (listing : list string) : list string :=
  List.filter (fun name => negb (String.prefix "." name)) listing.

(** The list the filter of lines 228-229 tests membership in. *)
Definition accepted_fmts : list string :=
  (image_fmts ++ video_fmts) ++ map Py.upper (image_fmts ++ video_fmts).

Definition accepted (f : string) : bool := Py.str_in (get_fmt f) accepted_fmts.

(** Lines 227-230: the new value of [self.files]. *)
Definition media_files (listing : list string) : list string :=
  Py.sort_by Py.lower (List.filter accepted (glob_star listing)).

(** The reading of the specification: the extension, lower-cased, is one of
    the twelve recognised ones. *)
Definition recognised (f : string) : bool :=
  Py.str_in (Py.lower (get_fmt f)) (image_fmts ++ video_fmts).

(** Ordered by lower-cased name. *)
Definition lower_le (a b : string) : Prop :=
  String.leb (Py.lower a) (Py.lower b) = true.

End Files.

(* ===================================================================== *)
(** ** The fields of the [Polo] object and its slots *)
(* ===================================================================== *)

Module Session.
Import Raster Geometry.

(** An open [imageio] reader. *)
Record Video : Type := {
  vpath : string;
  meta_fps : Q;                  (* get_meta_data()["fps"] *)
  vlen : Z;                      (* len(reader), as reported *)
  get_data : Z -> option Frame   (* [None]: RuntimeError *)
}.

(** The value of [self.media], by its runtime type. *)
Inductive Media : Type :=
| MNone
| MImage (img : Frame)
| MVideo (v : Video).

Definition is_video (m : Media) : bool :=
  match m with MVideo _ => true | _ => false end.

(** What opening a path yields; [None] is a raised error. *)
Record World : Type := {
  image_open : string -> option Frame;   (* Image.open *)
  get_reader : string -> option Video    (* imageio.get_reader(path, "ffmpeg") *)
}.

Record Polo : Type := {
  files : list string;
  current_file_index : Z;
  media : Media;
  qmedia : option Frame;
  preview_qmedia : option Frame;
  player_alive : bool;             (* player_thread.is_alive() *)
  closed : list string;            (* readers closed so far, by path *)
  display_pixmap : option Frame;   (* display_widget's pixmap *)
  preview_pixmap : option Frame;   (* media_preview_stack.widget(1)'s pixmap *)
  preview_index : Z;               (* media_preview_stack.currentIndex() *)
  controls_enabled : bool;         (* nav widget, size checkbox, shortcuts *)
  display : Display
}.

(** The initial field values (lines 46-91 and the constructor). *)
Definition initial (d : Display) : Polo :=
  {| files := []; current_file_index := -1; media := MNone;
     qmedia := None; preview_qmedia := None; player_alive := false;
     closed := []; display_pixmap := None; preview_pixmap := None;
     preview_index := 0; controls_enabled := false; display := d |}.

Definition set_files (fs : list string) (s : Polo) : Polo :=
  {| files := fs; current_file_index := current_file_index s;
     media := media s; qmedia := qmedia s; preview_qmedia := preview_qmedia s;
     player_alive := player_alive s; closed := closed s;
     display_pixmap := display_pixmap s; preview_pixmap := preview_pixmap s;
     preview_index := preview_index s; controls_enabled := controls_enabled s;
     display := display s |}.

Definition set_index (i : Z) (s : Polo) : Polo :=
  {| files := files s; current_file_index := i;
     media := media s; qmedia := qmedia s; preview_qmedia := preview_qmedia s;
     player_alive := player_alive s; closed := closed s;
     display_pixmap := display_pixmap s; preview_pixmap := preview_pixmap s;
     preview_index := preview_index s; controls_enabled := controls_enabled s;
     display := display s |}.

Definition set_media_qmedia (m : Media) (q : option Frame) (s : Polo) : Polo :=
  {| files := files s; current_file_index := current_file_index s;
     media := m; qmedia := q; preview_qmedia := preview_qmedia s;
     player_alive := player_alive s; closed := closed s;
     display_pixmap := display_pixmap s; preview_pixmap := preview_pixmap s;
     preview_index := preview_index s; controls_enabled := controls_enabled s;
     display := display s |}.

Definition set_controls (b : bool) (s : Polo) : Polo :=
  {| files := files s; current_file_index := current_file_index s;
     media := media s; qmedia := qmedia s; preview_qmedia := preview_qmedia s;
     player_alive := player_alive s; closed := closed s;
     display_pixmap := display_pixmap s; preview_pixmap := preview_pixmap s;
     preview_index := preview_index s; controls_enabled := b;
     display := display s |}.

(** [Polo.stop] (lines 347-354) as its caller sees it once it has returned:
    the reference is dropped, the reader closed, the player thread joined.
    The interleaving with the two threads is in [Threads]. *)
Definition stop (s : Polo) : Polo :=
  match media s with
  | MVideo video =>
      {| files := files s; current_file_index := current_file_index s;
         media := MNone; qmedia := qmedia s; preview_qmedia := preview_qmedia s;
         player_alive := false; closed := vpath video :: closed s;
         display_pixmap := display_pixmap s; preview_pixmap := preview_pixmap s;
         preview_index := preview_index s; controls_enabled := controls_enabled s;
         display := display s |}
  | _ => s
  end.

Section Slots.
Context `{Primitives}.
Variable debug : bool.     (* args.debug *)
Variable w : World.

(** [self.media_preview_stack.setCurrentIndex(i)] *)
Definition set_preview_index (i : Z) (s : Polo) : Polo :=
  {| files := files s; current_file_index := current_file_index s;
     media := media s; qmedia := qmedia s; preview_qmedia := preview_qmedia s;
     player_alive := player_alive s; closed := closed s;
     display_pixmap := display_pixmap s; preview_pixmap := preview_pixmap s;
     preview_index := i; controls_enabled := controls_enabled s;
     display := display s |}.

(** [Polo.refresh] (lines 278-291).  When [hologrify] raises, line 283 has
    assigned nothing yet. *)
Definition refresh (s : Polo) : Polo * Py.result unit :=
  match media s with
  | MImage img =>
      match Heap.hologrify_frame (display s) debug img with
      | Py.Raise e => (s, Py.Raise e)
      | Py.Ok q =>
          (set_preview_index 1
             {| files := files s; current_file_index := current_file_index s;
                media := media s; qmedia := Some q; preview_qmedia := Some img;
                player_alive := player_alive s; closed := closed s;
                display_pixmap := Some q; preview_pixmap := Some img;
                preview_index := preview_index s;
                controls_enabled := controls_enabled s; display := display s |},
           Py.Ok tt)
      end
  | MVideo _ =>
      (set_preview_index 1
         (if player_alive s then s
          else
            {| files := files s; current_file_index := current_file_index s;
               media := media s; qmedia := qmedia s;
               preview_qmedia := preview_qmedia s;
               player_alive := true; closed := closed s;
               display_pixmap := display_pixmap s;
               preview_pixmap := preview_pixmap s;
               preview_index := preview_index s;
               controls_enabled := controls_enabled s; display := display s |}),
       Py.Ok tt)
  | MNone => (set_preview_index 1 s, Py.Ok tt)
  end.

(** [Polo.set_media] (lines 235-260).  The state returned with a raised
    exception is the state at the raise: Python undoes nothing.  An image
    is assigned to [self.media] at line 243 before line 244 composes it. *)
Definition set_media (s : Polo) : Polo * Py.result unit :=
  match Py.index (files s) (current_file_index s) with
  | Py.Raise e => (s, Py.Raise e)
  | Py.Ok media_path =>
      let fmt := Files.get_fmt media_path in
      if Py.str_in (Py.lower fmt) Files.image_fmts then
        match image_open w media_path with
        | None => (s, Py.Raise Py.IOError)
        | Some img =>
            match Heap.hologrify_frame (display s) debug img with
            | Py.Raise e => (set_media_qmedia (MImage img) (qmedia s) s, Py.Raise e)
            | Py.Ok q =>
                refresh (set_controls true (set_media_qmedia (MImage img) (Some q) s))
            end
        end
      else if Py.str_in (Py.lower fmt) Files.video_fmts then
        let s1 := if is_video (media s) then stop s else s in
        match get_reader w media_path with
        | None => (s1, Py.Raise Py.IOError)
        | Some v =>
            let s2 := set_media_qmedia (MVideo v) None s1 in
            refresh (set_controls true s2)
        end
      else refresh (set_controls true s)
  end.

(** [Polo.advance_media] (lines 269-276). *)
Definition advance_media (step : Z) (s : Polo) : Polo * Py.result unit :=
  let s1 := set_index (current_file_index s + step) s in
  match Py.imod (current_file_index s1) (Z.of_nat (length (files s1))) with
  | Py.Raise e => (s1, Py.Raise e)
  | Py.Ok i => set_media (set_index i s1)
  end.

(** [Polo.choose_media] from line 225 on: [chosen] is the file the dialog
    returned (empty when cancelled), [listing] the names in its directory. *)
Definition choose_media (listing : list string) (chosen : string) (s : Polo)
    : Polo * Py.result unit :=
  if String.eqb chosen "" then (s, Py.Ok tt)
  else
    let s1 := set_files (Files.media_files listing) s in
    match Py.list_index chosen (files s1) with
    | None => (s1, Py.Raise Py.ValueError)
    | Some i => set_media (set_index (Z.of_nat i) s1)
    end.

End Slots.

(** How [set_media] classifies a path, and whether opening it fails. *)
Definition is_image_path (path : string) : bool :=
  Py.str_in (Py.lower (Files.get_fmt path)) Files.image_fmts.

Definition is_video_path (path : string) : bool :=
  negb (is_image_path path)
  && Py.str_in (Py.lower (Files.get_fmt path)) Files.video_fmts.

Definition open_fails (w : World) (path : string) : bool :=
  if is_image_path path then
    match image_open w path with None => true | Some _ => false end
  else if is_video_path path then
    match get_reader w path with None => true | Some _ => false end
  else false.

End Session.

(* ===================================================================== *)
(** ** The producer loop [process_frames] (lines 300-325) *)
(* ===================================================================== *)

Module Pipeline.
Import Raster Geometry Heap Session.

(** What [play] fixes before the loops start, and what the widgets report. *)
Record Config : Type := {
  fps : Z;                  (* int(meta["fps"]) *)
  thumbnail_size : Z * Z;   (* media_preview_stack.widget(1).size() *)
  screen : Display;
  debug : bool              (* args.debug *)
}.

(** [frame_tuple]: the display pixmap and the preview pixmap, if any. *)
Definition FramePair : Type := (Frame * option Frame)%type.

(** How one pass through the loop body ends. *)
Inductive Outcome : Type :=
| Retry                     (* RuntimeError caught: [i = 0; continue] *)
| Offered (p : FramePair)   (* [frame_tuple] reaches [frame_buffer.put] *)
| Crashed (e : Py.exn).     (* an exception leaves the thread *)

Section Producer.
Context `{Primitives}.
Variable cfg : Config.

(** Lines 312-317 on the image objects: [frame] is the decoded frame,
    [i] the counter after its increment.  An exception of [hologrify], of
    [i % fps] or of the preview's [thumbnail] ends the pass. *)
Definition frame_tuple (i : Z) (frame : ref) : M (Py.result FramePair) :=
  composite <- hologrify (screen cfg) (debug cfg) frame ;;
  match composite with
  | Py.Raise e => ret (Py.Raise e)
  | Py.Ok h =>
      pixmap <- load h ;;
      match Py.imod i (fps cfg) with
      | Py.Raise e => ret (Py.Raise e)
      | Py.Ok r =>
          if r =? 0 then
            scaled <- Image_thumbnail frame (thumbnail_size cfg) ;;
            match scaled with
            | Py.Raise e => ret (Py.Raise e)
            | Py.Ok _ =>
                qimage <- load frame ;;
                ret (Py.Ok (pixmap, Some qimage))
            end
          else ret (Py.Ok (pixmap, None))
      end
  end.

(** Lines 305-317: one pass through the body, from counter [i] with
    [self.media = m]; returns the new counter. *)
Definition produce (m : Media) (i : Z) : Z * Outcome :=
  match m with
  | MVideo v =>
      match Py.imod i (vlen v) with
      | Py.Raise e => (i, Crashed e)
      | Py.Ok k =>
          match get_data v k with
          | None => (0, Retry)
          | Some decoded =>
              let i' := i + 1 in
              let prog := frame <- alloc decoded ;; frame_tuple i' frame in
              match fst (prog []) with
              | Py.Ok p => (i', Offered p)
              | Py.Raise e => (i', Crashed e)
              end
          end
      end
  | _ => (i, Crashed Py.AttributeError)
  end.

(** The loop while the video stays the active media: the outcomes of the
    first [fuel] passes from counter [i]. *)
Fixpoint process_frames (v : Video) (fuel : nat) (i : Z) : list Outcome :=
  match fuel with
  | O => []
  | S n =>
      let '(i', o) := produce (MVideo v) i in
      o :: match o with
           | Crashed _ => []
           | _ => process_frames v n i'
           end
  end.

End Producer.


Definition is_offered (o : Outcome) : bool :=
  match o with Offered _ => true | _ => false end.


End Pipeline.

(* ===================================================================== *)
(** ** [stop()] against the player and producer threads *)
(* ===================================================================== *)

Module Threads.
Import Raster Session Pipeline.

(** Where the main thread stands in [stop] (lines 351-354). *)
Inductive MainPc : Type :=
| Stop_enter    (* before [video = self.media] *)
| Stop_swap     (* before [self.media = None] *)
| Stop_close    (* before [video.close()] *)
| Stop_join     (* before [self.player_thread.join()] *)
| Stop_ret.     (* returned *)

(** Where the player thread stands in the loop of [play] (lines 332-345). *)
Inductive PlayerPc : Type :=
| Play_test     (* at [while type(self.media) is Video] *)
| Play_get      (* at [frame_buffer.get()] *)
| Play_sleep    (* at [time.sleep(1 / fps)] *)
| Play_join     (* at [frame_producer.join()] *)
| Play_done.

(** Where the producer thread stands in [process_frames]. *)
Inductive ProducerPc : Type :=
| Prod_test                    (* at [while type(self.media) is Video] *)
| Prod_body                    (* inside the loop, before the decode *)
| Prod_put (p : FramePair)     (* at [frame_buffer.put] *)
| Prod_done (e : option Py.exn).  (* left the loop, or died of [e] *)

Record State : Type := {
  media : Media;                 (* self.media, shared *)
  video : Media;                 (* the local [video] of [stop] *)
  closed : bool;                 (* [video.close()] has run *)
  main_pc : MainPc;
  player_pc : PlayerPc;
  producer_pc : ProducerPc;
  counter : Z;                   (* the producer's [i] *)
  frame_buffer : list FramePair; (* queue.Queue(10), oldest first *)
  shown : list FramePair         (* what the player has displayed, newest first *)
}.

Definition capacity : nat := 10.

(** Which thread moves next; [Put_timeout] is the producer's [put] giving
    up after [2/fps] seconds on a full queue. *)
Inductive Choice : Type := Run_main | Run_player | Run_producer | Put_timeout.

Definition player_exited (s : State) : bool :=
  match player_pc s with Play_done => true | _ => false end.

Definition producer_exited (s : State) : bool :=
  match producer_pc s with Prod_done _ => true | _ => false end.

Definition with_main (s : State) (m v : Media) (c : bool) (pc : MainPc) : State :=
  {| media := m; video := v; closed := c; main_pc := pc;
     player_pc := player_pc s; producer_pc := producer_pc s;
     counter := counter s; frame_buffer := frame_buffer s; shown := shown s |}.

Definition with_player (s : State) (pc : PlayerPc) (q sh : list FramePair) : State :=
  {| media := media s; video := video s; closed := closed s;
     main_pc := main_pc s; player_pc := pc; producer_pc := producer_pc s;
     counter := counter s; frame_buffer := q; shown := sh |}.

Definition with_producer (s : State) (pc : ProducerPc) (i : Z)
    (q : list FramePair) : State :=
  {| media := media s; video := video s; closed := closed s;
     main_pc := main_pc s; player_pc := player_pc s; producer_pc := pc;
     counter := i; frame_buffer := q; shown := shown s |}.

Section Interleaving.
Context `{Primitives}.
Variable cfg : Config.

(** One statement of [stop]; [join] is enabled once the player is done. *)
Definition step_main (s : State) : option State :=
  match main_pc s with
  | Stop_enter => Some (with_main s (media s) (media s) (closed s) Stop_swap)
  | Stop_swap => Some (with_main s MNone (video s) (closed s) Stop_close)
  | Stop_close => Some (with_main s (media s) (video s) true Stop_join)
  | Stop_join =>
      if player_exited s
      then Some (with_main s (media s) (video s) (closed s) Stop_ret)
      else None
  | Stop_ret => None
  end.

(** One statement of the player loop; [get] waits for a pair, the final
    [join] for the producer. *)
Definition step_player (s : State) : option State :=
  match player_pc s with
  | Play_test =>
      Some (with_player s (if is_video (media s) then Play_get else Play_join)
                        (frame_buffer s) (shown s))
  | Play_get =>
      match frame_buffer s with
      | [] => None
      | p :: q => Some (with_player s Play_sleep q (p :: shown s))
      end
  | Play_sleep => Some (with_player s Play_test (frame_buffer s) (shown s))
  | Play_join =>
      if producer_exited s
      then Some (with_player s Play_done (frame_buffer s) (shown s))
      else None
  | Play_done => None
  end.

(** One step of the producer: the loop test, the body up to the pair
    (one step here; the source reads [self.media] twice inside it), or a
    [put] that finds room. *)
Definition step_producer (s : State) : option State :=
  match producer_pc s with
  | Prod_test =>
      Some (with_producer s
              (if is_video (media s) then Prod_body else Prod_done None)
              (counter s) (frame_buffer s))
  | Prod_body =>
      let '(i', o) := produce cfg (media s) (counter s) in
      Some (with_producer s
              match o with
              | Retry => Prod_test
              | Offered p => Prod_put p
              | Crashed e => Prod_done (Some e)
              end i' (frame_buffer s))
  | Prod_put p =>
      if (length (frame_buffer s) <? capacity)%nat
      then Some (with_producer s Prod_test (counter s) (frame_buffer s ++ [p]))
      else None
  | Prod_done _ => None
  end.

(** [queue.Full]: the pair is dropped and the loop continues. *)
Definition step_timeout (s : State) : option State :=
  match producer_pc s with
  | Prod_put _ =>
      if (length (frame_buffer s) <? capacity)%nat then None
      else Some (with_producer s Prod_test (counter s) (frame_buffer s))
  | _ => None
  end.

Definition step (c : Choice) (s : State) : option State :=
  match c with
  | Run_main => step_main s
  | Run_player => step_player s
  | Run_producer => step_producer s
  | Put_timeout => step_timeout s
  end.

(** Run a schedule; [None] when it asks a blocked thread to move. *)
Fixpoint run (sched : list Choice) (s : State) : option State :=
  match sched with
  | [] => Some s
  | c :: rest =>
      match step c s with
      | Some s' => run rest s'
      | None => None
      end
  end.

End Interleaving.

(** A state in which [stop()] is being called on a playing video: the
    reader is open and is the active media, both loops are running. *)
Definition playing (s : State) : bool :=
  is_video (media s) && negb (closed s) &&
  match main_pc s with Stop_enter => true | _ => false end &&
  match player_pc s with
  | Play_test | Play_get | Play_sleep => true
  | _ => false
  end &&
  match producer_pc s with
  | Prod_test | Prod_body | Prod_put _ => true
  | Prod_done _ => false
  end.

(** A state with the video active, nothing queued, [stop] about to run. *)
Definition rolling (v : Video) (i : Z) (player : PlayerPc)
    (producer : ProducerPc) : State :=
  {| media := MVideo v; video := MNone; closed := false;
     main_pc := Stop_enter; player_pc := player; producer_pc := producer;
     counter := i; frame_buffer := []; shown := [] |}.

(** What holds at every point of [stop]: the reader is closed only after
    the reference was dropped, [stop] has returned only if the player is
    done, and the player is done only if the producer is. *)
Definition stop_invariant (s : State) : Prop :=
  match main_pc s with
  | Stop_enter | Stop_swap => closed s = false
  | Stop_close => closed s = false /\ media s = MNone
  | Stop_join => media s = MNone
  | Stop_ret => media s = MNone /\ player_exited s = true
  end
  /\ (player_exited s = true -> producer_exited s = true).

End Threads.

(* ===================================================================== *)
(** ** Concrete inputs used to evaluate the model *)
(* ===================================================================== *)

Module Samples.
Import Raster Geometry Session Pipeline.

(** Reference primitives for evaluation: nearest-neighbour sampling, no
    colour conversion, opaque paste, the correctly rounded square root. *)
Definition nearest (rows : Rows) (w h : Z) : Rows :=
  let sh := Z.of_nat (length rows) in
  map (fun Y =>
         let row := nth (Z.to_nat (Z.of_nat Y * sh / h)) rows [] in
         let sw := Z.of_nat (length row) in
         map (fun X => nth (Z.to_nat (Z.of_nat X * sw / w)) row [])
             (seq 0 (Z.to_nat w)))
      (seq 0 (Z.to_nat h)).

Definition reference : Primitives :=
  {| resample := nearest;
     convert := fun _ _ p => p;
     blend := fun _ q _ => q;
     fsqrt := Float.sqrt |}.

(** A 1920x1080 panel reporting 96 dpi, automatic sizing. *)
Definition panel (dpi height_mm : Z) : Display :=
  {| width_px := 1920; height_px := 1080; physicalDpiX := dpi;
     widthMM := 508; heightMM := height_mm; autosize := true;
     output_screen_size := 32 |}.

(** A tiny display, to keep composites small. *)
Definition tiny : Display :=
  {| width_px := 8; height_px := 6; physicalDpiX := 96;
     widthMM := 2; heightMM := 102; autosize := true;
     output_screen_size := 32 |}.

(** A 2x2 RGB frame with four distinct pixels. *)
Definition quad (tag : Z) : Frame :=
  {| mode := "RGB"; width := 2; height := 2;
     pixels := [[[tag; 0; 0]; [tag; 1; 0]]; [[tag; 0; 1]; [tag; 1; 1]]] |}.

(** A three-frame clip at 3 fps whose reported length is right. *)
Definition clip : Video :=
  {| vpath := "clip.mp4"; meta_fps := 3; vlen := 3;
     get_data := fun k => if (0 <=? k) && (k <? 3) then Some (quad k) else None |}.

(** The same clip with its length over-reported by one. *)
Definition long_clip : Video :=
  {| vpath := "long.mp4"; meta_fps := 3; vlen := 4;
     get_data := fun k => if (0 <=? k) && (k <? 3) then Some (quad k) else None |}.

Definition config : Config :=
  {| fps := 3; thumbnail_size := (1, 1); screen := tiny; debug := false |}.

(** A file system in which [b.png] and [bad.mp4] cannot be opened. *)
Definition world : World :=
  {| image_open := fun path =>
       if String.eqb path "b.png" then None else Some (quad 1);
     get_reader := fun path =>
       if String.eqb path "bad.mp4" then None else Some clip |}.

(** A session showing [a.png], alone in its directory. *)
Definition showing : Polo :=
  {| files := ["a.png"]; current_file_index := 0; media := MImage (quad 1);
     qmedia := None; preview_qmedia := Some (quad 1); player_alive := false;
     Session.closed := []; display_pixmap := None;
     preview_pixmap := Some (quad 1); preview_index := 1;
     controls_enabled := true; display := tiny |}.

(** A session playing [clip.mp4], alone in its directory. *)
Definition watching : Polo :=
  {| files := ["clip.mp4"]; current_file_index := 0; media := MVideo clip;
     qmedia := None; preview_qmedia := None; player_alive := true;
     Session.closed := []; display_pixmap := None; preview_pixmap := None;
     preview_index := 1; controls_enabled := true; display := tiny |}.

(** A session with five files. *)
Definition five : Polo :=
  set_files ["a.png"; "c.png"; "d.png"; "e.png"; "f.png"] showing.

End Samples.

(* ===================================================================== *)
(** ** The remaining slots, and what [play] reads from the stream *)
(* ===================================================================== *)

Module Controls.
Import Raster Geometry Session Pipeline.

(** [Polo.clear_media] (lines 435-450). *)
Definition clear_media (s : Polo) : Polo :=
  let s1 := if is_video (media s) then stop s else s in
  {| files := files s1; current_file_index := current_file_index s1;
     media := media s1; qmedia := None; preview_qmedia := preview_qmedia s1;
     player_alive := player_alive s1; Session.closed := Session.closed s1;
     display_pixmap := None; preview_pixmap := preview_pixmap s1;
     preview_index := 0; controls_enabled := false; display := display s1 |}.

(** *** [int(text)] on a short string *)

(** The characters below code point 256 that [str.strip] and [int] treat
    as white space. *)
Definition is_space (c : ascii) : bool :=
  let n := nat_of_ascii c in
  ((9 <=? n)%nat && (n <=? 13)%nat) || ((28 <=? n)%nat && (n <=? 32)%nat)
  || (n =? 133)%nat || (n =? 160)%nat.

Definition digit_value (c : ascii) : option Z :=
  let n := nat_of_ascii c in
  if (48 <=? n)%nat && (n <=? 57)%nat then Some (Z.of_nat n - 48) else None.

Fixpoint lstrip (s : string) : string :=
  match s with
  | EmptyString => EmptyString
  | String c s' => if is_space c then lstrip s' else s
  end.

Fixpoint rstrip (s : string) : string :=
  match s with
  | EmptyString => EmptyString
  | String c s' =>
      match rstrip s' with
      | EmptyString => if is_space c then EmptyString else String c EmptyString
      | r => String c r
      end
  end.

(** The value of a run of decimal digits continuing [acc]; [None] when a
    character is not a digit. *)
Fixpoint digits (acc : Z) (s : string) : option Z :=
  match s with
  | EmptyString => Some acc
  | String c s' =>
      match digit_value c with
      | Some d => digits (10 * acc + d) s'
      | None => None
      end
  end.

(** [int(s)] for [s] of at most two characters, as [size_changed] calls
    it: surrounding white space is dropped, a sign may lead, and at least
    one digit must follow.  (Digit-group underscores need three characters
    and cannot occur.) *)
Definition int_of_str (s : string) : Py.result Z :=
  let t := rstrip (lstrip s) in
  let unsigned (u : string) : option Z :=
    match u with
    | EmptyString => None
    | _ => digits 0 u
    end in
  let signed : option Z :=
    match t with
    | EmptyString => None
    | String c u =>
        if Ascii.eqb c "+" then unsigned u
        else if Ascii.eqb c "-" then option_map Z.opp (unsigned u)
        else unsigned t
    end in
  match signed with
  | Some n => Py.Ok n
  | None => Py.Raise Py.ValueError
  end.

Definition set_output_screen_size (n : Z) (s : Polo) : Polo :=
  {| files := files s; current_file_index := current_file_index s;
     media := media s; qmedia := qmedia s; preview_qmedia := preview_qmedia s;
     player_alive := player_alive s; Session.closed := Session.closed s;
     display_pixmap := display_pixmap s; preview_pixmap := preview_pixmap s;
     preview_index := preview_index s; controls_enabled := controls_enabled s;
     display :=
       {| width_px := width_px (display s); height_px := height_px (display s);
          physicalDpiX := physicalDpiX (display s);
          widthMM := widthMM (display s); heightMM := heightMM (display s);
          autosize := autosize (display s); output_screen_size := n |} |}.

(** [Polo.size_changed] (lines 426-433); [text] is [self.sender().text()]. *)
Definition size_changed `{Primitives} (debug : bool) (text : string) (s : Polo)
    : Polo * Py.result unit :=
  match int_of_str (substring 0 2 text) with
  | Py.Raise e => (s, Py.Raise e)
  | Py.Ok n => refresh debug (set_output_screen_size n s)
  end.

(** *** What [play] fixes at its start (lines 297-298) *)

(** [int(self.media.get_meta_data()["fps"])] *)
Definition play_fps (v : Video) : Z := Py.int (meta_fps v).

Definition play_config (v : Video) (preview_size : Z * Z) (d : Display)
    (dbg : bool) : Config :=
  {| fps := play_fps v; thumbnail_size := preview_size; screen := d;
     debug := dbg |}.

(** *** Vocabulary for the properties *)

(** [hologrify] gets through lines 368-388 whatever the frame: its
    arithmetic raises nothing, and the bounding square of a quadrant has at
    least one pixel a side, so that [thumbnail] has a size to scale to. *)
Definition composes `{Primitives} (d : Display) : bool :=
  match lengths fsqrt d with
  | Py.Ok (mlp, _) => 1 <=? mlp
  | Py.Raise _ => false
  end.

(** The declared mode and size of a frame. *)
Definition header (f : Frame) : string * Z * Z := (mode f, width f, height f).

(** The raster has as many rows and columns as the frame declares. *)
Definition well_formed (f : Frame) : Prop :=
  length (pixels f) = Z.to_nat (height f)
  /\ Forall (fun row => length row = Z.to_nat (width f)) (pixels f).

(** The display pixmap of an offered pair. *)
Definition displayed (o : Outcome) : option Frame :=
  match o with
  | Offered (pixmap, _) => Some pixmap
  | _ => None
  end.

(** The composite of a decoded frame, when there is a frame and
    [hologrify] returns. *)
Definition composite `{Primitives} (cfg : Config) (decoded : option Frame)
    : option Frame :=
  match decoded with
  | Some f =>
      match Heap.hologrify_frame (screen cfg) (debug cfg) f with
      | Py.Ok q => Some q
      | Py.Raise _ => None
      end
  | None => None
  end.

(** The preview pixmap of an offered pair. *)
Definition previewed (o : Outcome) : option Frame :=
  match o with
  | Offered (_, preview) => preview
  | _ => None
  end.

(** A computation run from a store satisfying [P] yields a result and a
    store satisfying [Q]. *)
Definition hoare {A} (P : Heap.Store -> Prop) (m : Heap.M A)
    (Q : A -> Heap.Store -> Prop) : Prop :=
  forall s, P s -> Q (fst (m s)) (snd (m s)).

(** Object [r] holds a well-formed frame with header [hdr]. *)
Definition holds (r : Heap.ref) (hdr : string * Z * Z) (s : Heap.Store) : Prop :=
  exists f, s !! r = Some f /\ header f = hdr /\ well_formed f.

(** How far [stop] has got with the reader [v] it was called on. *)
Definition stop_progress (v : Video) (s : Threads.State) : Prop :=
  match Threads.main_pc s with
  | Threads.Stop_enter =>
      Threads.media s = MVideo v /\ Threads.closed s = false
  | Threads.Stop_swap =>
      Threads.video s = MVideo v /\ Threads.closed s = false
  | Threads.Stop_close =>
      Threads.video s = MVideo v /\ Threads.closed s = false
      /\ Threads.media s = MNone
  | Threads.Stop_join | Threads.Stop_ret =>
      Threads.video s = MVideo v /\ Threads.closed s = true
      /\ Threads.media s = MNone
  end.

(** The column of the centre square's left edge and the row of its top
    edge, as the debug overlay draws it (line 411). *)
Definition center_coord (d : Display) (center_px : Z) : Z :=
  Py.int (inject_Z (height_px d - center_px) / 2).

End Controls.

(* ===================================================================== *)
(** ** More concrete inputs *)
(* ===================================================================== *)

Module MoreSamples.
Import Raster Geometry Session Pipeline.

(** A stream of one frame every two seconds. *)
Definition slow_clip : Video :=
  {| vpath := "slow.mp4"; meta_fps := 1 # 2; vlen := 3;
     get_data := get_data Samples.clip |}.

(** A 1920x1080 panel sized by hand as a 32 inch screen. *)
Definition manual_panel : Display :=
  {| width_px := 1920; height_px := 1080; physicalDpiX := 96;
     widthMM := 508; heightMM := 286; autosize := false;
     output_screen_size := 32 |}.

(** A [w]x[h] widget sized by hand as a screen of [inches] inches. *)
Definition by_hand (w h inches : Z) : Display :=
  {| width_px := w; height_px := h; physicalDpiX := 96;
     widthMM := 508; heightMM := 286; autosize := false;
     output_screen_size := inches |}.

(** 96 dots per inch, in dots per millimetre. *)
Definition dpmm_96 : Float.float := Float.div (Float.of_Z 96) mm_per_inch.

(** The double nearest to 3.4. *)
Definition dpmm_3_4 : Float.float := Float.div (Float.of_Z 34) (Float.of_Z 10).

End MoreSamples.

(* ===================================================================== *)
(** * Properties *)
(* ===================================================================== *)

(** ** Python arithmetic *)

Lemma int_nonneg_floor (x : Q) : (0 <= x)%Q -> Py.int x = Qfloor x.
Proof.
  destruct x as [n d]. unfold Py.int, Qfloor, Qle. simpl. intros Hn.
  apply Z.quot_div_nonneg; lia.
Qed.

Lemma floor_pos_iff (x : Q) : 0 < Qfloor x <-> (1 <= x)%Q.
Proof.
  split; intros Hx.
  - apply Qle_trans with (inject_Z (Qfloor x)); [| apply Qfloor_le].
    change 1%Q with (inject_Z 1). rewrite <- Zle_Qle. lia.
  - apply Qfloor_resp_le in Hx. change (Qfloor 1) with 1 in Hx. lia.
Qed.

Lemma floor_nonneg (x : Q) : (0 <= x)%Q -> 0 <= Qfloor x.
Proof.
  intros Hx. apply Qfloor_resp_le in Hx. exact Hx.
Qed.

Lemma round_floor_or_next (x : Q) :
  Py.round x = Qfloor x \/ Py.round x = Qfloor x + 1.
Proof.
  unfold Py.round.
  destruct (2 * (x - inject_Z (Qfloor x)) ?= 1)%Q; auto.
  destruct (Z.even (Qfloor x)); auto.
Qed.

(* ===================================================================== *)
(** ** Doubles *)
(* ===================================================================== *)

Section FloatFacts.
Import Float.

(** Rounding keeps a mantissa that is not negative so. *)
Lemma shr_1_nonneg (mrs : shr_record) : 0 <= shr_m mrs -> 0 <= shr_m (shr_1 mrs).
Proof.
  destruct mrs as [m r s]. simpl. destruct m as [| p | p]; simpl; try lia.
  - destruct p; simpl; lia.
Qed.

Lemma iter_shr_1_nonneg (p : positive) (mrs : shr_record) :
  0 <= shr_m mrs -> 0 <= shr_m (SpecFloat.iter_pos shr_1 p mrs).
Proof.
  revert mrs. induction p as [p IH | p IH |]; intros mrs Hm; simpl.
  - apply IH, IH, shr_1_nonneg, Hm.
  - apply IH, IH, Hm.
  - apply shr_1_nonneg, Hm.
Qed.

Lemma shr_fexp_nonneg (m e : Z) (l : location) :
  0 <= m -> 0 <= shr_m (fst (shr_fexp prec emax m e l)).
Proof.
  intros Hm. unfold shr_fexp, shr.
  assert (H0 : 0 <= shr_m (shr_record_of_loc m l)).
  { destruct l as [| []]; simpl; exact Hm. }
  destruct (fexp prec emax (Zdigits2 m + e) - e); simpl;
    [exact H0 | apply iter_shr_1_nonneg, H0 | exact H0].
Qed.

Lemma round_nearest_even_nonneg (m : Z) (l : location) :
  0 <= m -> 0 <= round_nearest_even m l.
Proof.
  intros Hm. destruct l as [| []]; simpl; try lia.
  destruct (Z.even m); lia.
Qed.

(** The rounded result of a magnitude with a sign is a zero, a finite
    double or an infinity of that sign. *)
Lemma binary_round_aux_sign (s : bool) (m e : Z) (l : location) :
  0 <= m ->
  match binary_round_aux prec emax s m e l with
  | S754_zero s' | S754_finite s' _ _ | S754_infinity s' => s' = s
  | S754_nan => False
  end.
Proof.
  intros Hm. unfold binary_round_aux.
  pose proof (shr_fexp_nonneg m e l Hm) as H1.
  destruct (shr_fexp prec emax m e l) as [mrs1 e1]. cbn [fst] in H1.
  pose proof (shr_fexp_nonneg
                (round_nearest_even (shr_m mrs1) (loc_of_shr_record mrs1)) e1
                loc_Exact (round_nearest_even_nonneg _ _ H1)) as H2.
  destruct (shr_fexp prec emax _ e1 loc_Exact) as [mrs2 e2]. cbn [fst] in H2.
  destruct (shr_m mrs2) as [| p | p]; [reflexivity | | lia].
  destruct (e2 <=? emax - prec); reflexivity.
Qed.

Lemma binary_round_aux_not_negative (m e : Z) (l : location) :
  0 <= m ->
  is_nan (binary_round_aux prec emax false m e l) = false
  /\ negative (binary_round_aux prec emax false m e l) = false.
Proof.
  intros Hm. pose proof (binary_round_aux_sign false m e l Hm) as H.
  destruct (binary_round_aux prec emax false m e l); try contradiction;
    subst; split; reflexivity.
Qed.

Lemma div_core_nonneg (mx my : positive) (ex ey : Z) :
  0 <= fst (fst (SFdiv_core_binary prec emax (Zpos mx) ex (Zpos my) ey)).
Proof.
  unfold SFdiv_core_binary.
  match goal with
  | |- context [Z.div_eucl ?a ?b] =>
      assert (Ha : 0 <= a);
      [| pose proof (Z.div_pos a b Ha ltac:(lia)) as Hq;
         unfold Z.div in Hq; destruct (Z.div_eucl a b) as [q r];
         cbn [fst] in *; exact Hq]
  end.
  destruct (ex - ey - _); [lia | | lia].
  apply Z.shiftl_nonneg. lia.
Qed.

(** The product of two doubles that are not below zero is not below zero,
    and is a number when both are finite. *)
Lemma mul_not_negative (x y : float) :
  negative x = false -> negative y = false -> negative (mul x y) = false.
Proof.
  intros Hx Hy.
  destruct x as [sx | sx | | sx mx ex], y as [sy | sy | | sy my ey];
    try reflexivity; simpl in Hx, Hy;
    try (destruct sx; try discriminate); try (destruct sy; try discriminate);
    try reflexivity.
  unfold mul, SFmul. apply binary_round_aux_not_negative. lia.
Qed.

Lemma mul_finite_not_nan (x y : float) :
  is_finite x = true -> is_finite y = true -> is_nan (mul x y) = false.
Proof.
  intros Hx Hy.
  destruct x as [sx | sx | | sx mx ex], y as [sy | sy | | sy my ey];
    try discriminate; try reflexivity.
  unfold mul, SFmul.
  pose proof (binary_round_aux_sign (xorb sx sy) (Zpos (mx * my)) (ex + ey)
                loc_Exact ltac:(lia)) as H.
  destruct (binary_round_aux _ _ _ _ _ _); [reflexivity .. | contradiction | reflexivity].
Qed.

(** The quotient of a double that is not below zero by a positive finite
    one is not below zero. *)
Lemma div_not_negative (x : float) (my : positive) (ey : Z) :
  negative x = false -> negative (div x (S754_finite false my ey)) = false.
Proof.
  intros Hx.
  destruct x as [sx | sx | | sx mx ex]; try reflexivity; simpl in Hx;
    try (destruct sx; try discriminate); try reflexivity.
  unfold div, SFdiv.
  pose proof (div_core_nonneg mx my ex ey) as Hq.
  destruct (SFdiv_core_binary prec emax (Zpos mx) ex (Zpos my) ey) as [[q e] l].
  cbn [fst] in Hq. apply binary_round_aux_not_negative. exact Hq.
Qed.

Lemma abs_not_negative (x : float) : negative (abs x) = false.
Proof. destruct x; reflexivity. Qed.

(** The value of a double that is not below zero is not negative. *)
Lemma value_nonneg (x : float) : negative x = false -> (0 <= value x)%Q.
Proof.
  destruct x as [s | s | | s m e]; simpl; intros Hx; try discriminate.
  destruct s; [discriminate |]. simpl.
  destruct e as [| p | p]; unfold Qle; simpl; lia.
Qed.

(** [int()] of a finite double that is not below zero is the floor of its
    value. *)
Lemma to_int_floor (x : float) :
  is_finite x = true -> negative x = false ->
  to_int x = Py.Ok (Qfloor (value x)).
Proof.
  intros Hf Hn. pose proof (value_nonneg x Hn) as Hv.
  destruct x; try discriminate; unfold to_int;
    rewrite int_nonneg_floor by exact Hv; reflexivity.
Qed.

(** [int()] raises exactly on what is not finite. *)
Lemma to_int_raises (x : float) :
  is_finite x = false ->
  to_int x = Py.Raise (if is_nan x then Py.ValueError else Py.OverflowError).
Proof. destruct x; try discriminate; reflexivity. Qed.

Lemma nonneg_not_negative (x : float) :
  nonneg x = true -> negative x = false /\ is_finite x = true.
Proof. destruct x as [| | | []]; try discriminate; split; reflexivity. Qed.

End FloatFacts.

(* ===================================================================== *)
(** ** What one rounding adds *)
(* ===================================================================== *)

Section RoundingFacts.
Import Float.

Lemma shr_1_half (mrs : shr_record) :
  0 <= shr_m mrs -> shr_m (shr_1 mrs) = shr_m mrs / 2.
Proof.
  destruct mrs as [m r s]. cbn [shr_m]. intros Hm.
  rewrite <- Z.div2_div.
  destruct m as [| p | p]; [reflexivity | | lia].
  destruct p; reflexivity.
Qed.

Lemma iter_shr_1_div (p : positive) (mrs : shr_record) :
  0 <= shr_m mrs ->
  shr_m (SpecFloat.iter_pos shr_1 p mrs) = shr_m mrs / 2 ^ Zpos p.
Proof.
  revert mrs. induction p as [p IH | p IH |]; intros mrs Hm; cbn [SpecFloat.iter_pos].
  - rewrite IH by (apply iter_shr_1_nonneg, shr_1_nonneg, Hm).
    rewrite IH by (apply shr_1_nonneg, Hm).
    rewrite shr_1_half by exact Hm.
    rewrite !Z.div_div by lia.
    assert (E : 2 ^ Zpos p~1 = 2 * 2 ^ Zpos p * 2 ^ Zpos p).
    { change (Zpos p~1) with (2 * Zpos p + 1).
      rewrite Z.pow_add_r, Z.pow_1_r, Z.pow_twice_r by lia. ring. }
    rewrite E. f_equal. ring.
  - rewrite IH by (apply iter_shr_1_nonneg, Hm).
    rewrite IH by exact Hm.
    rewrite Z.div_div by lia.
    assert (E : 2 ^ Zpos p~0 = 2 ^ Zpos p * 2 ^ Zpos p).
    { change (Zpos p~0) with (2 * Zpos p). apply Z.pow_twice_r. }
    rewrite E. reflexivity.
  - rewrite shr_1_half by exact Hm. reflexivity.
Qed.

(** [shr_fexp] drops the bits below the exponent the format gives the
    number, and none when it has no bits there. *)
Lemma shr_fexp_spec (m e : Z) (l : location) :
  0 <= m ->
  let n := Z.max (fexp prec emax (Zdigits2 m + e) - e) 0 in
  shr_m (fst (shr_fexp prec emax m e l)) = m / 2 ^ n
  /\ snd (shr_fexp prec emax m e l) = e + n.
Proof.
  intros Hm n. subst n. unfold shr_fexp, shr.
  assert (H0 : shr_m (shr_record_of_loc m l) = m) by (destruct l as [| []]; reflexivity).
  destruct (fexp prec emax (Zdigits2 m + e) - e) as [| p | p]; cbn [fst snd].
  - rewrite H0, Z.div_1_r. split; [reflexivity | lia].
  - rewrite iter_shr_1_div by (rewrite H0; exact Hm). rewrite H0.
    rewrite Z.max_l by lia. split; reflexivity.
  - rewrite H0. rewrite Z.max_r by lia. rewrite Z.div_1_r. split; [reflexivity | lia].
Qed.

Lemma shr_fexp_exact (m e : Z) :
  fexp prec emax (Zdigits2 m + e) - e <= 0 ->
  loc_of_shr_record (fst (shr_fexp prec emax m e loc_Exact)) = loc_Exact.
Proof.
  intros Hn. unfold shr_fexp, shr.
  destruct (fexp prec emax (Zdigits2 m + e) - e) as [| p | p]; [reflexivity | lia | reflexivity].
Qed.

Lemma round_nearest_even_upper (m : Z) (l : location) :
  m <= round_nearest_even m l <= m + 1.
Proof.
  destruct l as [| []]; cbn [round_nearest_even]; try lia.
  destruct (Z.even m); lia.
Qed.

Lemma pow2_pos (e : Z) : (0 < pow2 e)%Q.
Proof. apply Qpower_0_lt. reflexivity. Qed.

Lemma pow2_add (a b : Z) : (pow2 (a + b) == pow2 a * pow2 b)%Q.
Proof. apply Qpower_plus. discriminate. Qed.

Lemma pow2_le (a b : Z) : a <= b -> (pow2 a <= pow2 b)%Q.
Proof. intros Hab. apply Qpower_le_compat_l; [exact Hab | discriminate]. Qed.

Lemma pow2_Z (n : Z) : 0 <= n -> (inject_Z (2 ^ n) == pow2 n)%Q.
Proof. intros Hn. apply (Zpower_Qpower 2 n Hn). Qed.

Lemma eps_pos : (0 < eps)%Q.
Proof. apply pow2_pos. Qed.

Lemma value_finite (s : bool) (m : positive) (e : Z) :
  (value (S754_finite s m e) == inject_Z (cond_Zopp s (Zpos m)) * pow2 e)%Q.
Proof.
  unfold value. destruct e as [| p | p].
  - rewrite Z.pow_0_r, Z.mul_1_r. unfold pow2. simpl Qpower. ring.
  - rewrite inject_Z_mult, pow2_Z by lia. reflexivity.
  - rewrite Qmake_Qdiv.
    change (Zneg p) with (- Zpos p). unfold pow2. rewrite Qpower_opp.
    rewrite <- (pow2_Z (Zpos p)) by lia. unfold pow2.
    rewrite Pos2Z.inj_pow. reflexivity.
Qed.

(** Dropping low bits does not raise the value. *)
Lemma shifted_le (a n e : Z) :
  0 <= a -> 0 <= n ->
  (inject_Z (a / 2 ^ n) * pow2 (e + n) <= inject_Z a * pow2 e)%Q.
Proof.
  intros Ha Hn. rewrite pow2_add, <- (pow2_Z n) by exact Hn.
  rewrite (Qmult_comm (pow2 e)), Qmult_assoc, <- inject_Z_mult.
  apply Qmult_le_compat_r; [| apply Qlt_le_weak, pow2_pos].
  rewrite <- Zle_Qle. rewrite Z.mul_comm. apply Z.mul_div_le.
  apply Z.pow_pos_nonneg; lia.
Qed.

Lemma digits2_size (p : positive) : digits2_pos p = Pos.size p.
Proof. induction p as [p IH | p IH |]; simpl; rewrite ?IH; reflexivity. Qed.

Lemma digits_lower (p : positive) : 2 ^ (Zpos (digits2_pos p) - 1) <= Zpos p.
Proof.
  rewrite digits2_size. pose proof (Pos.size_le p) as H.
  apply Pos2Z.pos_le_pos in H. rewrite Pos2Z.inj_pow in H.
  change (Zpos p~0) with (2 * Zpos p) in H.
  replace (Zpos (Pos.size p)) with (Z.succ (Zpos (Pos.size p) - 1)) in H by lia.
  rewrite Z.pow_succ_r in H by lia. lia.
Qed.

(** The unit in the last place of the format is small against the
    number, or against everything at the bottom of the range. *)
Lemma pow2_fexp_le (m e : Z) :
  0 <= m ->
  e <= fexp prec emax (Zdigits2 m + e) ->
  (pow2 (fexp prec emax (Zdigits2 m + e)) <= inject_Z m * pow2 e * eps + eps)%Q.
Proof.
  intros Hm He.
  assert (Hterm : (0 <= inject_Z m * pow2 e * eps)%Q).
  { repeat apply Qmult_le_0_compat;
      [change 0%Q with (inject_Z 0); rewrite <- Zle_Qle; exact Hm
      | apply Qlt_le_weak, pow2_pos | apply Qlt_le_weak, eps_pos]. }
  unfold fexp in *. change (SpecFloat.emin prec emax) with (-1074) in *.
  change prec with 53 in *.
  destruct (Z.max_spec (Zdigits2 m + e - 53) (-1074)) as [[Hlt Emax] | [Hle Emax]];
    rewrite Emax in *.
  - assert (Hb : (pow2 (-1074) <= eps)%Q) by (apply pow2_le; lia).
    apply Qle_trans with eps; [exact Hb |].
    rewrite <- (Qplus_0_l eps) at 1. apply Qplus_le_compat; [exact Hterm | apply Qle_refl].
  - destruct m as [| p | p]; [cbn [Zdigits2] in *; lia | | lia].
    cbn [Zdigits2] in *.
    replace (Zpos (digits2_pos p) + e - 53)
      with ((Zpos (digits2_pos p) - 1) + (e + -52)) by lia.
    rewrite !pow2_add. fold eps.
    rewrite <- (pow2_Z (Zpos (digits2_pos p) - 1)) by lia.
    rewrite Qmult_assoc.
    rewrite <- (Qplus_0_r (inject_Z (2 ^ (Zpos (digits2_pos p) - 1)) * pow2 e * eps)).
    apply Qplus_le_compat; [| apply Qlt_le_weak, eps_pos].
    apply Qmult_le_compat_r; [| apply Qlt_le_weak, eps_pos].
    apply Qmult_le_compat_r; [| apply Qlt_le_weak, pow2_pos].
    rewrite <- Zle_Qle. apply digits_lower.
Qed.

(** One rounding of a magnitude [m * 2^e]: the mantissa and exponent it
    settles on, before the range is looked at, stand for at most the
    magnitude raised by [eps] of itself and by [eps].  For a magnitude
    known only to lie between [m * 2^e] and the next multiple ([l] not
    exact) this holds provided [m] already reaches down to the exponent
    the format gives it. *)
Lemma round_aux_core (s : bool) (m e : Z) (l : location) :
  0 <= m ->
  l = loc_Exact \/ e <= fexp prec emax (Zdigits2 m + e) ->
  exists mz ez : Z,
    0 <= mz
    /\ binary_round_aux prec emax s m e l
       = match mz with
         | Z0 => S754_zero s
         | Zpos q =>
             if ez <=? emax - prec then S754_finite s q ez
             else S754_infinity s
         | Zneg _ => S754_nan
         end
    /\ (inject_Z mz * pow2 ez <= inject_Z m * pow2 e * (1 + eps) + eps)%Q.
Proof.
  intros Hm Hl. unfold binary_round_aux.
  destruct (shr_fexp_spec m e l Hm) as [Hm1 He1].
  pose proof (shr_fexp_exact m e) as Hex.
  destruct (shr_fexp prec emax m e l) as [mrs1 e1] eqn:E1.
  cbn [fst snd] in Hm1, He1.
  pose proof (round_nearest_even_upper (shr_m mrs1) (loc_of_shr_record mrs1))
    as Hr.
  set (m1 := round_nearest_even (shr_m mrs1) (loc_of_shr_record mrs1)) in *.
  assert (Hm1pos : 0 <= shr_m mrs1).
  { rewrite Hm1. apply Z.div_pos; [exact Hm | apply Z.pow_pos_nonneg; lia]. }
  assert (Hm1' : 0 <= m1) by lia.
  destruct (shr_fexp_spec m1 e1 loc_Exact Hm1') as [Hm2 He2].
  destruct (shr_fexp prec emax m1 e1 loc_Exact) as [mrs2 e2].
  cbn [fst snd] in Hm2, He2.
  exists (shr_m mrs2), e2.
  split; [rewrite Hm2; apply Z.div_pos; [exact Hm1' | apply Z.pow_pos_nonneg; lia] |].
  split; [reflexivity |].
  set (n1 := Z.max (fexp prec emax (Zdigits2 m + e) - e) 0) in *.
  set (n2 := Z.max (fexp prec emax (Zdigits2 m1 + e1) - e1) 0) in *.
  assert (Hterm : (0 <= inject_Z m * pow2 e)%Q).
  { apply Qmult_le_0_compat;
      [change 0%Q with (inject_Z 0); rewrite <- Zle_Qle; exact Hm
      | apply Qlt_le_weak, pow2_pos]. }
  assert (Hstep : (inject_Z (shr_m mrs2) * pow2 e2 <= inject_Z m1 * pow2 e1)%Q).
  { rewrite Hm2, He2. apply shifted_le; [exact Hm1' | unfold n2; lia]. }
  assert (Hbase : (inject_Z (shr_m mrs1) * pow2 e1 <= inject_Z m * pow2 e)%Q).
  { rewrite Hm1, He1. apply shifted_le; [exact Hm | unfold n1; lia]. }
  apply Qle_trans with (inject_Z m1 * pow2 e1)%Q; [exact Hstep |].
  assert (Hcase : (l = loc_Exact /\ fexp prec emax (Zdigits2 m + e) - e <= 0)
                  \/ e <= fexp prec emax (Zdigits2 m + e)).
  { destruct Hl as [El | Hle]; [| right; exact Hle].
    destruct (Z.le_gt_cases (fexp prec emax (Zdigits2 m + e) - e) 0) as [H0 | H0];
      [left; split; assumption | right; lia]. }
  destruct Hcase as [[-> Hn] | Hn].
  - assert (Em1 : m1 = shr_m mrs1).
    { unfold m1. specialize (Hex Hn). rewrite E1 in Hex. cbn [fst] in Hex.
      rewrite Hex. reflexivity. }
    rewrite Em1. apply Qle_trans with (inject_Z m * pow2 e)%Q; [exact Hbase |].
    pose proof eps_pos as He.
    set (x := (inject_Z m * pow2 e)%Q) in *.
    assert (0 <= x * eps)%Q
      by (apply Qmult_le_0_compat; [exact Hterm | apply Qlt_le_weak, He]).
    lra.
  - assert (En1 : e1 = fexp prec emax (Zdigits2 m + e)) by (unfold n1 in *; lia).
    pose proof (pow2_fexp_le m e Hm Hn) as Hulp. rewrite <- En1 in Hulp.
    assert (Hup : (inject_Z m1 * pow2 e1
                   <= inject_Z (shr_m mrs1) * pow2 e1 + pow2 e1)%Q).
    { rewrite <- (Qmult_1_l (pow2 e1)) at 3. rewrite <- Qmult_plus_distr_l.
      apply Qmult_le_compat_r; [| apply Qlt_le_weak, pow2_pos].
      change 1%Q with (inject_Z 1). rewrite <- inject_Z_plus, <- Zle_Qle. lia. }
    set (x := (inject_Z m * pow2 e)%Q) in *.
    set (y := (inject_Z (shr_m mrs1) * pow2 e1)%Q) in *.
    set (z := (inject_Z m1 * pow2 e1)%Q) in *.
    set (u := pow2 e1) in *.
    lra.
Qed.

(** What comes out, if finite, is within that bound. *)
Lemma round_aux_upper (s : bool) (m e : Z) (l : location)
    (s' : bool) (mr : positive) (er : Z) :
  0 <= m ->
  l = loc_Exact \/ e <= fexp prec emax (Zdigits2 m + e) ->
  binary_round_aux prec emax s m e l = S754_finite s' mr er ->
  (inject_Z (Zpos mr) * pow2 er <= inject_Z m * pow2 e * (1 + eps) + eps)%Q.
Proof.
  intros Hm Hl E.
  destruct (round_aux_core s m e l Hm Hl) as (mz & ez & _ & Er & Hb).
  rewrite E in Er.
  destruct mz as [| q | q]; [discriminate | | discriminate].
  destruct (ez <=? emax - prec); [| discriminate].
  injection Er as _ -> ->. exact Hb.
Qed.

(** A magnitude far below the top of the range rounds to a finite
    double. *)
Lemma round_aux_finite (s : bool) (m e : Z) (l : location) :
  0 <= m ->
  l = loc_Exact \/ e <= fexp prec emax (Zdigits2 m + e) ->
  (inject_Z m * pow2 e * (1 + eps) + eps < pow2 (emax - prec + 1))%Q ->
  is_finite (binary_round_aux prec emax s m e l) = true.
Proof.
  intros Hm Hl Hsmall.
  destruct (round_aux_core s m e l Hm Hl) as (mz & ez & Hz & -> & Hb).
  destruct mz as [| q | q]; [reflexivity | | lia].
  destruct (Z.leb_spec ez (emax - prec)) as [Hle | Hgt]; [reflexivity | exfalso].
  assert (H1 : (pow2 (emax - prec + 1) <= pow2 ez)%Q) by (apply pow2_le; lia).
  assert (H2 : (pow2 ez <= inject_Z (Zpos q) * pow2 ez)%Q).
  { rewrite <- (Qmult_1_l (pow2 ez)) at 1.
    apply Qmult_le_compat_r; [| apply Qlt_le_weak, pow2_pos].
    change 1%Q with (inject_Z 1). rewrite <- Zle_Qle. lia. }
  set (x := (inject_Z m * pow2 e * (1 + eps) + eps)%Q) in *.
  set (y := (inject_Z (Zpos q) * pow2 ez)%Q) in *.
  lra.
Qed.

Lemma value_abs (x : float) : (value (abs x) == Qabs (value x))%Q.
Proof.
  destruct x as [sx | sx | | sx mx ex]; try reflexivity.
  cbn [abs SFabs]. rewrite !value_finite. cbn [cond_Zopp].
  rewrite Qabs_Qmult, (Qabs_pos (pow2 ex)) by (apply Qlt_le_weak, pow2_pos).
  apply Qmult_comp; [| reflexivity].
  destruct sx; cbn [cond_Zopp]; reflexivity.
Qed.

Lemma round_aux_abs_upper (s : bool) (m e : Z) (l : location) :
  0 <= m ->
  l = loc_Exact \/ e <= fexp prec emax (Zdigits2 m + e) ->
  is_finite (binary_round_aux prec emax s m e l) = true ->
  (Qabs (value (binary_round_aux prec emax s m e l))
   <= inject_Z m * pow2 e * (1 + eps) + eps)%Q.
Proof.
  intros Hm Hl Hf.
  assert (Hrhs : (0 <= inject_Z m * pow2 e * (1 + eps) + eps)%Q).
  { pose proof eps_pos as He.
    assert (0 <= inject_Z m * pow2 e * (1 + eps))%Q.
    { repeat apply Qmult_le_0_compat;
        [change 0%Q with (inject_Z 0); rewrite <- Zle_Qle; exact Hm
        | apply Qlt_le_weak, pow2_pos | lra]. }
    lra. }
  pose proof (round_aux_upper s m e l) as Hu.
  rewrite <- value_abs.
  destruct (binary_round_aux prec emax s m e l) as [s' | s' | | s' mr er];
    try discriminate.
  - exact Hrhs.
  - cbn [abs SFabs]. rewrite value_finite. cbn [cond_Zopp].
    apply (Hu s' mr er Hm Hl eq_refl).
Qed.

Lemma round_aux_value_upper (m e : Z) (l : location) :
  0 <= m ->
  l = loc_Exact \/ e <= fexp prec emax (Zdigits2 m + e) ->
  is_finite (binary_round_aux prec emax false m e l) = true ->
  (value (binary_round_aux prec emax false m e l)
   <= inject_Z m * pow2 e * (1 + eps) + eps)%Q.
Proof.
  intros Hm Hl Hf.
  assert (Hrhs : (0 <= inject_Z m * pow2 e * (1 + eps) + eps)%Q).
  { pose proof eps_pos as He.
    assert (0 <= inject_Z m * pow2 e * (1 + eps))%Q.
    { repeat apply Qmult_le_0_compat;
        [change 0%Q with (inject_Z 0); rewrite <- Zle_Qle; exact Hm
        | apply Qlt_le_weak, pow2_pos | lra]. }
    lra. }
  pose proof (binary_round_aux_sign false m e l Hm) as Hs.
  pose proof (round_aux_upper false m e l) as Hu.
  destruct (binary_round_aux prec emax false m e l) as [s' | s' | | s' mr er];
    try discriminate.
  - exact Hrhs.
  - subst s'. rewrite value_finite. cbn [cond_Zopp].
    apply (Hu false mr er Hm Hl eq_refl).
Qed.

(** The product of two positive doubles. *)
Lemma mul_upper (mx my : positive) (ex ey : Z) :
  is_finite (mul (S754_finite false mx ex) (S754_finite false my ey)) = true ->
  (value (mul (S754_finite false mx ex) (S754_finite false my ey))
   <= value (S754_finite false mx ex) * value (S754_finite false my ey)
      * (1 + eps) + eps)%Q.
Proof.
  intros Hf. unfold mul, SFmul in *. cbn [xorb] in *.
  eapply Qle_trans;
    [apply round_aux_value_upper; [lia | left; reflexivity | exact Hf] |].
  rewrite !value_finite. cbn [cond_Zopp].
  rewrite Pos2Z.inj_mul, inject_Z_mult, pow2_add.
  apply Qplus_le_compat; [| apply Qle_refl].
  apply Qmult_le_compat_r; [| pose proof eps_pos; lra].
  apply Qle_lteq. right. ring.
Qed.

Lemma digits_upper (q : Z) : 0 <= q -> q < 2 ^ Zdigits2 q.
Proof.
  intros Hq. destruct q as [| p | p]; [reflexivity | | lia].
  cbn [Zdigits2]. rewrite digits2_size.
  pose proof (Pos.size_gt p) as H. apply Pos2Z.pos_lt_pos in H.
  rewrite Pos2Z.inj_pow in H. exact H.
Qed.

Lemma digits_nonneg (q : Z) : 0 <= Zdigits2 q.
Proof. destruct q; cbn [Zdigits2]; lia. Qed.

(** What the division hands to the rounding: a quotient that does not
    exceed the true one and reaches down to its exponent in the format. *)
Lemma div_core_spec (mx my : positive) (ex ey : Z) :
  let '(q, e, _) := SFdiv_core_binary prec emax (Zpos mx) ex (Zpos my) ey in
  0 <= q
  /\ e <= fexp prec emax (Zdigits2 q + e)
  /\ (inject_Z q * pow2 e * (inject_Z (Zpos my) * pow2 ey)
      <= inject_Z (Zpos mx) * pow2 ex)%Q.
Proof.
  unfold SFdiv_core_binary. cbn [Zdigits2].
  set (d1 := Zpos (digits2_pos mx)). set (d2 := Zpos (digits2_pos my)).
  set (e := Z.min (fexp prec emax (d1 + ex - (d2 + ey))) (ex - ey)).
  set (s := ex - ey - e).
  assert (Hs : 0 <= s) by (unfold s, e; lia).
  set (m' := match s with
             | 0 => Zpos mx
             | Zpos _ => Z.shiftl (Zpos mx) s
             | Zneg _ => 0
             end).
  assert (Em : m' = Zpos mx * 2 ^ s).
  { unfold m'. destruct s as [| p | p]; [rewrite Z.mul_1_r; reflexivity | | lia].
    apply Z.shiftl_mul_pow2. lia. }
  assert (Hm' : 0 <= m') by (rewrite Em; apply Z.mul_nonneg_nonneg; [lia |];
                              apply Z.pow_nonneg; lia).
  pose proof (Z.div_pos m' (Zpos my) Hm' ltac:(lia)) as Hq.
  pose proof (Z.mul_div_le m' (Zpos my) ltac:(lia)) as Hqm.
  assert (Hlow : forall k, 0 <= k -> 2 ^ k * Zpos my <= m' -> 2 ^ k <= m' / Zpos my).
  { intros k Hk Hle. apply Z.div_le_lower_bound; lia. }
  unfold Z.div in Hq, Hqm, Hlow.
  destruct (Z.div_eucl m' (Zpos my)) as [q r]. cbn [fst] in Hq, Hqm, Hlow.
  split; [exact Hq |]. split.
  - assert (Hd : d1 - d2 + s <= Zdigits2 q).
    { destruct (Z.le_gt_cases (d1 - d2 + s) 0) as [H0 | H0];
        [pose proof (digits_nonneg q); lia |].
      assert (Hk : 2 ^ (d1 - d2 + s - 1) <= q).
      { apply Hlow; [lia |].
        pose proof (digits_lower mx) as Hx. fold d1 in Hx.
        pose proof (digits_upper (Zpos my) ltac:(lia)) as Hy.
        cbn [Zdigits2] in Hy. fold d2 in Hy.
        rewrite Em.
        apply Z.le_trans with (2 ^ (d1 - d2 + s - 1) * 2 ^ d2);
          [apply Z.mul_le_mono_nonneg_l; [apply Z.pow_nonneg; lia | lia] |].
        rewrite <- Z.pow_add_r by lia.
        replace (d1 - d2 + s - 1 + d2) with ((d1 - 1) + s) by lia.
        rewrite Z.pow_add_r by lia.
        apply Z.mul_le_mono_nonneg_r; [apply Z.pow_nonneg; lia | exact Hx]. }
      pose proof (digits_upper q Hq) as Hu.
      assert (Hlt : 2 ^ (d1 - d2 + s - 1) < 2 ^ Zdigits2 q) by lia.
      apply Z.pow_lt_mono_r_iff in Hlt; [lia | lia | apply digits_nonneg]. }
    assert (He : e <= fexp prec emax (d1 + ex - (d2 + ey))) by (unfold e; lia).
    unfold fexp in *. unfold s in Hd. lia.
  - rewrite Em in Hqm.
    assert (E1 : (inject_Z q * pow2 e * (inject_Z (Zpos my) * pow2 ey)
                  == inject_Z (Zpos my * q) * pow2 (e + ey))%Q).
    { rewrite inject_Z_mult, pow2_add. ring. }
    assert (E2 : (inject_Z (Zpos mx) * pow2 ex
                  == inject_Z (Zpos mx * 2 ^ s) * pow2 (e + ey))%Q).
    { rewrite inject_Z_mult, pow2_Z by exact Hs.
      rewrite <- Qmult_assoc, <- pow2_add.
      replace (s + (e + ey)) with ex by (unfold s; lia). reflexivity. }
    rewrite E1, E2.
    apply Qmult_le_compat_r; [| apply Qlt_le_weak, pow2_pos].
    rewrite <- Zle_Qle. exact Hqm.
Qed.

(** The quotient of a double that is not negative by a positive one,
    cleared of its division. *)
Lemma div_upper (x : float) (my : positive) (ey : Z) :
  nonneg x = true ->
  is_finite (div x (S754_finite false my ey)) = true ->
  (value (div x (S754_finite false my ey)) * value (S754_finite false my ey)
   <= value x * (1 + eps) + eps * value (S754_finite false my ey))%Q.
Proof.
  intros Hx Hf.
  assert (Hy : (0 < value (S754_finite false my ey))%Q).
  { rewrite value_finite. cbn [cond_Zopp].
    apply Qmult_lt_0_compat; [reflexivity | apply pow2_pos]. }
  pose proof eps_pos as He.
  destruct x as [sx | sx | | sx mx ex]; try discriminate.
  - set (vy := value (S754_finite false my ey)) in *.
    change (value (div (S754_zero sx) (S754_finite false my ey))) with 0%Q.
    change (value (S754_zero sx)) with 0%Q.
    assert (0 <= eps * vy)%Q by (apply Qmult_le_0_compat; lra).
    lra.
  - destruct sx; [discriminate |].
    unfold div, SFdiv in *. cbn [xorb] in *.
    pose proof (div_core_spec mx my ex ey) as Hc.
    destruct (SFdiv_core_binary prec emax (Zpos mx) ex (Zpos my) ey) as [[q e] l].
    destruct Hc as (Hq & Hn & Hle).
    pose proof (round_aux_value_upper q e l Hq (or_intror Hn) Hf) as Hu.
    rewrite (value_finite false mx ex), (value_finite false my ey) in *.
    cbn [cond_Zopp] in *.
    set (r := value (binary_round_aux prec emax false q e l)) in *.
    set (vy := (inject_Z (Zpos my) * pow2 ey)%Q) in *.
    set (vx := (inject_Z (Zpos mx) * pow2 ex)%Q) in *.
    set (vq := (inject_Z q * pow2 e)%Q) in *.
    assert (H1 : (r * vy <= (vq * (1 + eps) + eps) * vy)%Q)
      by (apply Qmult_le_compat_r; lra).
    assert (H2 : (vq * vy * (1 + eps) <= vx * (1 + eps))%Q)
      by (apply Qmult_le_compat_r; lra).
    assert (E : ((vq * (1 + eps) + eps) * vy == vq * vy * (1 + eps) + eps * vy)%Q)
      by ring.
    rewrite E in H1. lra.
Qed.

Lemma iter_xO (m k : positive) : Zpos (Pos.iter xO m k) = Zpos m * 2 ^ Zpos k.
Proof.
  induction k as [| k IH] using Pos.peano_ind.
  - cbn [Pos.iter]. rewrite Z.pow_1_r. lia.
  - rewrite Pos.iter_succ, Pos2Z.inj_xO, IH, Pos2Z.inj_succ, Z.pow_succ_r by lia.
    ring.
Qed.

(** Aligning a mantissa to a lower exponent keeps the value. *)
Lemma shl_align_value (m : positive) (e e' : Z) :
  (inject_Z (Zpos (fst (shl_align m e e'))) * pow2 (snd (shl_align m e e'))
   == inject_Z (Zpos m) * pow2 e)%Q.
Proof.
  unfold shl_align. destruct (e' - e) as [| d | d] eqn:Ed; cbn [fst snd];
    try reflexivity.
  rewrite iter_xO, inject_Z_mult, pow2_Z by lia.
  rewrite <- Qmult_assoc, <- pow2_add.
  replace (Zpos d + e') with e by lia. reflexivity.
Qed.

Lemma shl_align_exponent (m : positive) (e e' : Z) :
  e' <= e -> snd (shl_align m e e') = e'.
Proof.
  intros He. unfold shl_align.
  destruct (e' - e) as [| d | d] eqn:Ed; cbn [snd]; lia.
Qed.

Lemma binary_round_abs_upper (s : bool) (m : positive) (e : Z) :
  is_finite (binary_round prec emax s m e) = true ->
  (Qabs (value (binary_round prec emax s m e))
   <= inject_Z (Zpos m) * pow2 e * (1 + eps) + eps)%Q.
Proof.
  unfold binary_round.
  pose proof (shl_align_value m e (fexp prec emax (Zpos (digits2_pos m) + e)))
    as Hv.
  destruct (shl_align m e (fexp prec emax (Zpos (digits2_pos m) + e)))
    as [mz ez]. cbn [fst snd] in Hv.
  intros Hf. rewrite <- Hv.
  apply round_aux_abs_upper; [lia | left; reflexivity | exact Hf].
Qed.

(** The double nearest to an integer that is not negative. *)
Lemma of_Z_upper (h : Z) :
  0 <= h -> is_finite (of_Z h) = true ->
  (value (of_Z h) <= inject_Z h * (1 + eps) + eps)%Q.
Proof.
  intros Hh Hf. unfold of_Z, binary_normalize in *.
  destruct h as [| p | p]; [| | lia].
  - cbn [value]. pose proof eps_pos. change (inject_Z 0) with 0%Q. lra.
  - eapply Qle_trans; [apply Qle_Qabs |].
    eapply Qle_trans; [apply binary_round_abs_upper, Hf |].
    change (pow2 0) with 1%Q. rewrite Qmult_1_r. apply Qle_refl.
Qed.

(** The difference of two positive doubles. *)
Lemma sub_upper (mx my : positive) (ex ey : Z) :
  is_finite (sub (S754_finite false mx ex) (S754_finite false my ey)) = true ->
  (Qabs (value (sub (S754_finite false mx ex) (S754_finite false my ey)))
   <= Qabs (value (S754_finite false mx ex) - value (S754_finite false my ey))
      * (1 + eps) + eps)%Q.
Proof.
  unfold sub, SFsub. cbn [cond_Zopp].
  set (ez := Z.min ex ey).
  pose proof (shl_align_value mx ex ez) as Hx.
  pose proof (shl_align_value my ey ez) as Hy.
  rewrite (shl_align_exponent mx ex ez) in Hx by (unfold ez; lia).
  rewrite (shl_align_exponent my ey ez) in Hy by (unfold ez; lia).
  rewrite !value_finite. cbn [cond_Zopp]. rewrite <- Hx, <- Hy.
  set (a := fst (shl_align mx ex ez)). set (b := fst (shl_align my ey ez)).
  assert (E : (inject_Z (Zpos a) * pow2 ez - inject_Z (Zpos b) * pow2 ez
               == inject_Z (Zpos a - Zpos b) * pow2 ez)%Q).
  { unfold Z.sub. rewrite inject_Z_plus, inject_Z_opp. ring. }
  rewrite E, Qabs_Qmult, (Qabs_pos (pow2 ez)) by (apply Qlt_le_weak, pow2_pos).
  pose proof eps_pos as He.
  unfold binary_normalize.
  destruct (Zpos a - Zpos b) as [| p | p] eqn:Ed; intros Hf.
  - cbn [value]. change (Qabs 0) with 0%Q.
    change (Qabs (inject_Z 0)) with 0%Q. lra.
  - rewrite (Qabs_pos (inject_Z (Zpos p))) by (unfold Qle; simpl; lia).
    apply binary_round_abs_upper, Hf.
  - change (Zneg p) with (- Zpos p). rewrite inject_Z_opp, Qabs_opp.
    rewrite (Qabs_pos (inject_Z (Zpos p))) by (unfold Qle; simpl; lia).
    apply binary_round_abs_upper, Hf.
Qed.

Lemma finite_not_negative_nonneg (x : float) :
  is_finite x = true -> negative x = false -> nonneg x = true.
Proof. destruct x as [| | | []]; try discriminate; reflexivity. Qed.

(** The product of two doubles that are not negative. *)
Lemma mul_nonneg_upper (x y : float) :
  nonneg x = true -> nonneg y = true ->
  is_finite (mul x y) = true ->
  (value (mul x y) <= value x * value y * (1 + eps) + eps)%Q.
Proof.
  intros Hx Hy Hf. pose proof eps_pos as He.
  assert (Hzero : (0 <= 0 * (1 + eps) + eps)%Q) by lra.
  destruct x as [sx | sx | | [] mx ex]; try discriminate;
    destruct y as [sy | sy | | [] my ey]; try discriminate.
  - change (value (mul (S754_finite false mx ex) (S754_zero sy))) with 0%Q.
    change (value (S754_zero sy)) with 0%Q. rewrite Qmult_0_r. exact Hzero.
  - apply mul_upper, Hf.
Qed.

(** What is finite came from what is finite. *)
Lemma to_int_finite (x : float) (n : Z) :
  to_int x = Py.Ok n -> is_finite x = true /\ n = Py.int (value x).
Proof.
  destruct x; try discriminate; intros E; injection E as <-; split; reflexivity.
Qed.

Lemma mul_finite (x y : float) :
  is_finite (mul x y) = true -> is_finite x = true /\ is_finite y = true.
Proof.
  destruct x as [| | |]; destruct y as [| | |]; try discriminate;
    split; reflexivity.
Qed.

Lemma div_finite (x : float) (my : positive) (ey : Z) :
  is_finite (div x (S754_finite false my ey)) = true -> is_finite x = true.
Proof. destruct x; try discriminate; reflexivity. Qed.

Lemma abs_finite (x : float) : is_finite (abs x) = is_finite x.
Proof. destruct x; reflexivity. Qed.

Lemma sub_finite (x y : float) :
  is_finite (sub x y) = true -> is_finite x = true /\ is_finite y = true.
Proof.
  destruct x as [| [] | |]; destruct y as [| [] | |]; try discriminate;
    split; reflexivity.
Qed.

Lemma of_int_finite (n : Z) (x : float) :
  0 <= n -> of_int n = Py.Ok x -> x = of_Z n /\ nonneg x = true.
Proof.
  intros Hn. unfold of_int.
  assert (Hs : is_nan (of_Z n) = false /\ negative (of_Z n) = false).
  { unfold of_Z, binary_normalize. destruct n as [| p | p]; [split; reflexivity | | lia].
    unfold binary_round.
    destruct (shl_align p 0 (fexp prec emax (Zpos (digits2_pos p) + 0))) as [mz ez].
    apply binary_round_aux_not_negative. lia. }
  destruct (of_Z n) as [s | s | | s m e]; try discriminate;
    intros E; injection E as <-; destruct Hs as [Hnan Hneg];
    try discriminate; split; try reflexivity.
  destruct s; [discriminate | reflexivity].
Qed.

(** Far below the top of the range nothing overflows. *)
Lemma small_is_below_top (v : Q) :
  (v <= inject_Z (2 ^ 40))%Q ->
  (v * (1 + eps) + eps < pow2 (emax - prec + 1))%Q.
Proof.
  intros Hv.
  assert (Eeps : (eps == 1 # 4503599627370496)%Q) by reflexivity.
  assert (Htop : (pow2 42 <= pow2 (emax - prec + 1))%Q)
    by (apply pow2_le; unfold emax, prec; lia).
  assert (E42 : (pow2 42 == 4398046511104)%Q) by reflexivity.
  assert (E40 : (inject_Z (2 ^ 40) == 1099511627776)%Q) by reflexivity.
  rewrite E42 in Htop. rewrite E40 in Hv.
  eapply Qlt_le_trans; [| exact Htop].
  rewrite Eeps. lra.
Qed.

Lemma round_aux_small_finite (s : bool) (m e : Z) (l : location) :
  0 <= m ->
  l = loc_Exact \/ e <= fexp prec emax (Zdigits2 m + e) ->
  (inject_Z m * pow2 e <= inject_Z (2 ^ 40))%Q ->
  is_finite (binary_round_aux prec emax s m e l) = true.
Proof.
  intros Hm Hl Hv. apply round_aux_finite; [exact Hm | exact Hl |].
  apply small_is_below_top, Hv.
Qed.

Lemma mul_small_finite (x y : float) :
  nonneg x = true -> nonneg y = true ->
  (value x * value y <= inject_Z (2 ^ 40))%Q ->
  is_finite (mul x y) = true.
Proof.
  intros Hx Hy Hv.
  destruct x as [sx | sx | | [] mx ex]; try discriminate;
    destruct y as [sy | sy | | [] my ey]; try discriminate; try reflexivity.
  unfold mul, SFmul. cbn [xorb].
  apply round_aux_small_finite; [lia | left; reflexivity |].
  rewrite !value_finite in Hv. cbn [cond_Zopp] in Hv.
  rewrite Pos2Z.inj_mul, inject_Z_mult, pow2_add.
  eapply Qle_trans; [| exact Hv]. apply Qle_lteq. right. ring.
Qed.

Lemma div_small_finite (x : float) (my : positive) (ey : Z) (b : Q) :
  nonneg x = true ->
  (value x <= b * value (S754_finite false my ey))%Q ->
  (b <= inject_Z (2 ^ 40))%Q ->
  is_finite (div x (S754_finite false my ey)) = true.
Proof.
  intros Hx Hv Hb.
  assert (Hy : (0 < value (S754_finite false my ey))%Q).
  { rewrite value_finite. cbn [cond_Zopp].
    apply Qmult_lt_0_compat; [reflexivity | apply pow2_pos]. }
  destruct x as [sx | sx | | [] mx ex]; try discriminate; try reflexivity.
  unfold div, SFdiv. cbn [xorb].
  pose proof (div_core_spec mx my ex ey) as Hc.
  destruct (SFdiv_core_binary prec emax (Zpos mx) ex (Zpos my) ey) as [[q e] l].
  destruct Hc as (Hq & Hn & Hle).
  apply round_aux_small_finite; [exact Hq | right; exact Hn |].
  apply Qle_trans with b; [| exact Hb].
  rewrite (value_finite false mx ex), (value_finite false my ey) in *.
  cbn [cond_Zopp] in *.
  apply Qmult_lt_0_le_reg_r with (inject_Z (Zpos my) * pow2 ey)%Q; [exact Hy |].
  eapply Qle_trans; [exact Hle | exact Hv].
Qed.

Lemma binary_round_small_finite (s : bool) (m : positive) (e : Z) :
  (inject_Z (Zpos m) * pow2 e <= inject_Z (2 ^ 40))%Q ->
  is_finite (binary_round prec emax s m e) = true.
Proof.
  unfold binary_round.
  pose proof (shl_align_value m e (fexp prec emax (Zpos (digits2_pos m) + e)))
    as Hv.
  destruct (shl_align m e (fexp prec emax (Zpos (digits2_pos m) + e)))
    as [mz ez]. cbn [fst snd] in Hv.
  intros Hs. rewrite <- Hv in Hs.
  apply round_aux_small_finite; [lia | left; reflexivity | exact Hs].
Qed.

Lemma sub_small_finite (mx my : positive) (ex ey : Z) :
  (Qabs (value (S754_finite false mx ex) - value (S754_finite false my ey))
   <= inject_Z (2 ^ 40))%Q ->
  is_finite (sub (S754_finite false mx ex) (S754_finite false my ey)) = true.
Proof.
  unfold sub, SFsub. cbn [cond_Zopp].
  set (ez := Z.min ex ey).
  pose proof (shl_align_value mx ex ez) as Hx.
  pose proof (shl_align_value my ey ez) as Hy.
  rewrite (shl_align_exponent mx ex ez) in Hx by (unfold ez; lia).
  rewrite (shl_align_exponent my ey ez) in Hy by (unfold ez; lia).
  rewrite !value_finite. cbn [cond_Zopp]. rewrite <- Hx, <- Hy.
  set (a := fst (shl_align mx ex ez)). set (b := fst (shl_align my ey ez)).
  assert (E : (inject_Z (Zpos a) * pow2 ez - inject_Z (Zpos b) * pow2 ez
               == inject_Z (Zpos a - Zpos b) * pow2 ez)%Q).
  { unfold Z.sub. rewrite inject_Z_plus, inject_Z_opp. ring. }
  rewrite E, Qabs_Qmult, (Qabs_pos (pow2 ez)) by (apply Qlt_le_weak, pow2_pos).
  unfold binary_normalize.
  destruct (Zpos a - Zpos b) as [| p | p] eqn:Ed; intros Hv.
  - reflexivity.
  - rewrite (Qabs_pos (inject_Z (Zpos p))) in Hv by (unfold Qle; simpl; lia).
    apply binary_round_small_finite, Hv.
  - change (Zneg p) with (- Zpos p) in Hv. rewrite inject_Z_opp, Qabs_opp in Hv.
    rewrite (Qabs_pos (inject_Z (Zpos p))) in Hv by (unfold Qle; simpl; lia).
    apply binary_round_small_finite, Hv.
Qed.

(** A quotient above zero of a double that is not negative has a
    positive finite divisor. *)
Lemma div_positive_divisor (x y : float) :
  nonneg x = true -> (0 < value (div x y))%Q ->
  exists (my : positive) (ey : Z), y = S754_finite false my ey.
Proof.
  intros Hx Hv.
  destruct x as [sx | sx | | [] mx ex]; try discriminate;
    destruct y as [sy | sy | | sy my ey]; try discriminate.
  destruct sy; [exfalso | exists my, ey; reflexivity].
  unfold div, SFdiv in Hv. cbn [xorb] in Hv.
  pose proof (div_core_nonneg mx my ex ey) as Hq.
  destruct (SFdiv_core_binary prec emax (Zpos mx) ex (Zpos my) ey) as [[q e] l].
  cbn [fst] in Hq.
  pose proof (binary_round_aux_sign true q e l Hq) as Hs.
  destruct (binary_round_aux prec emax true q e l) as [s' | s' | | s' mr er];
    try discriminate.
  subst s'. rewrite value_finite in Hv. cbn [cond_Zopp] in Hv.
  pose proof (pow2_pos er) as Hp.
  assert (Hneg : (inject_Z (Z.neg mr) * pow2 er <= 0)%Q).
  { rewrite <- (Qmult_0_l (pow2 er)).
    apply Qmult_le_compat_r; [unfold Qle; simpl; lia | apply Qlt_le_weak, Hp]. }
  exact (Qlt_not_le _ _ Hv Hneg).
Qed.

(** A double of value above zero is a positive finite one. *)
Lemma positive_value (x : float) :
  (0 < value x)%Q -> exists (m : positive) (e : Z), x = S754_finite false m e.
Proof.
  intros Hv. destruct x as [s | s | | [] m e]; try discriminate.
  - exfalso. rewrite value_finite in Hv. cbn [cond_Zopp] in Hv.
    pose proof (pow2_pos e) as Hp.
    assert (Hneg : (inject_Z (Z.neg m) * pow2 e <= 0)%Q).
    { rewrite <- (Qmult_0_l (pow2 e)).
      apply Qmult_le_compat_r; [unfold Qle; simpl; lia | apply Qlt_le_weak, Hp]. }
    exact (Qlt_not_le _ _ Hv Hneg).
  - exists m, e. reflexivity.
Qed.

End RoundingFacts.

(* ===================================================================== *)
(** ** The pixel lengths of [hologrify] *)
(* ===================================================================== *)

Section GeometryFacts.
Import Geometry.

Lemma media_length_mm_not_negative (screen_height_mm : Float.num)
    (mm : Float.float) :
  media_length_mm screen_height_mm = Py.Ok mm -> Float.negative mm = false.
Proof.
  unfold media_length_mm. destruct screen_height_mm as [h | h].
  - unfold Float.int_truediv. change (2 =? 0) with false. cbv iota.
    pose proof (Z.abs_nonneg (h - center_length_mm)) as Ha.
    assert (Hq : Float.negative
                   (Float.div (Float.exact (Z.abs (h - center_length_mm)))
                              (Float.exact 2)) = false).
    { destruct (Z.abs (h - center_length_mm)) as [| a | a]; [reflexivity | | lia].
      apply div_not_negative. reflexivity. }
    destruct (Float.div _ _) as [s | s | | s m e]; intros E;
      try discriminate; injection E as <-; exact Hq.
  - destruct (Float.of_int center_length_mm) as [hundred |] eqn:E100;
      vm_compute in E100; [| discriminate]. injection E100 as <-.
    destruct (Float.of_int 2) as [two |] eqn:E2;
      vm_compute in E2; [| discriminate]. injection E2 as <-.
    unfold Py.bind, Float.truediv. cbv [Float.is_zero]. intros E.
    injection E as <-. apply div_not_negative, abs_not_negative.
Qed.

(** The absolute value makes the height of an int-valued screen count by
    its distance from 100 mm only. *)
Lemma media_length_px_mirrored (dpmm : Float.float) (h : Z) :
  media_length_px dpmm (Float.Int h) = media_length_px dpmm (Float.Int (200 - h)).
Proof.
  unfold media_length_px, media_length_mm, center_length_mm.
  replace (Z.abs (200 - h - 100)) with (Z.abs (h - 100)) by lia. reflexivity.
Qed.

(** C2, as amended.  For a finite [dpmm] that is not negative,
    [media_length_px] is [int()] of the double product
    [abs(screen_height_mm - 100) / 2 * dpmm]: when that product is finite,
    its floor, which is never negative and is strictly positive exactly
    when the product is at least 1; otherwise [int()] raises.  The absolute
    value stands in for any rejection or clamping of heights of 100 mm or
    less: an int height [h] gives what [200 - h] gives. *)
Theorem C2_media_length_px_truncated_abs (dpmm : Float.float)
    (screen_height_mm : Float.num) :
  Float.nonneg dpmm = true ->
  match media_length_mm screen_height_mm with
  | Py.Raise e => media_length_px dpmm screen_height_mm = Py.Raise e
  | Py.Ok mm =>
      let p := Float.mul mm dpmm in
      if Float.is_finite p then
        media_length_px dpmm screen_height_mm = Py.Ok (Qfloor (Float.value p))
        /\ 0 <= Qfloor (Float.value p)
        /\ (0 < Qfloor (Float.value p) <-> (1 <= Float.value p)%Q)
      else
        media_length_px dpmm screen_height_mm
        = Py.Raise (if Float.is_nan p then Py.ValueError else Py.OverflowError)
  end
  /\ (forall h : Z,
        media_length_px dpmm (Float.Int h)
        = media_length_px dpmm (Float.Int (200 - h))).
Proof.
  intros Hd. split; [| intros h; apply media_length_px_mirrored].
  destruct (nonneg_not_negative dpmm Hd) as [Hneg _].
  unfold media_length_px.
  destruct (media_length_mm screen_height_mm) as [mm | e] eqn:Emm;
    [| reflexivity].
  cbn [Py.bind].
  pose proof (mul_not_negative mm dpmm
                (media_length_mm_not_negative _ _ Emm) Hneg) as Hp.
  destruct (Float.is_finite (Float.mul mm dpmm)) eqn:Ef.
  - split; [apply to_int_floor; assumption |].
    split; [apply floor_nonneg, value_nonneg, Hp | apply floor_pos_iff].
  - apply to_int_raises, Ef.
Qed.

(** A panel of 140 mm height at 96 dpi: 20 mm of media, 75 pixels. *)
Lemma C2_media_length_px_witness :
  let p := Float.mul (Float.of_Z 20) MoreSamples.dpmm_96 in
  (media_length_px MoreSamples.dpmm_96 (Float.Int 140)
   = Py.Ok (Qfloor (Float.value p))
   /\ 0 <= Qfloor (Float.value p)
   /\ (0 < Qfloor (Float.value p) <-> (1 <= Float.value p)%Q))
  /\ (forall h : Z,
        media_length_px MoreSamples.dpmm_96 (Float.Int h)
        = media_length_px MoreSamples.dpmm_96 (Float.Int (200 - h))).
Proof.
  apply (C2_media_length_px_truncated_abs MoreSamples.dpmm_96 (Float.Int 140)).
  vm_compute. reflexivity.
Defined.

(** C2 fails as stated, twice over.  A screen 101 mm high (more than 100)
    at 40 dpi gets a quadrant side of 0 pixels; a screen 60 mm high (less
    than 100) at 96 dpi gets a quadrant side of 75 pixels, the same as a
    screen 140 mm high: nothing is rejected and nothing clamped. *)
Lemma C2_counterexample :
  sizing Float.sqrt (Samples.panel 40 101)
    = Py.Ok (Float.div (Float.of_Z 40) mm_per_inch, Float.Int 508, Float.Int 101)
  /\ media_length_px (Float.div (Float.of_Z 40) mm_per_inch) (Float.Int 101)
     = Py.Ok 0
  /\ sizing Float.sqrt (Samples.panel 96 60)
     = Py.Ok (MoreSamples.dpmm_96, Float.Int 508, Float.Int 60)
  /\ media_length_px MoreSamples.dpmm_96 (Float.Int 60) = Py.Ok 75
  /\ media_length_px MoreSamples.dpmm_96 (Float.Int 140) = Py.Ok 75.
Proof. repeat split; vm_compute; reflexivity. Qed.

(** C6, as amended.  For a finite [dpmm] that is not negative,
    [center_length_px] is [int()] of the double product [100 * dpmm]:
    truncated to whole pixels, not rounded.  When the product is finite it
    is its floor, which is either the rounded value or one less; when the
    product overflows the doubles, [int()] raises OverflowError. *)
Theorem C6_center_length_px_truncates (dpmm : Float.float) :
  Float.nonneg dpmm = true ->
  let p := Float.mul (Float.of_Z 100) dpmm in
  if Float.is_finite p then
    center_length_px dpmm = Py.Ok (Qfloor (Float.value p))
    /\ (inject_Z (Qfloor (Float.value p)) <= Float.value p)%Q
    /\ (Float.value p < inject_Z (Qfloor (Float.value p) + 1))%Q
    /\ (Qfloor (Float.value p) = Py.round (Float.value p)
        \/ Qfloor (Float.value p) = Py.round (Float.value p) - 1)
  else center_length_px dpmm = Py.Raise Py.OverflowError.
Proof.
  intros Hd. destruct (nonneg_not_negative dpmm Hd) as [Hneg Hfin].
  assert (E : center_length_px dpmm
              = Float.to_int (Float.mul (Float.of_Z 100) dpmm)).
  { unfold center_length_px.
    destruct (Float.of_int center_length_mm) as [hundred |] eqn:E100;
      vm_compute in E100; [| discriminate]. injection E100 as <-.
    reflexivity. }
  assert (Hp : Float.negative (Float.mul (Float.of_Z 100) dpmm) = false).
  { apply mul_not_negative; [reflexivity | exact Hneg]. }
  assert (Hn : Float.is_nan (Float.mul (Float.of_Z 100) dpmm) = false).
  { apply mul_finite_not_nan; [reflexivity | exact Hfin]. }
  cbv zeta. rewrite E.
  destruct (Float.is_finite (Float.mul (Float.of_Z 100) dpmm)) eqn:Ef.
  - split; [apply to_int_floor; assumption |].
    split; [apply Qfloor_le |]. split; [apply Qlt_floor |].
    destruct (round_floor_or_next (Float.value (Float.mul (Float.of_Z 100) dpmm)))
      as [R | R]; rewrite R; [left | right]; lia.
  - rewrite (to_int_raises _ Ef), Hn. reflexivity.
Qed.

(** At 96 dpi. *)
Lemma C6_center_length_px_witness :
  let p := Float.mul (Float.of_Z 100) MoreSamples.dpmm_96 in
  center_length_px MoreSamples.dpmm_96 = Py.Ok (Qfloor (Float.value p))
  /\ (inject_Z (Qfloor (Float.value p)) <= Float.value p)%Q
  /\ (Float.value p < inject_Z (Qfloor (Float.value p) + 1))%Q
  /\ (Qfloor (Float.value p) = Py.round (Float.value p)
      \/ Qfloor (Float.value p) = Py.round (Float.value p) - 1).
Proof.
  apply (C6_center_length_px_truncates MoreSamples.dpmm_96).
  vm_compute. reflexivity.
Defined.

(** C6 fails as stated: at 96 dpi, [100 * dpmm] is 377.95..., which rounds
    to 378, and [center_length_px] is 377. *)
Lemma C6_counterexample :
  center_length_px MoreSamples.dpmm_96 = Py.Ok 377
  /\ Py.round (Float.value (Float.mul (Float.of_Z 100) MoreSamples.dpmm_96)) = 378
  /\ (755 # 2 < Float.value (Float.mul (Float.of_Z 100) MoreSamples.dpmm_96))%Q.
Proof. repeat split; vm_compute; reflexivity. Qed.

(** The lengths are those of the machine's doubles, which can differ by a
    pixel from the lengths exact arithmetic would give: at 3.4 dots per
    millimetre the double product [100 * dpmm] is 340.0 although the
    double nearest to 3.4 lies below it; a 1016x762 widget sized as 5
    inches gets quadrants of 118 pixels, a 1143x5080 widget sized as 25
    inches a centre square of 819, and 227 mm at 64 dpi quadrants of 160. *)
Example lengths_round_as_doubles :
  center_length_px MoreSamples.dpmm_3_4 = Py.Ok 340
  /\ Qfloor (100 * Float.value MoreSamples.dpmm_3_4) = 339
  /\ lengths Float.sqrt (MoreSamples.by_hand 1016 1905 25) = Py.Ok (782, 340)
  /\ lengths Float.sqrt (MoreSamples.by_hand 1016 762 5) = Py.Ok (118, 1000)
  /\ lengths Float.sqrt (MoreSamples.by_hand 1143 5080 25) = Py.Ok (2130, 819)
  /\ lengths Float.sqrt (MoreSamples.by_hand 1143 1524 6) = Py.Ok (136, 1250)
  /\ lengths Float.sqrt (Samples.panel 64 227) = Py.Ok (160, 251).
Proof. repeat split; vm_compute; reflexivity. Qed.

(** The divisions of lines 374-376 raise on a zero diagonal and on a
    widget without extent. *)
Example sizing_divides_by_zero :
  sizing Float.sqrt (MoreSamples.by_hand 1920 1080 0)
    = Py.Raise Py.ZeroDivisionError
  /\ sizing Float.sqrt (MoreSamples.by_hand 0 0 32)
     = Py.Raise Py.ZeroDivisionError
  /\ lengths Float.sqrt (MoreSamples.by_hand 640 360 8) = Py.Ok (0, 361).
Proof. repeat split; vm_compute; reflexivity. Qed.

End GeometryFacts.

(* ===================================================================== *)
(* ===================================================================== *)
(** ** Flips, mirrors and quarter turns *)
(* ===================================================================== *)

Section RasterFacts.
Import Raster.

Lemma flip_involutive (f : Frame) : flip (flip f) = f.
Proof.
  destruct f as [m w h px]. unfold flip. simpl. rewrite rev_involutive.
  reflexivity.
Qed.

Lemma mirror_involutive (f : Frame) : mirror (mirror f) = f.
Proof.
  destruct f as [m w h px]. unfold mirror. simpl. f_equal.
  rewrite map_map. rewrite <- (map_id px) at 2.
  apply map_ext. intros row. apply rev_involutive.
Qed.

(** A quarter turn followed by a vertical flip is the transposition. *)
Lemma flip_rotate90_transposes (f : Frame) :
  pixels (flip (rotate90 f)) = columns (Z.to_nat (width f)) (pixels f)
  /\ width (flip (rotate90 f)) = height f
  /\ height (flip (rotate90 f)) = width f.
Proof.
  unfold flip, rotate90. simpl. rewrite rev_involutive. auto.
Qed.

(** The four operations on a sample: rows are listed top to bottom. *)
Example flip_quad :
  pixels (flip (Samples.quad 7))
  = [[[7; 0; 1]; [7; 1; 1]]; [[7; 0; 0]; [7; 1; 0]]].
Proof. reflexivity. Qed.

Example mirror_quad :
  pixels (mirror (Samples.quad 7))
  = [[[7; 1; 0]; [7; 0; 0]]; [[7; 1; 1]; [7; 0; 1]]].
Proof. reflexivity. Qed.

Example rotate90_quad :
  pixels (rotate90 (Samples.quad 7))
  = [[[7; 1; 0]; [7; 1; 1]]; [[7; 0; 0]; [7; 0; 1]]].
Proof. reflexivity. Qed.

(** [thumbnail] leaves a frame that fits the box untouched and shrinks a
    larger one. *)
Lemma thumbnail_fits `{Primitives} (f : Frame) (size : Z * Z) :
  width f <= fst size -> height f <= snd size -> thumbnail f size = Py.Ok f.
Proof.
  intros Hw Hh. unfold thumbnail, thumbnail_size.
  destruct (Z.gtb_spec (width f) (fst size)); [lia |].
  destruct (Z.gtb_spec (height f) (snd size)); [lia |].
  rewrite !Z.eqb_refl. reflexivity.
Qed.

Lemma thumbnail_size_shrinks (w h : Z) (size : Z * Z) :
  0 < fst size < w -> fst (thumbnail_size w h size) < w.
Proof.
  intros Hw. unfold thumbnail_size.
  destruct (Z.gtb_spec w (fst size)); [| lia].
  destruct (Z.gtb_spec (Z.max (h * fst size / w) 1) (snd size)); cbn [fst]; [| lia].
  apply Z.max_lub_lt; [| lia].
  apply Z.le_lt_trans with (fst size); [| lia].
  assert (Hm : 1 <= Z.max (h * fst size / w) 1) by lia.
  assert (0 <= snd size \/ snd size < 0) as [Hs | Hs] by lia.
  - apply Z.div_le_upper_bound; [lia |]. nia.
  - assert (fst size * snd size / Z.max (h * fst size / w) 1 <= 0).
    { apply Z.div_le_upper_bound; [lia |]. nia. }
    lia.
Qed.

Lemma thumbnail_shrinks `{Primitives} (f f' : Frame) (size : Z * Z) :
  0 < fst size < width f ->
  thumbnail f size = Py.Ok f' ->
  width f' < width f.
Proof.
  intros Hw. pose proof (thumbnail_size_shrinks (width f) (height f) size Hw) as Hlt.
  unfold thumbnail.
  destruct (thumbnail_size (width f) (height f) size) as [x y]. cbn [fst] in Hlt.
  destruct ((x =? width f) && (y =? height f)) eqn:E.
  - apply andb_true_iff in E. destruct E as [E _]. lia.
  - destruct ((x <? 1) || (y <? 1)); [discriminate |].
    intros E'. injection E' as <-. exact Hlt.
Qed.

(** A target of at least one pixel a side can always be scaled to. *)
Lemma thumbnail_size_positive (w h : Z) (size : Z * Z) :
  1 <= fst size -> 1 <= snd size ->
  thumbnail_size w h size = (w, h)
  \/ (1 <= fst (thumbnail_size w h size) /\ 1 <= snd (thumbnail_size w h size)).
Proof.
  intros Hx Hy. unfold thumbnail_size.
  destruct (Z.gtb_spec w (fst size)).
  - destruct (Z.gtb_spec (Z.max (h * fst size / w) 1) (snd size));
      right; cbn [fst snd]; lia.
  - destruct (Z.gtb_spec h (snd size)); [right; cbn [fst snd]; lia | left; reflexivity].
Qed.

Lemma thumbnail_returns `{Primitives} (f : Frame) (size : Z * Z) :
  1 <= fst size -> 1 <= snd size -> exists f', thumbnail f size = Py.Ok f'.
Proof.
  intros Hx Hy. unfold thumbnail.
  destruct (thumbnail_size_positive (width f) (height f) size Hx Hy) as [E | [H1 H2]].
  - rewrite E, !Z.eqb_refl. eexists. reflexivity.
  - destruct (thumbnail_size (width f) (height f) size) as [x y].
    cbn [fst snd] in H1, H2.
    destruct ((x =? width f) && (y =? height f)); [eexists; reflexivity |].
    destruct (Z.ltb_spec x 1); [lia |]. destruct (Z.ltb_spec y 1); [lia |].
    eexists. reflexivity.
Qed.

(** An image that has pixels cannot be scaled to the empty size. *)
Lemma thumbnail_size_nothing (w h : Z) :
  0 < w -> thumbnail_size w h (0, 0) = (1, 0).
Proof.
  intros Hw. unfold thumbnail_size. cbn [fst snd].
  destruct (Z.gtb_spec w 0); [| lia].
  rewrite Z.mul_0_r, Z.div_0_l by lia. reflexivity.
Qed.

Lemma thumbnail_to_nothing_raises `{Primitives} (f : Frame) :
  0 < width f -> 0 < height f -> thumbnail f (0, 0) = Py.Raise Py.ValueError.
Proof.
  intros Hw Hh. unfold thumbnail. rewrite thumbnail_size_nothing by exact Hw.
  destruct (Z.eqb_spec 0 (height f)); [lia |].
  rewrite andb_false_r. reflexivity.
Qed.

End RasterFacts.

(* ===================================================================== *)
(** ** The image store: what each PIL call touches *)
(* ===================================================================== *)

Section HeapFacts.
Import Raster Geometry Heap.

Lemma keeps_refl n s : keeps n s s.
Proof. split; auto. Qed.

Lemma keeps_trans n s1 s2 s3 : keeps n s1 s2 -> keeps n s2 s3 -> keeps n s1 s3.
Proof.
  intros [L1 A1] [L2 A2]. split; [lia |].
  intros r Hr. rewrite A2, A1; auto.
Qed.

Lemma triple_ret {A} n (a : A) (Q : A -> Prop) : Q a -> triple n (ret a) Q.
Proof. intros HQ s _. simpl. split; [apply keeps_refl | exact HQ]. Qed.

Lemma triple_bind {A B} n (m : M A) (k : A -> M B) (Q : A -> Prop) (R : B -> Prop) :
  triple n m Q -> (forall a, Q a -> triple n (k a) R) -> triple n (bind m k) R.
Proof.
  intros Hm Hk s Hs. unfold bind.
  destruct (Hm s Hs) as [Hkeep HQ].
  destruct (m s) as [a s1] eqn:E. simpl in *.
  assert (Hs1 : (n <= length s1)%nat) by (destruct Hkeep; lia).
  destruct (Hk a HQ s1 Hs1) as [Hkeep2 HR].
  split; [eapply keeps_trans; eauto | exact HR].
Qed.

Lemma triple_weaken {A} n (m : M A) (Q R : A -> Prop) :
  triple n m Q -> (forall a, Q a -> R a) -> triple n m R.
Proof.
  intros Hm HQR s Hs. destruct (Hm s Hs). split; auto.
Qed.

Lemma triple_alloc n f : triple n (alloc f) (fun r => (n <= r)%nat).
Proof.
  intros s Hs. unfold alloc. cbn [fst snd]. split; [| exact Hs].
  split; [rewrite length_app; lia |].
  intros r Hr. apply lookup_app_l. lia.
Qed.

Lemma triple_load n r : triple n (load r) (fun _ => True).
Proof. intros s _. simpl. split; [apply keeps_refl | exact I]. Qed.

Lemma triple_store n r f : (n <= r)%nat -> triple n (store r f) (fun _ => True).
Proof.
  intros Hr s _. unfold store. cbn [fst snd]. split; [| exact I].
  split; [rewrite length_insert; lia |].
  intros r' Hr'. apply list_lookup_insert_ne. lia.
Qed.

(** Every call that returns an image returns a new object. *)
Lemma triple_Image_new n m size color :
  triple n (Image_new m size color) (fun r => (n <= r)%nat).
Proof. apply triple_alloc. Qed.

Lemma triple_Image_copy n r : triple n (Image_copy r) (fun r' => (n <= r')%nat).
Proof.
  eapply triple_bind; [apply triple_load |]. intros f _. apply triple_alloc.
Qed.

Lemma triple_flip n r : triple n (ImageOps_flip r) (fun r' => (n <= r')%nat).
Proof.
  eapply triple_bind; [apply triple_load |]. intros f _. apply triple_alloc.
Qed.

Lemma triple_mirror n r : triple n (ImageOps_mirror r) (fun r' => (n <= r')%nat).
Proof.
  eapply triple_bind; [apply triple_load |]. intros f _. apply triple_alloc.
Qed.

Lemma triple_rotate90 n r : triple n (Image_rotate90 r) (fun r' => (n <= r')%nat).
Proof.
  eapply triple_bind; [apply triple_load |]. intros f _. apply triple_alloc.
Qed.

Lemma triple_alloc_all n fs : triple n (alloc_all fs) (fun _ => True).
Proof.
  induction fs as [| f fs IH]; simpl.
  - apply triple_ret. exact I.
  - eapply triple_bind; [apply triple_alloc |]. intros r _.
    eapply triple_bind; [apply IH |]. intros rs _. apply triple_ret. exact I.
Qed.

Lemma triple_Image_split n r : triple n (Image_split r) (fun _ => True).
Proof.
  eapply triple_bind; [apply triple_load |]. intros f _.
  apply triple_alloc_all.
Qed.

(** The two calls that return nothing change the object they are called on. *)
Lemma triple_Image_thumbnail `{Primitives} n r size :
  (n <= r)%nat -> triple n (Image_thumbnail r size) (fun _ => True).
Proof.
  intros Hr. eapply triple_bind; [apply triple_load |]. intros f _.
  destruct (thumbnail f size) as [f' | e].
  - eapply triple_bind; [apply triple_store; exact Hr |]. intros _ _.
    apply triple_ret. exact I.
  - apply triple_ret. exact I.
Qed.

Lemma triple_Image_paste `{Primitives} n dst src corner mask :
  (n <= dst)%nat -> triple n (Image_paste dst src corner mask) (fun _ => True).
Proof.
  intros Hr. eapply triple_bind; [apply triple_load |]. intros d _.
  eapply triple_bind; [apply triple_load |]. intros s _.
  destruct mask as [m |].
  - eapply triple_bind; [apply triple_load |]. intros mk _.
    apply triple_store. exact Hr.
  - apply triple_store. exact Hr.
Qed.

Lemma triple_paste_quadrant `{Primitives} n canvas img corner :
  (n <= canvas)%nat -> triple n (paste_quadrant canvas img corner) (fun _ => True).
Proof.
  intros Hr. eapply triple_bind; [apply triple_load |]. intros f _.
  destruct (String.eqb (mode f) "RGBA").
  - eapply triple_bind; [apply triple_Image_split |]. intros bands _.
    apply triple_Image_paste. exact Hr.
  - apply triple_Image_paste. exact Hr.
Qed.

Lemma triple_quadrants `{Primitives} n mlp media :
  triple n (quadrants mlp media) (fun _ => True).
Proof.
  unfold quadrants.
  eapply triple_bind; [apply triple_Image_copy |]. intros top Htop.
  eapply triple_bind; [apply triple_Image_thumbnail; exact Htop |].
  intros [[] | e] _; [| apply triple_ret; exact I].
  eapply triple_bind; [apply triple_flip |]. intros bottom _.
  eapply triple_bind; [apply triple_rotate90 |]. intros rotated _.
  eapply triple_bind; [apply triple_flip |]. intros lft _.
  eapply triple_bind; [apply triple_mirror |]. intros rgt _.
  apply triple_ret. exact I.
Qed.

Lemma triple_debug_overlay `{Primitives} n d clp canvas :
  (n <= canvas)%nat -> triple n (debug_overlay d clp canvas) (fun _ => True).
Proof.
  intros Hr. unfold debug_overlay.
  eapply triple_bind; [apply triple_Image_new |]. intros hologram _.
  eapply triple_bind; [apply triple_Image_new |]. intros context _.
  eapply triple_bind; [apply triple_Image_new |]. intros center _.
  eapply triple_bind; [apply triple_Image_paste; exact Hr |]. intros _ _.
  eapply triple_bind; [apply triple_Image_paste; exact Hr |]. intros _ _.
  apply triple_Image_paste. exact Hr.
Qed.

Lemma triple_compose `{Primitives} n d dbg clp q :
  triple n (compose d dbg clp q) (fun r => (n <= r)%nat).
Proof.
  unfold compose. destruct q as [[[qt qb] ql] qr].
  eapply triple_bind; [apply triple_load |]. intros top_f _.
  eapply triple_bind; [apply triple_load |]. intros left_f _.
  eapply triple_bind; [apply triple_load |]. intros right_f _.
  eapply triple_bind; [apply triple_Image_new |]. intros canvas Hc.
  eapply triple_bind with (Q := fun _ => True).
  { destruct dbg; [apply triple_debug_overlay; exact Hc | apply triple_ret; exact I]. }
  intros _ _.
  eapply triple_bind; [apply triple_paste_quadrant; exact Hc |]. intros _ _.
  eapply triple_bind; [apply triple_paste_quadrant; exact Hc |]. intros _ _.
  eapply triple_bind; [apply triple_paste_quadrant; exact Hc |]. intros _ _.
  eapply triple_bind; [apply triple_paste_quadrant; exact Hc |]. intros _ _.
  apply triple_ret. exact Hc.
Qed.

(** Whether it returns or raises, [hologrify] leaves the objects it found
    as they were; the composite it returns is a new one. *)
Lemma triple_hologrify `{Primitives} n d dbg media :
  triple n (hologrify d dbg media)
    (fun r => match r with Py.Ok c => (n <= c)%nat | Py.Raise _ => True end).
Proof.
  unfold hologrify.
  destruct (lengths fsqrt d) as [[mlp clp] | e]; [| apply triple_ret; exact I].
  eapply triple_bind; [apply triple_quadrants |].
  intros [q | e] _; [| apply triple_ret; exact I].
  eapply triple_bind; [apply triple_compose |]. intros canvas Hc.
  apply triple_ret. exact Hc.
Qed.

End HeapFacts.

Section QuadrantFacts.
Import Raster Geometry Heap.

Lemma content_app_last (s : Store) f : content (s ++ [f]) (length s) = f.
Proof.
  unfold content. rewrite lookup_app_r by lia. rewrite Nat.sub_diag. reflexivity.
Qed.

Lemma content_app_lt (s : Store) f r :
  (r < length s)%nat -> content (s ++ [f]) r = content s r.
Proof. intros Hr. unfold content. rewrite lookup_app_l by lia. reflexivity. Qed.

Lemma content_insert_eq (s : Store) f r :
  (r < length s)%nat -> content (<[r := f]> s) r = f.
Proof.
  intros Hr. unfold content. rewrite list_lookup_insert_eq by lia. reflexivity.
Qed.

Ltac fold_content :=
  repeat match goal with
  | |- context [default empty_frame (?x !! ?r)] =>
      change (default empty_frame (x !! r)) with (content x r)
  end.

(** C5.  For every source frame, the four images [hologrify] builds are
    related as the layout requires: [top] is the source scaled into the
    bounding square, [bottom] is [top] flipped vertically, [left] is [top]
    turned a quarter and flipped vertically, [right] is [left] mirrored; so
    flipping [bottom] again gives back [top], and mirroring [right] again
    gives back [left], pixel for pixel.  No image is built only when the
    scaling of [top] raises. *)
Theorem C5_quadrant_equations `{Primitives} (mlp : Z) (media : ref) (s : Store) :
  match quadrants mlp media s with
  | (Py.Ok (top, bottom, lft, rgt), s') =>
      thumbnail (content s media) (mlp, mlp) = Py.Ok (content s' top)
      /\ content s' bottom = flip (content s' top)
      /\ content s' lft = flip (rotate90 (content s' top))
      /\ content s' rgt = mirror (content s' lft)
      /\ flip (content s' bottom) = content s' top
      /\ mirror (content s' rgt) = content s' lft
  | (Py.Raise e, _) => thumbnail (content s media) (mlp, mlp) = Py.Raise e
  end.
Proof.
  unfold quadrants, Image_copy, Image_thumbnail, bind, load, alloc, ret.
  cbn [fst snd]. fold_content.
  set (f0 := content s media).
  rewrite (content_app_last s f0).
  destruct (thumbnail f0 (mlp, mlp)) as [T | e] eqn:ET; [| reflexivity].
  unfold store, ImageOps_flip, ImageOps_mirror, Image_rotate90, bind, load,
    alloc, ret.
  cbn [fst snd]. fold_content.
  match goal with |- context [<[?i := ?x]> ?l] => set (s2 := <[i := x]> l) end.
  assert (L2 : length s2 = S (length s)).
  { unfold s2. rewrite length_insert, length_app. simpl. lia. }
  assert (E2 : content s2 (length s) = T).
  { unfold s2. apply content_insert_eq. rewrite length_app. simpl. lia. }
  rewrite E2.
  match goal with |- context [s2 ++ ?l] => set (s3 := s2 ++ l) end.
  assert (L3 : length s3 = S (S (length s))).
  { unfold s3. rewrite length_app, L2. simpl. lia. }
  assert (E3 : content s3 (length s) = T).
  { unfold s3. rewrite content_app_lt by lia. exact E2. }
  assert (B3 : content s3 (length s2) = flip T) by apply content_app_last.
  rewrite E3.
  match goal with |- context [s3 ++ ?l] => set (s4 := s3 ++ l) end.
  assert (L4 : length s4 = S (S (S (length s)))).
  { unfold s4. rewrite length_app, L3. simpl. lia. }
  assert (R4 : content s4 (length s3) = rotate90 T) by apply content_app_last.
  rewrite R4.
  match goal with |- context [s4 ++ ?l] => set (s5 := s4 ++ l) end.
  assert (L5 : length s5 = S (S (S (S (length s))))).
  { unfold s5. rewrite length_app, L4. simpl. lia. }
  assert (F5 : content s5 (length s4) = flip (rotate90 T)) by apply content_app_last.
  rewrite F5.
  match goal with |- context [s5 ++ ?l] => set (s6 := s5 ++ l) end.
  assert (ET6 : content s6 (length s) = T).
  { unfold s6. rewrite content_app_lt by lia.
    unfold s5. rewrite content_app_lt by lia.
    unfold s4. rewrite content_app_lt by lia. exact E3. }
  assert (EB : content s6 (length s2) = flip T).
  { unfold s6. rewrite content_app_lt by lia.
    unfold s5. rewrite content_app_lt by lia.
    unfold s4. rewrite content_app_lt by lia. exact B3. }
  assert (EL : content s6 (length s4) = flip (rotate90 T)).
  { unfold s6. rewrite content_app_lt by lia. exact F5. }
  assert (ER : content s6 (length s5) = mirror (flip (rotate90 T)))
    by apply content_app_last.
  rewrite ET6, EB, EL, ER.
  rewrite flip_involutive, mirror_involutive. repeat split.
Qed.

(** The compositor changes no object that existed before the call,
    whether it returns or raises, and the composite it returns is a new
    object. *)
Lemma hologrify_frame_condition `{Primitives} (d : Display) (dbg : bool)
    (media : ref) (s : Store) :
  match fst (hologrify d dbg media s) with
  | Py.Ok c => (length s <= c)%nat
  | Py.Raise _ => True
  end
  /\ keeps (length s) s (snd (hologrify d dbg media s)).
Proof.
  destruct (triple_hologrify (length s) d dbg media s (le_n _)) as [K F].
  split; assumption.
Qed.

(** C10, as amended.  The compositor never changes a frame that existed
    before the call, its input included: it scales a private copy, builds
    the other quadrants as new frames and paints on a canvas of its own.
    The producer's preview is different: on the passes where the counter
    is a multiple of [fps] the decoded frame itself is rescaled in place,
    after it has been composited; no other existing frame is touched.  The
    decoded frame stays as it was on every other pass, and on a pass that
    the compositor or the preview's [thumbnail] ends with an exception. *)
Theorem C10_only_the_preview_rescales_in_place `{Primitives}
    (cfg : Pipeline.Config) (i : Z) (frame : ref) (s : Store) :
  (frame < length s)%nat ->
  Pipeline.fps cfg <> 0 ->
  let composite :=
    fst (hologrify (Pipeline.screen cfg) (Pipeline.debug cfg) frame s) in
  match composite with
  | Py.Ok c => (length s <= c)%nat
  | Py.Raise _ => True
  end
  /\ (forall r, (r < length s)%nat ->
       snd (hologrify (Pipeline.screen cfg) (Pipeline.debug cfg) frame s) !! r
       = s !! r)
  /\ (forall r, (r < length s)%nat -> r <> frame ->
       snd (Pipeline.frame_tuple cfg i frame s) !! r = s !! r)
  /\ snd (Pipeline.frame_tuple cfg i frame s) !! frame
     = Some match composite,
                  thumbnail (content s frame) (Pipeline.thumbnail_size cfg) with
            | Py.Ok _, Py.Ok scaled =>
                if i mod Pipeline.fps cfg =? 0 then scaled else content s frame
            | _, _ => content s frame
            end.
Proof.
  intros Hframe Hfps composite. subst composite.
  destruct (hologrify_frame_condition (Pipeline.screen cfg) (Pipeline.debug cfg)
              frame s) as [Hout [Hlen Hkeep]].
  split; [exact Hout |]. split; [exact Hkeep |].
  unfold Pipeline.frame_tuple, bind.
  destruct (hologrify (Pipeline.screen cfg) (Pipeline.debug cfg) frame s)
    as [h s1] eqn:Eh.
  cbn [fst snd] in *.
  assert (Hs : s !! frame = Some (content s frame)).
  { unfold content. destruct (s !! frame) eqn:E; [reflexivity |].
    apply lookup_ge_None in E. lia. }
  destruct h as [h | e].
  2:{ unfold ret. cbn [fst snd]. split.
      - intros r Hr _. apply Hkeep. exact Hr.
      - rewrite (Hkeep frame Hframe). exact Hs. }
  unfold Py.imod. destruct (Z.eqb_spec (Pipeline.fps cfg) 0) as [E0 | _];
    [contradiction |].
  destruct (i mod Pipeline.fps cfg =? 0).
  - unfold Image_thumbnail, bind, load. cbn [fst snd].
    change (default empty_frame (s1 !! frame)) with (content s1 frame).
    assert (Ec : content s1 frame = content s frame).
    { unfold content. rewrite (Hkeep frame Hframe). reflexivity. }
    rewrite Ec.
    destruct (thumbnail (content s frame) (Pipeline.thumbnail_size cfg))
      as [scaled | e]; unfold store, ret; cbn [fst snd].
    + split.
      * intros r Hr Hne. rewrite list_lookup_insert_ne by congruence.
        apply Hkeep. exact Hr.
      * rewrite list_lookup_insert_eq by lia. reflexivity.
    + split.
      * intros r Hr _. apply Hkeep. exact Hr.
      * rewrite (Hkeep frame Hframe). exact Hs.
  - unfold load, ret. cbn [fst snd]. split.
    + intros r Hr _. apply Hkeep. exact Hr.
    + rewrite (Hkeep frame Hframe), Hs.
      destruct (thumbnail _ _); reflexivity.
Qed.

(** On the third frame of a 3 fps clip. *)
Lemma C10_only_the_preview_rescales_in_place_witness :
  let H := Samples.reference in
  let cfg := Samples.config in
  let s := [Samples.quad 2] in
  let composite :=
    fst (hologrify (Pipeline.screen cfg) (Pipeline.debug cfg) 0%nat s) in
  match composite with
  | Py.Ok c => (length s <= c)%nat
  | Py.Raise _ => True
  end
  /\ (forall r, (r < length s)%nat ->
       snd (hologrify (Pipeline.screen cfg) (Pipeline.debug cfg) 0%nat s) !! r
       = s !! r)
  /\ (forall r, (r < length s)%nat -> r <> 0%nat ->
       snd (Pipeline.frame_tuple cfg 3 0%nat s) !! r = s !! r)
  /\ snd (Pipeline.frame_tuple cfg 3 0%nat s) !! 0%nat
     = Some match composite,
                  thumbnail (content s 0%nat) (Pipeline.thumbnail_size cfg) with
            | Py.Ok _, Py.Ok scaled =>
                if 3 mod Pipeline.fps cfg =? 0 then scaled else content s 0%nat
            | _, _ => content s 0%nat
            end.
Proof.
  intros H cfg s.
  apply (@C10_only_the_preview_rescales_in_place H cfg 3 0%nat s).
  - simpl. lia.
  - vm_compute. discriminate.
Defined.

(** C10 fails as stated.  The producer decodes the 2x2 frame [quad 2] into
    object 0; after the pass that makes the preview (counter 3, 3 fps) that
    same object is 1x1: [thumbnail] rescaled it where it was, and the
    preview is its new content. *)
Lemma C10_counterexample :
  snd (@Pipeline.frame_tuple Samples.reference Samples.config 3 0%nat
         [Samples.quad 2]) !! 0%nat
    = Some {| mode := "RGB"; width := 1; height := 1; pixels := [[[2; 0; 0]]] |}
  /\ snd (@Pipeline.frame_tuple Samples.reference Samples.config 3 0%nat
            [Samples.quad 2]) !! 0%nat
     <> Some (Samples.quad 2)
  /\ match fst (@Pipeline.frame_tuple Samples.reference Samples.config 3 0%nat
                  [Samples.quad 2]) with
     | Py.Ok (_, preview) =>
         preview = Some {| mode := "RGB"; width := 1; height := 1;
                           pixels := [[[2; 0; 0]]] |}
     | Py.Raise _ => False
     end.
Proof.
  split; [vm_compute; reflexivity |].
  split; [vm_compute; discriminate |].
  vm_compute. reflexivity.
Qed.

(** With a bounding square of at least one pixel a side the scaling of
    [top] returns, whatever the source. *)
Lemma quadrants_returns `{Primitives} (mlp : Z) (media : ref) (s : Store) :
  1 <= mlp -> exists q, fst (quadrants mlp media s) = Py.Ok q.
Proof.
  intros Hm. unfold quadrants, Image_copy, Image_thumbnail, bind, load, alloc.
  cbn [fst snd].
  destruct (thumbnail_returns (default empty_frame (s !! media)) (mlp, mlp) Hm Hm)
    as [T ET].
  match goal with
  | |- context [thumbnail ?f (mlp, mlp)] =>
      replace f with (default empty_frame (s !! media))
  end.
  - rewrite ET.
    unfold store, ImageOps_flip, ImageOps_mirror, Image_rotate90, bind, load,
      alloc, ret. cbn [fst snd]. eexists. reflexivity.
  - rewrite lookup_app_r by lia. rewrite Nat.sub_diag. reflexivity.
Qed.

(** On a display that composes, [hologrify] returns for every frame. *)
Lemma hologrify_returns `{Primitives} (d : Display) (dbg : bool)
    (media : ref) (s : Store) :
  Controls.composes d = true ->
  exists c, fst (hologrify d dbg media s) = Py.Ok c.
Proof.
  unfold Controls.composes, hologrify.
  destruct (lengths fsqrt d) as [[mlp clp] | e]; [| discriminate].
  intros Hm. apply Z.leb_le in Hm. unfold bind.
  destruct (quadrants_returns mlp media s Hm) as [q Hq].
  destruct (quadrants mlp media s) as [r s1]. cbn [fst] in Hq. subst r.
  destruct (compose d dbg clp q s1) as [canvas s2]. eexists. reflexivity.
Qed.

Lemma hologrify_frame_returns `{Primitives} (d : Display) (dbg : bool)
    (f : Frame) :
  Controls.composes d = true ->
  exists q, hologrify_frame d dbg f = Py.Ok q.
Proof.
  intros Hc. unfold hologrify_frame.
  destruct (hologrify_returns d dbg 0%nat [f] Hc) as [c Ec].
  destruct (hologrify d dbg 0%nat [f]) as [r s1]. cbn [fst] in Ec. subst r.
  eexists. reflexivity.
Qed.

(** Without a pixel to scale to, [hologrify] raises on every frame that
    has pixels, after its arithmetic went through. *)
Lemma hologrify_frame_raises `{Primitives} (d : Display) (dbg : bool)
    (f : Frame) (clp : Z) :
  lengths fsqrt d = Py.Ok (0, clp) ->
  0 < width f -> 0 < height f ->
  hologrify_frame d dbg f = Py.Raise Py.ValueError.
Proof.
  intros El Hw Hh. unfold hologrify_frame, hologrify. rewrite El.
  unfold quadrants, Image_copy, Image_thumbnail, bind, load, alloc.
  cbn [fst snd length app lookup].
  change (default empty_frame ([f; f] !! 1%nat)) with f.
  rewrite (thumbnail_to_nothing_raises f Hw Hh). reflexivity.
Qed.

End QuadrantFacts.

(* ===================================================================== *)
(** ** The file list *)
(* ===================================================================== *)

Section FileFacts.
Import Files.

Lemma insert_by_perm key x l : Permutation (x :: l) (Py.insert_by key x l).
Proof.
  induction l as [| y l IH]; simpl.
  - apply Permutation_refl.
  - destruct (String.leb (key x) (key y)).
    + apply Permutation_refl.
    + eapply perm_trans; [apply perm_swap |]. apply perm_skip. exact IH.
Qed.

Lemma sort_by_perm key l : Permutation l (Py.sort_by key l).
Proof.
  induction l as [| x l IH]; simpl.
  - apply perm_nil.
  - eapply perm_trans; [apply perm_skip; exact IH |]. apply insert_by_perm.
Qed.

Lemma insert_by_hdrel a x l :
  lower_le a x -> HdRel lower_le a l -> HdRel lower_le a (Py.insert_by Py.lower x l).
Proof.
  intros Hax Hal. destruct l as [| y l]; simpl.
  - constructor. exact Hax.
  - destruct (String.leb (Py.lower x) (Py.lower y)).
    + constructor. exact Hax.
    + constructor. inversion Hal. assumption.
Qed.

Lemma insert_by_sorted x l :
  Sorted lower_le l -> Sorted lower_le (Py.insert_by Py.lower x l).
Proof.
  induction l as [| y l IH]; simpl; intros Hs.
  - constructor; constructor.
  - destruct (String.leb (Py.lower x) (Py.lower y)) eqn:E.
    + constructor; [exact Hs |]. constructor. exact E.
    + inversion Hs as [| ? ? Hs' Hhd]; subst.
      constructor; [apply IH; exact Hs' |].
      apply insert_by_hdrel; [| exact Hhd].
      unfold lower_le.
      destruct (String.leb_total (Py.lower x) (Py.lower y)) as [T | T];
        [congruence | exact T].
Qed.

Lemma sort_by_sorted l : Sorted lower_le (Py.sort_by Py.lower l).
Proof.
  induction l as [| x l IH]; simpl.
  - constructor.
  - apply insert_by_sorted. exact IH.
Qed.

(** Every accepted extension is a recognised one, whatever its case. *)
Lemma accepted_fmts_recognised (e : string) :
  Py.str_in e accepted_fmts = true ->
  Py.str_in (Py.lower e) (image_fmts ++ video_fmts) = true.
Proof.
  unfold Py.str_in at 1. intros He.
  apply existsb_exists in He. destruct He as (x & Hx & Ex).
  apply String.eqb_eq in Ex. subst x.
  vm_compute in Hx.
  repeat (destruct Hx as [<- | Hx]; [reflexivity |]). destruct Hx.
Qed.

(** X2.  What the file list holds: exactly the entries of the directory that
    [*] matches (names not starting with a dot) and whose extension is one
    of the twelve recognised ones written entirely in lower case or
    entirely in upper case; each as often as it is listed, and ordered by
    lower-cased name.  Every file it holds has a recognised extension. *)
Lemma media_files_lower_or_upper (listing : list string) :
  (forall f, In f (media_files listing) <->
             In f listing
             /\ String.prefix "." f = false
             /\ (Py.str_in (get_fmt f) (image_fmts ++ video_fmts)
                 || Py.str_in (get_fmt f) (map Py.upper (image_fmts ++ video_fmts))
                 = true))
  /\ Permutation (List.filter accepted (glob_star listing)) (media_files listing)
  /\ Sorted lower_le (media_files listing)
  /\ (forall f, In f (media_files listing) -> recognised f = true).
Proof.
  assert (Hin : forall f, In f (media_files listing) <->
                          In f listing /\ String.prefix "." f = false
                          /\ accepted f = true).
  { intros f. unfold media_files. split.
    - intros Hf.
      apply (Permutation_in f (Permutation_sym (sort_by_perm Py.lower _))) in Hf.
      apply filter_In in Hf. destruct Hf as [Hg Ha].
      unfold glob_star in Hg. apply filter_In in Hg. destruct Hg as [Hl Hd].
      apply negb_true_iff in Hd. auto.
    - intros (Hl & Hd & Ha).
      apply (Permutation_in f (sort_by_perm Py.lower _)).
      apply filter_In. split; [| exact Ha].
      unfold glob_star. apply filter_In. split; [exact Hl |].
      apply negb_true_iff. exact Hd. }
  assert (Hacc : forall f, accepted f
                 = Py.str_in (get_fmt f) (image_fmts ++ video_fmts)
                   || Py.str_in (get_fmt f) (map Py.upper (image_fmts ++ video_fmts))).
  { intros f. unfold accepted, accepted_fmts, Py.str_in. apply existsb_app. }
  split; [intros f; rewrite <- Hacc; apply Hin |].
  split; [apply sort_by_perm |].
  split; [apply sort_by_sorted |].
  intros f Hf. apply Hin in Hf. destruct Hf as (_ & _ & Ha).
  unfold recognised. apply accepted_fmts_recognised. exact Ha.
Qed.

End FileFacts.

(* ===================================================================== *)
(** ** Navigation and loading *)
(* ===================================================================== *)

Section SessionFacts.
Import Raster Session.
Context `{Primitives}.
Variable debug : bool.
Variable w : World.

Lemma refresh_keeps_list (s : Polo) :
  files (fst (refresh debug s)) = files s
  /\ current_file_index (fst (refresh debug s)) = current_file_index s.
Proof.
  unfold refresh.
  destruct (media s) as [| img | v].
  - split; reflexivity.
  - destruct (Heap.hologrify_frame (display s) debug img); split; reflexivity.
  - destruct (player_alive s); split; reflexivity.
Qed.

Lemma stop_keeps_list (s : Polo) :
  files (stop s) = files s /\ current_file_index (stop s) = current_file_index s.
Proof. unfold stop. destruct (media s); split; reflexivity. Qed.

Lemma set_media_keeps_list (s : Polo) :
  files (fst (set_media debug w s)) = files s
  /\ current_file_index (fst (set_media debug w s)) = current_file_index s.
Proof.
  unfold set_media.
  destruct (Py.index (files s) (current_file_index s)) as [path | e];
    [| split; reflexivity].
  destruct (Py.str_in (Py.lower (Files.get_fmt path)) Files.image_fmts).
  - destruct (image_open w path); cbn [fst]; [| split; reflexivity].
    destruct (Heap.hologrify_frame (display s) debug f) as [q | e];
      [| split; reflexivity].
    destruct (refresh_keeps_list
                (set_controls true (set_media_qmedia (MImage f) (Some q) s)))
      as [E1 E2].
    rewrite E1, E2. split; reflexivity.
  - destruct (Py.str_in (Py.lower (Files.get_fmt path)) Files.video_fmts).
    + set (s1 := if is_video (media s) then stop s else s).
      assert (Hs1 : files s1 = files s
                    /\ current_file_index s1 = current_file_index s).
      { unfold s1. destruct (is_video (media s));
          [apply stop_keeps_list | split; reflexivity]. }
      destruct (get_reader w path); cbn [fst]; [| exact Hs1].
      destruct (refresh_keeps_list
                  (set_controls true (set_media_qmedia (MVideo v) None s1)))
        as [E1 E2].
      rewrite E1, E2. exact Hs1.
    + destruct (refresh_keeps_list (set_controls true s)) as [E1 E2].
      rewrite E1, E2. split; reflexivity.
Qed.

(** C3, as amended.  [advance_media(step)] first adds [step] to the index.
    On a non-empty file list it then reduces the index modulo the length
    of the list (a result in range, for positive and negative steps alike)
    and the list itself is unchanged.  On an empty file list the reduction
    raises ZeroDivisionError, with the index already moved by [step]. *)
Theorem C3_advance_media_wraps (step : Z) (s : Polo) :
  match files s with
  | [] =>
      advance_media debug w step s
      = (set_index (current_file_index s + step) s,
         Py.Raise Py.ZeroDivisionError)
  | _ :: _ =>
      current_file_index (fst (advance_media debug w step s))
      = (current_file_index s + step) mod Z.of_nat (length (files s))
      /\ 0 <= current_file_index (fst (advance_media debug w step s))
         < Z.of_nat (length (files s))
      /\ files (fst (advance_media debug w step s)) = files s
  end.
Proof.
  unfold advance_media. destruct (files s) as [| f fs] eqn:Ef.
  - simpl. rewrite Ef. reflexivity.
  - cbn [files set_index current_file_index]. rewrite Ef.
    unfold Py.imod.
    destruct (Z.eqb_spec (Z.of_nat (length (f :: fs))) 0) as [E0 | Hne];
      [simpl in E0; lia |].
    destruct (set_media_keeps_list
                (set_index ((current_file_index s + step)
                            mod Z.of_nat (length (f :: fs)))
                           (set_index (current_file_index s + step) s)))
      as [Hf Hi].
    rewrite Hi, Hf. cbn [files set_index current_file_index].
    split; [reflexivity |]. split; [| exact Ef].
    apply Z.mod_pos_bound. simpl. lia.
Qed.

End SessionFacts.

Section SessionExamples.
Import Raster Session.

Example advance_wraps_forward :
  current_file_index
    (fst (@advance_media Samples.reference false Samples.world 1 (set_index 4 Samples.five)))
  = 0.
Proof. vm_compute. reflexivity. Qed.

Example advance_wraps_backward :
  current_file_index
    (fst (@advance_media Samples.reference false Samples.world (-1) (set_index 0 Samples.five)))
  = 4.
Proof. vm_compute. reflexivity. Qed.

(** C3 fails as stated on the empty list: from the initial state,
    [advance_media(1)] raises ZeroDivisionError and leaves the index at 0
    instead of -1. *)
Lemma C3_counterexample :
  files (initial Samples.tiny) = []
  /\ snd (@advance_media Samples.reference false Samples.world 1
            (initial Samples.tiny))
     = Py.Raise Py.ZeroDivisionError
  /\ current_file_index (initial Samples.tiny) = -1
  /\ current_file_index
       (fst (@advance_media Samples.reference false Samples.world 1
               (initial Samples.tiny)))
     = 0.
Proof. repeat split. Qed.

End SessionExamples.

Section LoadFailure.
Import Raster Session.
Context `{Primitives}.
Variable debug : bool.
Variable w : World.

Lemma list_index_lookup (x : string) (l : list string) (i : nat) :
  Py.list_index x l = Some i -> l !! i = Some x.
Proof.
  revert i. induction l as [| y l IH]; simpl; intros i Hi; [discriminate |].
  destruct (String.eqb_spec y x) as [-> | Hne].
  - injection Hi as <-. reflexivity.
  - destruct (Py.list_index x l) as [j |]; [| discriminate].
    injection Hi as <-. simpl. apply IH. reflexivity.
Qed.

Lemma index_of_position {A} (l : list A) (i : nat) (x : A) :
  l !! i = Some x -> Py.index l (Z.of_nat i) = Py.Ok x.
Proof.
  intros Hl. assert (Hlt : (i < length l)%nat) by (eapply lookup_lt_Some; eauto).
  unfold Py.index.
  destruct (Z.ltb_spec (Z.of_nat i) 0); [lia |].
  destruct (Z.leb_spec 0 (Z.of_nat i)); [| lia].
  destruct (Z.ltb_spec (Z.of_nat i) (Z.of_nat (length l))); [| lia].
  simpl. rewrite Nat2Z.id, Hl. reflexivity.
Qed.

(** C4, as amended.  When the chosen file is in the new file list and
    opening it fails, the error leaves [choose_media] as an exception, and
    the session is the prior one except that (1) the file list and the
    current index are already those of the chosen file's directory, and
    (2) if the chosen file is a video and a video was playing, that video
    has been stopped: no media is loaded any more. *)
Theorem C4_failed_open_is_a_partial_transition
    (listing : list string) (chosen : string) (i : nat) (s : Polo) :
  chosen <> "" ->
  Py.list_index chosen (Files.media_files listing) = Some i ->
  open_fails w chosen = true ->
  snd (choose_media debug w listing chosen s) = Py.Raise Py.IOError
  /\ fst (choose_media debug w listing chosen s)
     = (if is_video_path chosen && is_video (media s)
        then stop (set_index (Z.of_nat i) (set_files (Files.media_files listing) s))
        else set_index (Z.of_nat i) (set_files (Files.media_files listing) s))
  /\ files (fst (choose_media debug w listing chosen s)) = Files.media_files listing
  /\ current_file_index (fst (choose_media debug w listing chosen s)) = Z.of_nat i
  /\ media (fst (choose_media debug w listing chosen s))
     = (if is_video_path chosen && is_video (media s) then MNone else media s).
Proof.
  intros Hne Hidx Hfail.
  unfold choose_media.
  destruct (String.eqb_spec chosen "") as [E | _]; [contradiction |].
  cbn [files set_files]. rewrite Hidx.
  set (s1 := set_index (Z.of_nat i) (set_files (Files.media_files listing) s)).
  assert (Hpath : Py.index (files s1) (current_file_index s1) = Py.Ok chosen).
  { unfold s1. cbn [files current_file_index set_index set_files].
    apply index_of_position. apply list_index_lookup. exact Hidx. }
  assert (Hm : media s1 = media s) by reflexivity.
  unfold set_media. rewrite Hpath.
  unfold open_fails, is_video_path in *.
  fold (is_image_path chosen).
  destruct (is_image_path chosen) eqn:Eimg.
  - cbn [negb andb].
    destruct (image_open w chosen); [discriminate |].
    cbn [fst snd]. repeat split; reflexivity.
  - cbn [negb andb] in *.
    destruct (Py.str_in (Py.lower (Files.get_fmt chosen)) Files.video_fmts);
      [| discriminate].
    destruct (get_reader w chosen); [discriminate |].
    cbn [fst snd]. change (media s1) with (media s).
    destruct (is_video (media s)) eqn:Ev; cbn [is_video];
      repeat split; try reflexivity;
      unfold stop; change (media s1) with (media s);
      destruct (media s); try discriminate; reflexivity.
Qed.

End LoadFailure.

Section LoadFailureExamples.
Import Raster Session.

(** Choosing the unreadable [b.png] while [a.png] is shown. *)
Lemma C4_failed_open_witness :
  snd (@choose_media Samples.reference false Samples.world
         ["b.png"; "c.png"] "b.png" Samples.showing)
  = Py.Raise Py.IOError
  /\ fst (@choose_media Samples.reference false Samples.world
            ["b.png"; "c.png"] "b.png" Samples.showing)
     = (if is_video_path "b.png" && is_video (media Samples.showing)
        then stop (set_index (Z.of_nat 0)
                     (set_files (Files.media_files ["b.png"; "c.png"]) Samples.showing))
        else set_index (Z.of_nat 0)
               (set_files (Files.media_files ["b.png"; "c.png"]) Samples.showing))
  /\ files (fst (@choose_media Samples.reference false Samples.world
                   ["b.png"; "c.png"] "b.png" Samples.showing))
     = Files.media_files ["b.png"; "c.png"]
  /\ current_file_index
       (fst (@choose_media Samples.reference false Samples.world
               ["b.png"; "c.png"] "b.png" Samples.showing))
     = Z.of_nat 0
  /\ media (fst (@choose_media Samples.reference false Samples.world
                   ["b.png"; "c.png"] "b.png" Samples.showing))
     = (if is_video_path "b.png" && is_video (media Samples.showing)
        then MNone else media Samples.showing).
Proof.
  apply (@C4_failed_open_is_a_partial_transition Samples.reference false
           Samples.world ["b.png"; "c.png"] "b.png" 0%nat Samples.showing).
  - discriminate.
  - reflexivity.
  - reflexivity.
Defined.

(** C4 fails as stated.  While [a.png] is shown, choosing the unreadable
    [b.png] raises, and the file list is already that of the other
    directory.  While [clip.mp4] plays, choosing the unreadable [bad.mp4]
    raises, and the playing video has been stopped and closed. *)
Lemma C4_counterexample :
  (snd (@choose_media Samples.reference false Samples.world
          ["b.png"; "c.png"] "b.png" Samples.showing)
   = Py.Raise Py.IOError
   /\ files Samples.showing = ["a.png"]
   /\ files (fst (@choose_media Samples.reference false Samples.world
                    ["b.png"; "c.png"] "b.png" Samples.showing))
      = ["b.png"; "c.png"])
  /\ (snd (@choose_media Samples.reference false Samples.world
             ["bad.mp4"] "bad.mp4" Samples.watching)
      = Py.Raise Py.IOError
      /\ media Samples.watching = MVideo Samples.clip
      /\ player_alive Samples.watching = true
      /\ media (fst (@choose_media Samples.reference false Samples.world
                       ["bad.mp4"] "bad.mp4" Samples.watching))
         = MNone
      /\ player_alive (fst (@choose_media Samples.reference false Samples.world
                              ["bad.mp4"] "bad.mp4" Samples.watching))
         = false
      /\ Session.closed (fst (@choose_media Samples.reference false Samples.world
                                ["bad.mp4"] "bad.mp4" Samples.watching))
         = ["clip.mp4"]).
Proof. repeat split. Qed.

End LoadFailureExamples.

Section MixedCase.
Import Raster Session.

(** C7.  The code at a directory holding [c.PNG], [a.Png] and [b.png]:
    the file list keeps [b.png] and [c.PNG] and leaves out [a.Png], whose
    extension is [png] in mixed case, although [set_media] itself would
    classify [a.Png] as an image; choosing [a.Png] in the dialog therefore
    ends in ValueError, with the file list already replaced. *)
Theorem C7_mixed_case_extension_left_out :
  Files.media_files ["c.PNG"; "a.Png"; "b.png"] = ["b.png"; "c.PNG"]
  /\ Files.recognised "a.Png" = true
  /\ is_image_path "a.Png" = true
  /\ ~ In "a.Png" (Files.media_files ["c.PNG"; "a.Png"; "b.png"])
  /\ @choose_media Samples.reference false Samples.world
       ["c.PNG"; "a.Png"; "b.png"] "a.Png" Samples.showing
     = (set_files ["b.png"; "c.PNG"] Samples.showing, Py.Raise Py.ValueError).
Proof.
  split; [reflexivity |]. split; [reflexivity |]. split; [reflexivity |].
  split; [| reflexivity].
  simpl. intros [E | [E | []]]; discriminate.
Qed.

End MixedCase.

(* ===================================================================== *)
(** ** The producer loop *)
(* ===================================================================== *)

Section ProducerFacts.
Import Raster Session Pipeline.
Context `{Primitives}.
Variable cfg : Config.

(** What [frame_tuple] yields on a freshly decoded frame, in terms of
    the composite and of the scaled preview: [hologrify] leaves the decoded
    frame as it was, so the preview is the scaled decoded frame. *)
Lemma frame_tuple_value (i : Z) (decoded : Frame) :
  fst (frame_tuple cfg i 0%nat [decoded])
  = match Heap.hologrify_frame (screen cfg) (debug cfg) decoded with
    | Py.Raise e => Py.Raise e
    | Py.Ok composite =>
        match Py.imod i (fps cfg) with
        | Py.Raise e => Py.Raise e
        | Py.Ok r =>
            if r =? 0 then
              match thumbnail decoded (thumbnail_size cfg) with
              | Py.Ok scaled => Py.Ok (composite, Some scaled)
              | Py.Raise e => Py.Raise e
              end
            else Py.Ok (composite, None)
        end
    end.
Proof.
  unfold frame_tuple, Heap.hologrify_frame, Heap.bind.
  destruct (hologrify_frame_condition (screen cfg) (debug cfg) 0%nat [decoded])
    as [_ [Hlen Hkeep]].
  destruct (Heap.hologrify (screen cfg) (debug cfg) 0%nat [decoded])
    as [[h | e] s1]; cbn [fst snd] in *; [| reflexivity].
  unfold Heap.load at 1. cbn [fst snd].
  destruct (Py.imod i (fps cfg)) as [r | e]; [| reflexivity].
  destruct (r =? 0); [| reflexivity].
  unfold Heap.Image_thumbnail, Heap.bind, Heap.load. cbn [fst snd].
  assert (E0 : s1 !! 0%nat = Some decoded) by (apply Hkeep; simpl; lia).
  rewrite E0. change (default empty_frame (Some decoded)) with decoded.
  destruct (thumbnail decoded (thumbnail_size cfg)) as [scaled | e];
    [| reflexivity].
  unfold Heap.store, Heap.ret. cbn [fst snd].
  rewrite list_lookup_insert_eq by (simpl in Hlen; lia). reflexivity.
Qed.

(** One pass whose decode succeeds: the counter moves on, and the pass
    offers a pair unless the compositor, [i % fps] or the scaling of the
    preview raises. *)
Lemma produce_value (v : Video) (i : Z) (decoded : Frame) :
  vlen v <> 0 ->
  get_data v (i mod vlen v) = Some decoded ->
  produce cfg (MVideo v) i
  = (i + 1,
     match fst (frame_tuple cfg (i + 1) 0%nat [decoded]) with
     | Py.Ok p => Offered p
     | Py.Raise e => Crashed e
     end).
Proof.
  intros Hlen Hget. unfold produce, Py.imod.
  destruct (Z.eqb_spec (vlen v) 0) as [E | _]; [contradiction |].
  rewrite Hget.
  unfold Heap.bind at 1. unfold Heap.alloc. cbn [length app fst snd].
  destruct (fst (frame_tuple cfg (i + 1) 0%nat [decoded])); reflexivity.
Qed.


(** A pass whose decode raises RuntimeError resets the counter and goes
    round again. *)
Lemma produce_decode_error (v : Video) (i : Z) :
  vlen v <> 0 -> get_data v (i mod vlen v) = None ->
  produce cfg (MVideo v) i = (0, Retry).
Proof.
  intros Hlen Hget. unfold produce, Py.imod.
  destruct (Z.eqb_spec (vlen v) 0) as [E | _]; [contradiction |].
  rewrite Hget. reflexivity.
Qed.




End ProducerFacts.

Section Counting.





End Counting.

Section PreviewCadence.
Import Raster Session Pipeline.




(** The clip of the specification: frames 0, 1, 2, 0, 1, 2 in order, the
    preview filled on every third. *)
Example three_frame_clip_trace :
  map (fun o => match o with
                | Offered (_, preview) =>
                    Some (match preview with Some _ => true | None => false end)
                | _ => None
                end)
      (@process_frames Samples.reference Samples.config Samples.clip 6 0)
  = [Some false; Some false; Some true; Some false; Some false; Some true].
Proof. vm_compute. reflexivity. Qed.

(** C9.  When the decode of a pass raises RuntimeError, the pass ends with
    the counter back at 0 and nothing offered; the exception does not leave
    the producer, whose loop goes on from counter 0, and the producer
    thread is back at its loop test, not terminated. *)
Theorem C9_decode_error_resets_and_retries `{Primitives}
    (cfg : Config) (v : Video) (i : Z) (s : Threads.State) :
  vlen v <> 0 ->
  get_data v (i mod vlen v) = None ->
  Threads.media s = MVideo v ->
  Threads.producer_pc s = Threads.Prod_body ->
  Threads.counter s = i ->
  produce cfg (MVideo v) i = (0, Retry)
  /\ (forall n, process_frames cfg v (S n) i = Retry :: process_frames cfg v n 0)
  /\ Threads.step_producer cfg s
     = Some (Threads.with_producer s Threads.Prod_test 0 (Threads.frame_buffer s)).
Proof.
  intros Hlen Hget Hm Hpc Hi.
  pose proof (produce_decode_error cfg v i Hlen Hget) as Hp.
  split; [exact Hp |]. split.
  - intros n. cbn [process_frames]. rewrite Hp. reflexivity.
  - unfold Threads.step_producer. rewrite Hpc, Hm, Hi, Hp. reflexivity.
Qed.

End PreviewCadence.

(* ===================================================================== *)
(** ** [stop()] and the two loops *)
(* ===================================================================== *)

Section StopFacts.
Import Raster Session Pipeline Threads.

Lemma playing_invariant (s : State) : playing s = true -> stop_invariant s.
Proof.
  unfold playing, stop_invariant, player_exited. intros Hp.
  repeat (apply andb_true_iff in Hp; destruct Hp as [Hp ?]).
  destruct (main_pc s); try discriminate.
  split.
  - destruct (Threads.closed s); [discriminate | reflexivity].
  - destruct (player_pc s); try discriminate.
Qed.

Context `{Primitives}.
Variable cfg : Config.

Lemma step_invariant (c : Choice) (s s' : State) :
  step cfg c s = Some s' -> stop_invariant s -> stop_invariant s'.
Proof.
  unfold stop_invariant, player_exited, producer_exited.
  destruct c; cbn [step].
  - unfold step_main. intros Hstep [Hmain Hjoin].
    destruct (main_pc s) eqn:Epc;
      try (injection Hstep as <-; cbn; intuition congruence);
      try discriminate.
    unfold player_exited in Hstep.
    destruct (player_pc s) eqn:Eplayer; try discriminate.
    injection Hstep as <-. cbn. rewrite Eplayer. intuition congruence.
  - unfold step_player. intros Hstep [Hmain Hjoin].
    destruct (player_pc s) eqn:Eplayer; try discriminate.
    + injection Hstep as <-. cbn.
      destruct (main_pc s); destruct (is_video (Threads.media s)); cbn;
        intuition congruence.
    + destruct (frame_buffer s); [discriminate |]. injection Hstep as <-. cbn.
      destruct (main_pc s); cbn; intuition congruence.
    + injection Hstep as <-. cbn.
      destruct (main_pc s); cbn; intuition congruence.
    + unfold producer_exited in Hstep.
      destruct (producer_pc s) eqn:Eprod; try discriminate.
      injection Hstep as <-. cbn. rewrite Eprod.
      destruct (main_pc s); cbn; intuition congruence.
  - unfold step_producer. intros Hstep [Hmain Hjoin].
    destruct (producer_pc s) eqn:Eprod; try discriminate.
    + injection Hstep as <-. cbn.
      destruct (main_pc s); destruct (player_pc s);
        destruct (is_video (Threads.media s)); cbn in *; intuition congruence.
    + destruct (produce cfg (Threads.media s) (counter s)) as [i' o].
      injection Hstep as <-. cbn.
      destruct (main_pc s); destruct (player_pc s); destruct o; cbn in *;
        intuition congruence.
    + destruct (length (frame_buffer s) <? capacity)%nat; [| discriminate].
      injection Hstep as <-. cbn.
      destruct (main_pc s); destruct (player_pc s); cbn in *;
        intuition congruence.
  - unfold step_timeout. intros Hstep [Hmain Hjoin].
    destruct (producer_pc s) eqn:Eprod; try discriminate.
    destruct (length (frame_buffer s) <? capacity)%nat; [discriminate |].
    injection Hstep as <-. cbn.
    destruct (main_pc s); destruct (player_pc s); cbn in *;
      intuition congruence.
Qed.

Lemma run_invariant (sched : list Choice) (s s' : State) :
  run cfg sched s = Some s' -> stop_invariant s -> stop_invariant s'.
Proof.
  revert s. induction sched as [| c rest IH]; intros s Hrun Hinv.
  - injection Hrun as <-. exact Hinv.
  - cbn [run] in Hrun. destruct (step cfg c s) as [s1 |] eqn:Hstep;
      [| discriminate].
    apply (IH s1 Hrun). eapply step_invariant; eauto.
Qed.

(** C1, as amended.  Started while a video is playing, [stop()] returns to
    its caller only when the player loop and the producer loop have both
    exited, and it closes the reader only after it has replaced the shared
    media reference by [None], so that no later loop test sees a video.
    The close itself comes before the join and waits for neither loop. *)
Theorem C1_stop_returns_after_both_loops
    (s0 : State) (sched : list Choice) (s : State) :
  playing s0 = true ->
  run cfg sched s0 = Some s ->
  (main_pc s = Stop_ret -> player_exited s = true /\ producer_exited s = true)
  /\ (Threads.closed s = true -> Threads.media s = MNone)
  /\ (Threads.closed s = true -> main_pc s = Stop_join \/ main_pc s = Stop_ret).
Proof.
  intros Hplay Hrun.
  assert (Hinv : stop_invariant s).
  { eapply run_invariant; [exact Hrun |]. apply playing_invariant. exact Hplay. }
  destruct Hinv as [Hmain Hjoin].
  destruct (main_pc s); repeat split; try discriminate; try tauto;
    try (intros Hc; destruct Hmain; congruence);
    try (intros Hc; congruence).
Qed.

End StopFacts.

Section StopExamples.
Import Raster Session Pipeline Threads.

(** [stop()] running to completion: the three statements, then the
    producer and the player leave their loops, then the join returns. *)
Lemma C1_stop_returns_after_both_loops_witness :
  (main_pc
     {| Threads.media := MNone; video := MVideo Samples.clip;
        Threads.closed := true; main_pc := Stop_ret; player_pc := Play_done;
        producer_pc := Prod_done None; counter := 0; frame_buffer := [];
        shown := [] |} = Stop_ret ->
   player_exited
     {| Threads.media := MNone; video := MVideo Samples.clip;
        Threads.closed := true; main_pc := Stop_ret; player_pc := Play_done;
        producer_pc := Prod_done None; counter := 0; frame_buffer := [];
        shown := [] |} = true
   /\ producer_exited
        {| Threads.media := MNone; video := MVideo Samples.clip;
           Threads.closed := true; main_pc := Stop_ret; player_pc := Play_done;
           producer_pc := Prod_done None; counter := 0; frame_buffer := [];
           shown := [] |} = true)
  /\ (Threads.closed
        {| Threads.media := MNone; video := MVideo Samples.clip;
           Threads.closed := true; main_pc := Stop_ret; player_pc := Play_done;
           producer_pc := Prod_done None; counter := 0; frame_buffer := [];
           shown := [] |} = true ->
      Threads.media
        {| Threads.media := MNone; video := MVideo Samples.clip;
           Threads.closed := true; main_pc := Stop_ret; player_pc := Play_done;
           producer_pc := Prod_done None; counter := 0; frame_buffer := [];
           shown := [] |} = MNone)
  /\ (Threads.closed
        {| Threads.media := MNone; video := MVideo Samples.clip;
           Threads.closed := true; main_pc := Stop_ret; player_pc := Play_done;
           producer_pc := Prod_done None; counter := 0; frame_buffer := [];
           shown := [] |} = true ->
      main_pc
        {| Threads.media := MNone; video := MVideo Samples.clip;
           Threads.closed := true; main_pc := Stop_ret; player_pc := Play_done;
           producer_pc := Prod_done None; counter := 0; frame_buffer := [];
           shown := [] |} = Stop_join
      \/ main_pc
           {| Threads.media := MNone; video := MVideo Samples.clip;
              Threads.closed := true; main_pc := Stop_ret; player_pc := Play_done;
              producer_pc := Prod_done None; counter := 0; frame_buffer := [];
              shown := [] |} = Stop_ret).
Proof.
  apply (@C1_stop_returns_after_both_loops Samples.reference Samples.config
           (rolling Samples.clip 0 Play_test Prod_test)
           [Run_main; Run_main; Run_main; Run_producer; Run_player; Run_player;
            Run_main]).
  - reflexivity.
  - reflexivity.
Defined.

(** C1 fails as stated.  With the player waiting in [get] and the producer
    inside its loop body, the three statements of [stop] run without
    waiting for anyone: the reader is closed while neither loop has exited,
    and the producer has not looked at the reference since.  When it next
    does, inside the body, it dies of AttributeError. *)
Lemma C1_counterexample :
  playing (rolling Samples.clip 0 Play_get Prod_body) = true
  /\ @run Samples.reference Samples.config [Run_main; Run_main; Run_main]
       (rolling Samples.clip 0 Play_get Prod_body)
     = Some {| Threads.media := MNone; video := MVideo Samples.clip;
               Threads.closed := true; main_pc := Stop_join;
               player_pc := Play_get; producer_pc := Prod_body;
               counter := 0; frame_buffer := []; shown := [] |}
  /\ @run Samples.reference Samples.config
       [Run_main; Run_main; Run_main; Run_producer]
       (rolling Samples.clip 0 Play_get Prod_body)
     = Some {| Threads.media := MNone; video := MVideo Samples.clip;
               Threads.closed := true; main_pc := Stop_join;
               player_pc := Play_get;
               producer_pc := Prod_done (Some Py.AttributeError);
               counter := 0; frame_buffer := []; shown := [] |}.
Proof. repeat split. Qed.

(** The join of [stop] need not return: if the producer leaves its loop
    while the player waits on an empty queue, no thread can move again. *)
Remark stop_can_wait_forever :
  @run Samples.reference Samples.config
    [Run_main; Run_main; Run_main; Run_producer]
    (rolling Samples.clip 0 Play_get Prod_test)
  = Some {| Threads.media := MNone; video := MVideo Samples.clip;
            Threads.closed := true; main_pc := Stop_join;
            player_pc := Play_get; producer_pc := Prod_done None;
            counter := 0; frame_buffer := []; shown := [] |}
  /\ forall c,
       @step Samples.reference Samples.config c
         {| Threads.media := MNone; video := MVideo Samples.clip;
            Threads.closed := true; main_pc := Stop_join;
            player_pc := Play_get; producer_pc := Prod_done None;
            counter := 0; frame_buffer := []; shown := [] |}
       = None.
Proof. split; [reflexivity |]. intros []; reflexivity. Qed.

(** The over-long clip: the fourth decode fails at counter 3. *)
Lemma C9_decode_error_resets_and_retries_witness :
  @produce Samples.reference Samples.config (MVideo Samples.long_clip) 3
  = (0, Retry)
  /\ (forall n,
        @process_frames Samples.reference Samples.config Samples.long_clip (S n) 3
        = Retry :: @process_frames Samples.reference Samples.config
                     Samples.long_clip n 0)
  /\ @step_producer Samples.reference Samples.config
       (rolling Samples.long_clip 3 Play_get Prod_body)
     = Some (with_producer (rolling Samples.long_clip 3 Play_get Prod_body)
               Prod_test 0
               (frame_buffer (rolling Samples.long_clip 3 Play_get Prod_body))).
Proof.
  apply (@C9_decode_error_resets_and_retries Samples.reference Samples.config
           Samples.long_clip 3 (rolling Samples.long_clip 3 Play_get Prod_body)).
  - simpl. lia.
  - reflexivity.
  - reflexivity.
  - reflexivity.
  - reflexivity.
Defined.

(** With the length over-reported the playback wraps early and keeps
    going: frames 0, 1, 2, the failed decode, then 0, 1, 2 again. *)
Example long_clip_trace :
  map is_offered
      (@process_frames Samples.reference Samples.config Samples.long_clip 8 0)
  = [true; true; true; false; true; true; true; false].
Proof. vm_compute. reflexivity. Qed.

End StopExamples.

(* ===================================================================== *)
(** * Further properties of the code *)
(* ===================================================================== *)

(** ** Extensions and the file list *)

Section ExtensionFacts.
Import Files.

Lemma str_length_app (a b : string) :
  String.length (a ++ b)%string = (String.length a + String.length b)%nat.
Proof. induction a as [| c a IH]; simpl; [reflexivity | rewrite IH; reflexivity]. Qed.

Lemma rfind_range (c : ascii) (s : string) (i : nat) :
  Py.rfind c s = Some i -> (i < String.length s)%nat.
Proof.
  revert i. induction s as [| a s IH]; simpl; intros i Hi; [discriminate |].
  destruct (Py.rfind c s) as [j |].
  - injection Hi as <-. specialize (IH j eq_refl). lia.
  - destruct (Ascii.eqb a c); [| discriminate]. injection Hi as <-. lia.
Qed.

(** The last occurrence of [c] in [a ++ c :: b] when [b] has none. *)
Lemma rfind_last (c : ascii) (a b : string) :
  Py.rfind c b = None ->
  Py.rfind c (a ++ String c b)%string = Some (String.length a).
Proof.
  intros Hb. induction a as [| x a IH]; simpl.
  - rewrite Hb, Ascii.eqb_refl. reflexivity.
  - rewrite IH. reflexivity.
Qed.

Lemma drop_str_app (a b : string) :
  Py.drop_str (String.length a) (a ++ b)%string = b.
Proof. induction a as [| x a IH]; simpl; [destruct b; reflexivity | exact IH]. Qed.

(** X1.  [get_fmt] on a name [stem.ext] whose [ext] has no dot returns
    [ext], except that it returns the empty string when the stem is empty
    (a name that starts with its only dot, such as [.png]) or when the
    extension is empty (a name that ends with a dot). *)
Theorem get_fmt_of_stem_and_ext (stem ext : string) :
  Py.rfind "." ext = None ->
  get_fmt (stem ++ String "." ext)
  = if String.eqb stem "" || String.eqb ext "" then EmptyString else ext.
Proof.
  intros Hext. unfold get_fmt, Py.suffix.
  rewrite (rfind_last "." stem ext Hext).
  rewrite str_length_app. cbn [String.length].
  destruct stem as [| x stem].
  - reflexivity.
  - destruct ext as [| y ext].
    + cbn [String.eqb orb String.length].
      replace (S (String.length stem) <? S (String.length stem) + 1 - 1)%nat
        with false by (symmetry; apply Nat.ltb_ge; lia).
      rewrite andb_false_r. reflexivity.
    + cbn [String.eqb orb String.length].
      replace (0 <? S (String.length stem))%nat with true
        by (symmetry; apply Nat.ltb_lt; lia).
      replace (S (String.length stem)
               <? S (String.length stem) + S (S (String.length ext)) - 1)%nat
        with true by (symmetry; apply Nat.ltb_lt; lia).
      cbn [andb].
      change (S (String.length stem)) with (String.length (String x stem)).
      rewrite drop_str_app. reflexivity.
Qed.

(** The docstring's example, [bar.svg]. *)
Lemma get_fmt_of_stem_and_ext_witness :
  get_fmt ("bar" ++ String "." "svg")
  = if String.eqb "bar" "" || String.eqb "svg" "" then EmptyString else "svg".
Proof.
  apply (get_fmt_of_stem_and_ext "bar" "svg"). reflexivity.
Defined.

(** A name without any dot has no extension. *)
Lemma get_fmt_without_dot (name : string) :
  Py.rfind "." name = None -> get_fmt name = EmptyString.
Proof. intros Hn. unfold get_fmt, Py.suffix. rewrite Hn. reflexivity. Qed.

Lemma compare_refl (s : string) : String.compare s s = Eq.
Proof.
  pose proof (String.compare_antisym s s) as Ha.
  destruct (String.compare s s); simpl in Ha; congruence.
Qed.

Lemma leb_false_neq (a b : string) : String.leb a b = false -> a <> b.
Proof.
  intros Hl ->. unfold String.leb in Hl. rewrite compare_refl in Hl.
  discriminate.
Qed.

Lemma insert_by_stable (key : string -> string) (k : string) (x : string)
    (l : list string) :
  List.filter (fun y => String.eqb (key y) k) (Py.insert_by key x l)
  = List.filter (fun y => String.eqb (key y) k) (x :: l).
Proof.
  induction l as [| y l IH]; [reflexivity |].
  cbn [Py.insert_by]. destruct (String.leb (key x) (key y)) eqn:E;
    [reflexivity |].
  apply leb_false_neq in E.
  cbn [List.filter] in *. rewrite IH.
  destruct (String.eqb_spec (key x) k) as [Ex | Ex];
    destruct (String.eqb_spec (key y) k) as [Ey | Ey];
    try reflexivity.
  congruence.
Qed.

(** X3.  The sort of the file list is stable: files whose names agree up
    to case (the same lower-cased name [k]) stay in the order in which the
    directory listing gave them. *)
Theorem media_files_sort_is_stable (k : string) (listing : list string) :
  List.filter (fun f => String.eqb (Py.lower f) k) (media_files listing)
  = List.filter (fun f => String.eqb (Py.lower f) k)
      (List.filter accepted (glob_star listing)).
Proof.
  unfold media_files.
  induction (List.filter accepted (glob_star listing)) as [| x l IH];
    [reflexivity |].
  cbn [Py.sort_by]. rewrite insert_by_stable.
  cbn [List.filter]. rewrite IH. reflexivity.
Qed.

Lemma media_files_In (listing : list string) (f : string) :
  In f (media_files listing) <->
  In f listing /\ String.prefix "." f = false /\ accepted f = true.
Proof.
  unfold media_files. split.
  - intros Hf.
    apply (Permutation_in f (Permutation_sym (sort_by_perm Py.lower _))) in Hf.
    apply filter_In in Hf. destruct Hf as [Hg Ha].
    unfold glob_star in Hg. apply filter_In in Hg. destruct Hg as [Hl Hd].
    apply negb_true_iff in Hd. auto.
  - intros (Hl & Hd & Ha).
    apply (Permutation_in f (sort_by_perm Py.lower _)).
    apply filter_In. split; [| exact Ha].
    unfold glob_star. apply filter_In. split; [exact Hl |].
    apply negb_true_iff. exact Hd.
Qed.

(** X4.  Every file of the list is one [set_media] knows how to open: its
    extension is classified as an image or as a video, so the branch of
    [set_media] that opens nothing is never reached from the file list. *)
Theorem listed_files_are_images_or_videos (listing : list string) (f : string) :
  In f (media_files listing) ->
  Session.is_image_path f = true \/ Session.is_video_path f = true.
Proof.
  intros Hf. apply media_files_In in Hf. destruct Hf as (_ & _ & Ha).
  apply accepted_fmts_recognised in Ha.
  unfold Py.str_in in Ha. rewrite existsb_app in Ha.
  unfold Session.is_video_path, Session.is_image_path, Py.str_in.
  destruct (existsb (String.eqb (Py.lower (get_fmt f))) image_fmts);
    [left; reflexivity | right; exact Ha].
Qed.

Lemma listed_files_are_images_or_videos_witness :
  Session.is_image_path "c.PNG" = true \/ Session.is_video_path "c.PNG" = true.
Proof.
  apply (listed_files_are_images_or_videos ["c.PNG"; "a.Png"; "b.png"] "c.PNG").
  simpl. right. left. reflexivity.
Defined.

End ExtensionFacts.

(** ** Loading, navigating and clearing *)

Section SlotFacts.
Import Raster Geometry Session Controls.
Context `{Primitives}.
Variable debug : bool.
Variable w : World.



(** What [set_media] does when the current file is a video that opens. *)
Lemma set_media_video (s : Polo) (path : string) (v : Video) :
  Py.index (files s) (current_file_index s) = Py.Ok path ->
  is_video_path path = true ->
  get_reader w path = Some v ->
  set_media debug w s
  = refresh debug
      (set_controls true
         (set_media_qmedia (MVideo v) None
            (if is_video (media s) then stop s else s))).
Proof.
  intros Hp Hv Ho. unfold set_media. rewrite Hp.
  unfold is_video_path, is_image_path in Hv.
  apply andb_true_iff in Hv. destruct Hv as [Hn Hv].
  apply negb_true_iff in Hn. rewrite Hn, Hv, Ho. reflexivity.
Qed.

(** [refresh] on an image that composes. *)
Lemma refresh_image (s : Polo) (img q : Frame) :
  media s = MImage img ->
  Heap.hologrify_frame (display s) debug img = Py.Ok q ->
  snd (refresh debug s) = Py.Ok tt
  /\ media (fst (refresh debug s)) = MImage img
  /\ display_pixmap (fst (refresh debug s)) = Some q
  /\ preview_pixmap (fst (refresh debug s)) = Some img
  /\ preview_index (fst (refresh debug s)) = 1
  /\ controls_enabled (fst (refresh debug s)) = controls_enabled s
  /\ files (fst (refresh debug s)) = files s
  /\ current_file_index (fst (refresh debug s)) = current_file_index s
  /\ Session.closed (fst (refresh debug s)) = Session.closed s.
Proof.
  intros Em Eq. unfold refresh. rewrite Em, Eq. cbn.
  repeat split; reflexivity || exact Em.
Qed.

(** [refresh] on an image that does not compose assigns nothing. *)
Lemma refresh_image_raises (s : Polo) (img : Frame) (e : Py.exn) :
  media s = MImage img ->
  Heap.hologrify_frame (display s) debug img = Py.Raise e ->
  refresh debug s = (s, Py.Raise e).
Proof. intros Em Eq. unfold refresh. rewrite Em, Eq. reflexivity. Qed.


End SlotFacts.

Section SlotExamples.
Import Raster Geometry Session Controls.


End SlotExamples.

Section NavigationFacts.
Import Raster Geometry Session Controls.
Context `{Primitives}.
Variable debug : bool.
Variable w : World.

Lemma advance_media_index (step : Z) (s : Polo) :
  files s <> [] ->
  current_file_index (fst (advance_media debug w step s))
  = (current_file_index s + step) mod Z.of_nat (length (files s))
  /\ files (fst (advance_media debug w step s)) = files s.
Proof.
  intros Hne. unfold advance_media.
  cbn [files set_index current_file_index]. unfold Py.imod.
  destruct (Z.eqb_spec (Z.of_nat (length (files s))) 0) as [E0 | _].
  { destruct (files s); [contradiction | simpl in E0; lia]. }
  destruct (set_media_keeps_list debug w
              (set_index ((current_file_index s + step)
                          mod Z.of_nat (length (files s)))
                         (set_index (current_file_index s + step) s)))
    as [Hf Hi].
  rewrite Hi, Hf. split; reflexivity.
Qed.

(** X6.  On a non-empty file list, moving by [a] and then by [b] leaves
    the index where one move by [a + b] leaves it, whether or not the files
    on the way could be opened; so moving back by the same step returns to
    an index that was in range. *)
Theorem advance_media_composes (a b : Z) (s : Polo) :
  files s <> [] ->
  current_file_index
    (fst (advance_media debug w b (fst (advance_media debug w a s))))
  = current_file_index (fst (advance_media debug w (a + b) s))
  /\ (0 <= current_file_index s < Z.of_nat (length (files s)) ->
      current_file_index
        (fst (advance_media debug w (- a) (fst (advance_media debug w a s))))
      = current_file_index s).
Proof.
  intros Hne.
  destruct (advance_media_index a s Hne) as [Ia Fa].
  assert (Hne' : files (fst (advance_media debug w a s)) <> [])
    by (rewrite Fa; exact Hne).
  assert (Hn : 0 < Z.of_nat (length (files s))).
  { destruct (files s); [contradiction | simpl; lia]. }
  split.
  - destruct (advance_media_index b _ Hne') as [Ib _].
    destruct (advance_media_index (a + b) s Hne) as [Iab _].
    rewrite Ib, Iab, Ia, Fa.
    rewrite Z.add_mod_idemp_l by lia. f_equal. lia.
  - intros Hr.
    destruct (advance_media_index (- a) _ Hne') as [Ib _].
    rewrite Ib, Ia, Fa. rewrite Z.add_mod_idemp_l by lia.
    replace (current_file_index s + a + - a) with (current_file_index s) by lia.
    apply Z.mod_small. exact Hr.
Qed.

Lemma refresh_media (s : Polo) : media (fst (refresh debug s)) = media s.
Proof.
  unfold refresh.
  destruct (media s) as [| img | v] eqn:Em;
    [| destruct (Heap.hologrify_frame (display s) debug img)
     | destruct (player_alive s)];
    cbn; rewrite ?Em; reflexivity.
Qed.

Lemma refresh_closed (s : Polo) :
  Session.closed (fst (refresh debug s)) = Session.closed s.
Proof.
  unfold refresh. destruct (media s) as [| img | v].
  - reflexivity.
  - destruct (Heap.hologrify_frame (display s) debug img); reflexivity.
  - destruct (player_alive s); reflexivity.
Qed.

Lemma refresh_video (s : Polo) :
  is_video (media s) = true ->
  snd (refresh debug s) = Py.Ok tt
  /\ player_alive (fst (refresh debug s)) = true
  /\ qmedia (fst (refresh debug s)) = qmedia s.
Proof.
  unfold refresh. destruct (media s); cbn; try discriminate. intros _.
  destruct (player_alive s) eqn:Ea; cbn; auto.
Qed.

(** X7.  When the current file is a video that opens, [set_media] leaves
    the new reader as the media with a player running, and it has closed
    the reader that was playing before, if there was one, and no other. *)
Theorem set_media_video_stops_the_previous_one
    (s : Polo) (path : string) (v : Video) :
  Py.index (files s) (current_file_index s) = Py.Ok path ->
  is_video_path path = true ->
  get_reader w path = Some v ->
  snd (set_media debug w s) = Py.Ok tt
  /\ media (fst (set_media debug w s)) = MVideo v
  /\ player_alive (fst (set_media debug w s)) = true
  /\ qmedia (fst (set_media debug w s)) = None
  /\ Session.closed (fst (set_media debug w s))
     = match media s with
       | MVideo old => vpath old :: Session.closed s
       | _ => Session.closed s
       end.
Proof.
  intros Hp Hv Ho. rewrite (set_media_video debug w s path v Hp Hv Ho).
  rewrite refresh_media, refresh_closed.
  match goal with
  | |- context [refresh debug ?t] =>
      destruct (refresh_video t eq_refl) as (Hr & Ha & Hq); rewrite Hr, Ha, Hq
  end.
  cbn [media qmedia Session.closed set_controls set_media_qmedia].
  repeat split; try reflexivity.
  unfold stop. destruct (media s); reflexivity.
Qed.



(** X10.  After [clear_media] no video is the active media; a reader that
    was playing has been closed and its player joined; the display is
    blank, the default preview is shown and the controls are disabled; the
    file list and index are kept.  Clearing twice is clearing once. *)
Theorem clear_media_stops_and_blanks (s : Polo) :
  is_video (media (clear_media s)) = false
  /\ Session.closed (clear_media s)
     = match media s with
       | MVideo v => vpath v :: Session.closed s
       | _ => Session.closed s
       end
  /\ player_alive (clear_media s)
     = (if is_video (media s) then false else player_alive s)
  /\ display_pixmap (clear_media s) = None
  /\ qmedia (clear_media s) = None
  /\ preview_index (clear_media s) = 0
  /\ controls_enabled (clear_media s) = false
  /\ files (clear_media s) = files s
  /\ current_file_index (clear_media s) = current_file_index s
  /\ clear_media (clear_media s) = clear_media s.
Proof.
  unfold clear_media, stop.
  destruct (media s) as [| img | v] eqn:Em; cbn; rewrite ?Em; cbn;
    repeat split; reflexivity.
Qed.

(** X11.  [clear_media] does not unload a still image: the image stays the
    media, and on a display that composes the next [refresh] (any change
    of the size field) puts its composite back on the display and the
    image back in the preview. *)
Theorem clear_media_keeps_a_still_image (s : Polo) (img : Frame) :
  media s = MImage img ->
  composes (display s) = true ->
  exists q,
    Heap.hologrify_frame (display s) debug img = Py.Ok q
    /\ media (clear_media s) = MImage img
    /\ display_pixmap (clear_media s) = None
    /\ snd (refresh debug (clear_media s)) = Py.Ok tt
    /\ display_pixmap (fst (refresh debug (clear_media s))) = Some q
    /\ preview_pixmap (fst (refresh debug (clear_media s))) = Some img
    /\ preview_index (fst (refresh debug (clear_media s))) = 1.
Proof.
  intros Em Hc.
  destruct (hologrify_frame_returns (display s) debug img Hc) as [q Eq].
  exists q. split; [exact Eq |].
  assert (Ec : media (clear_media s) = MImage img).
  { unfold clear_media. rewrite Em. exact Em. }
  assert (Ed : display (clear_media s) = display s).
  { unfold clear_media. rewrite Em. reflexivity. }
  rewrite <- Ed in Eq.
  destruct (refresh_image debug (clear_media s) img q Ec Eq)
    as (Hr & _ & Hd & Hp & Hi & _).
  rewrite Hr, Hd, Hp, Hi. repeat split; try reflexivity. exact Ec.
Qed.

End NavigationFacts.

Section NavigationExamples.
Import Raster Geometry Session Controls.

Lemma advance_media_composes_witness :
  current_file_index
    (fst (@advance_media Samples.reference false Samples.world 3
            (fst (@advance_media Samples.reference false Samples.world 4
                    Samples.five))))
  = current_file_index
      (fst (@advance_media Samples.reference false Samples.world (4 + 3)
              Samples.five))
  /\ (0 <= current_file_index Samples.five
      < Z.of_nat (length (files Samples.five)) ->
      current_file_index
        (fst (@advance_media Samples.reference false Samples.world (- 4)
                (fst (@advance_media Samples.reference false Samples.world 4
                        Samples.five))))
      = current_file_index Samples.five).
Proof.
  apply (@advance_media_composes Samples.reference false Samples.world 4 3
           Samples.five).
  discriminate.
Defined.

(** From [clip.mp4] playing to [next.mp4]. *)
Lemma set_media_video_stops_the_previous_one_witness :
  snd (@set_media Samples.reference false Samples.world
         (set_files ["next.mp4"] Samples.watching)) = Py.Ok tt
  /\ media (fst (@set_media Samples.reference false Samples.world
                   (set_files ["next.mp4"] Samples.watching)))
     = MVideo Samples.clip
  /\ player_alive (fst (@set_media Samples.reference false Samples.world
                          (set_files ["next.mp4"] Samples.watching))) = true
  /\ qmedia (fst (@set_media Samples.reference false Samples.world
                    (set_files ["next.mp4"] Samples.watching))) = None
  /\ Session.closed (fst (@set_media Samples.reference false Samples.world
                            (set_files ["next.mp4"] Samples.watching)))
     = match media (set_files ["next.mp4"] Samples.watching) with
       | MVideo old => vpath old :: Session.closed
                                      (set_files ["next.mp4"] Samples.watching)
       | _ => Session.closed (set_files ["next.mp4"] Samples.watching)
       end.
Proof.
  apply (@set_media_video_stops_the_previous_one Samples.reference false
           Samples.world (set_files ["next.mp4"] Samples.watching)
           "next.mp4" Samples.clip).
  - reflexivity.
  - reflexivity.
  - reflexivity.
Defined.



Lemma clear_media_keeps_a_still_image_witness :
  exists q,
    @Heap.hologrify_frame Samples.reference (display Samples.showing) false
      (Samples.quad 1) = Py.Ok q
    /\ media (clear_media Samples.showing) = MImage (Samples.quad 1)
    /\ display_pixmap (clear_media Samples.showing) = None
    /\ snd (@refresh Samples.reference false (clear_media Samples.showing))
       = Py.Ok tt
    /\ display_pixmap
         (fst (@refresh Samples.reference false (clear_media Samples.showing)))
       = Some q
    /\ preview_pixmap
         (fst (@refresh Samples.reference false (clear_media Samples.showing)))
       = Some (Samples.quad 1)
    /\ preview_index
         (fst (@refresh Samples.reference false (clear_media Samples.showing)))
       = 1.
Proof.
  apply (@clear_media_keeps_a_still_image Samples.reference false
           Samples.showing (Samples.quad 1)).
  - reflexivity.
  - vm_compute. reflexivity.
Defined.

End NavigationExamples.

(** ** What the producer hands to the queue *)

Section PairFacts.
Import Raster Geometry Heap Session Pipeline Controls.
Context `{Primitives}.
Variable cfg : Config.

(** X12.  For a pass whose decode succeeds (with [fps] at least 1), the
    display pixmap of the pair is the composite of the decoded frame at
    its full size, and the preview pixmap, on the passes that have one, is
    the decoded frame scaled into the preview widget: the in-place
    rescaling for the preview comes after the composite and does not
    affect it.  The pass offers no pair, and ends the thread, exactly when
    the compositor or the scaling of the preview raises. *)
Theorem produce_offers_composite_and_thumbnail
    (v : Video) (i : Z) (decoded : Frame) :
  0 < fps cfg -> vlen v <> 0 ->
  get_data v (i mod vlen v) = Some decoded ->
  fst (produce cfg (MVideo v) i) = i + 1
  /\ snd (produce cfg (MVideo v) i)
     = match hologrify_frame (screen cfg) (debug cfg) decoded with
       | Py.Raise e => Crashed e
       | Py.Ok q =>
           if (i + 1) mod fps cfg =? 0 then
             match thumbnail decoded (thumbnail_size cfg) with
             | Py.Ok scaled => Offered (q, Some scaled)
             | Py.Raise e => Crashed e
             end
           else Offered (q, None)
       end.
Proof.
  intros Hfps Hlen Hget.
  rewrite (produce_value cfg v i decoded Hlen Hget). cbn [fst snd].
  split; [reflexivity |]. rewrite frame_tuple_value. unfold Py.imod.
  destruct (Z.eqb_spec (fps cfg) 0) as [E | _]; [lia |].
  destruct (hologrify_frame (screen cfg) (debug cfg) decoded); [| reflexivity].
  destruct ((i + 1) mod fps cfg =? 0); [| reflexivity].
  destruct (thumbnail decoded (thumbnail_size cfg)); reflexivity.
Qed.

(** The pair of a pass whose decode succeeds, where nothing raises. *)
Lemma produce_pair (v : Video) (i : Z) (decoded : Frame) :
  fps cfg <> 0 -> vlen v <> 0 ->
  composes (screen cfg) = true ->
  1 <= fst (thumbnail_size cfg) -> 1 <= snd (thumbnail_size cfg) ->
  get_data v (i mod vlen v) = Some decoded ->
  exists p, produce cfg (MVideo v) i = (i + 1, Offered p)
            /\ Some (fst p) = composite cfg (Some decoded).
Proof.
  intros Hfps Hlen Hc Hx Hy Hget.
  rewrite (produce_value cfg v i decoded Hlen Hget), frame_tuple_value.
  unfold composite.
  destruct (hologrify_frame_returns (screen cfg) (debug cfg) decoded Hc)
    as [q ->].
  unfold Py.imod. destruct (Z.eqb_spec (fps cfg) 0) as [E | _]; [contradiction |].
  destruct ((i + 1) mod fps cfg =? 0).
  - destruct (thumbnail_returns decoded (thumbnail_size cfg) Hx Hy) as [scaled ->].
    eexists. split; reflexivity.
  - eexists. split; reflexivity.
Qed.

(** The passes up to the failing decode, from counter [j]. *)
Lemma wraps_from (v : Video) (real : Z) (n k : nat) :
  0 < fps cfg -> real < vlen v ->
  composes (screen cfg) = true ->
  1 <= fst (thumbnail_size cfg) -> 1 <= snd (thumbnail_size cfg) ->
  (forall m, 0 <= m < real -> get_data v m <> None) ->
  get_data v real = None ->
  forall j, 0 <= j -> j + Z.of_nat k = real ->
    process_frames cfg v (k + 1 + n) j
    = process_frames cfg v k j ++ Retry :: process_frames cfg v n 0
    /\ Forall (fun o => is_offered o = true) (process_frames cfg v k j)
    /\ map displayed (process_frames cfg v k j)
       = map (fun m => composite cfg (get_data v (j + Z.of_nat m))) (seq 0 k).
Proof.
  intros Hfps Hreal Hc Hx Hy Hok Hend. induction k as [| k IH]; intros j Hj Hsum.
  - assert (j = real) by lia. subst j.
    cbn [Nat.add process_frames app map seq].
    rewrite (produce_decode_error cfg v real) by
      (try lia; rewrite Z.mod_small by lia; exact Hend).
    split; [reflexivity |]. split; [constructor | reflexivity].
  - assert (Hjr : 0 <= j < real) by lia.
    assert (Hmod : j mod vlen v = j) by (apply Z.mod_small; lia).
    destruct (get_data v j) as [decoded |] eqn:Hget;
      [| exfalso; apply (Hok j Hjr); exact Hget].
    destruct (produce_pair v j decoded ltac:(lia) ltac:(lia) Hc Hx Hy
                ltac:(rewrite Hmod; exact Hget)) as (p & Hp & Hq).
    destruct (IH (j + 1) ltac:(lia) ltac:(lia)) as (IHrun & IHoff & IHmap).
    split; [| split].
    + change (S k + 1 + n)%nat with (S (k + 1 + n)).
      cbn [process_frames]. rewrite Hp, IHrun. reflexivity.
    + cbn [process_frames]. rewrite Hp. constructor; [reflexivity | exact IHoff].
    + cbn [process_frames]. rewrite Hp. cbn [map seq displayed].
      rewrite IHmap. f_equal.
      * rewrite Z.add_0_r, Hget, <- Hq. destruct p. reflexivity.
      * rewrite <- seq_shift, map_map. apply map_ext. intros m.
        do 2 f_equal. lia.
Qed.

(** X14.  A stream whose length is over-reported: frames [0 .. real - 1]
    decode and frame [real] does not, with [real] below the reported
    length.  On a display that composes, with a preview widget of at least
    one pixel a side, the producer offers from counter 0 the composites of
    frames [0 .. real - 1] in order, then one pass fails and resets the
    counter, and the loop continues exactly as from its start: playback
    wraps at the true end of the stream. *)
Theorem over_reported_length_wraps_at_true_end
    (v : Video) (real : Z) (n : nat) :
  0 < fps cfg -> 0 <= real < vlen v ->
  (forall m, 0 <= m < real -> get_data v m <> None) ->
  get_data v real = None ->
  composes (screen cfg) = true ->
  1 <= fst (thumbnail_size cfg) -> 1 <= snd (thumbnail_size cfg) ->
  process_frames cfg v (Z.to_nat real + 1 + n) 0
  = process_frames cfg v (Z.to_nat real) 0
    ++ Retry :: process_frames cfg v n 0
  /\ Forall (fun o => is_offered o = true)
       (process_frames cfg v (Z.to_nat real) 0)
  /\ map displayed (process_frames cfg v (Z.to_nat real) 0)
     = map (fun m => composite cfg (get_data v (Z.of_nat m)))
           (seq 0 (Z.to_nat real)).
Proof.
  intros Hfps Hreal Hok Hend Hc Hx Hy.
  apply (wraps_from v real n (Z.to_nat real) Hfps ltac:(lia) Hc Hx Hy Hok Hend 0);
    lia.
Qed.

End PairFacts.

Section FrameRateFacts.
Import Raster Geometry Heap Session Pipeline Controls.
Context `{Primitives}.

Lemma int_below_one (q : Q) : (0 <= q)%Q -> (q < 1)%Q -> Py.int q = 0.
Proof.
  intros H0 H1. rewrite int_nonneg_floor by exact H0.
  assert (Hlo : 0 <= Qfloor q) by (apply floor_nonneg; exact H0).
  assert (Hhi : Qfloor q < 1).
  { rewrite Zlt_Qlt. apply Qle_lt_trans with q; [apply Qfloor_le | exact H1]. }
  lia.
Qed.

(** X13.  [play] truncates the stream's frame rate to an integer.  For a
    stream of less than one frame per second that integer is 0, and the
    first pass whose decode succeeds ends the producer: with
    ZeroDivisionError at [i % fps] when the frame was composed, with the
    compositor's own exception otherwise.  No pair is ever offered. *)
Theorem slow_stream_crashes_the_producer
    (v : Video) (preview_size : Z * Z) (d : Display) (dbg : bool)
    (i : Z) (n : nat) (decoded : Frame) :
  (0 <= meta_fps v)%Q -> (meta_fps v < 1)%Q ->
  vlen v <> 0 ->
  get_data v (i mod vlen v) = Some decoded ->
  fps (play_config v preview_size d dbg) = 0
  /\ process_frames (play_config v preview_size d dbg) v (S n) i
     = [Crashed match hologrify_frame d dbg decoded with
                | Py.Ok _ => Py.ZeroDivisionError
                | Py.Raise e => e
                end]
  /\ (composes d = true ->
      process_frames (play_config v preview_size d dbg) v (S n) i
      = [Crashed Py.ZeroDivisionError]).
Proof.
  intros H0 H1 Hlen Hget.
  assert (Hfps : fps (play_config v preview_size d dbg) = 0).
  { cbn [fps play_config]. unfold play_fps. apply int_below_one; assumption. }
  split; [exact Hfps |].
  assert (Hrun : process_frames (play_config v preview_size d dbg) v (S n) i
                 = [Crashed match hologrify_frame d dbg decoded with
                            | Py.Ok _ => Py.ZeroDivisionError
                            | Py.Raise e => e
                            end]).
  { cbn [process_frames].
    rewrite (produce_value _ v i decoded Hlen Hget), frame_tuple_value.
    rewrite Hfps. cbn [screen debug play_config].
    destruct (hologrify_frame d dbg decoded); reflexivity. }
  split; [exact Hrun |].
  intros Hc. rewrite Hrun.
  destruct (hologrify_frame_returns d dbg decoded Hc) as [q ->]. reflexivity.
Qed.

End FrameRateFacts.

Section PairExamples.
Import Raster Geometry Heap Session Pipeline Controls.

Lemma produce_offers_composite_and_thumbnail_witness :
  fst (@produce Samples.reference Samples.config (MVideo Samples.clip) 2) = 2 + 1
  /\ snd (@produce Samples.reference Samples.config (MVideo Samples.clip) 2)
     = match @hologrify_frame Samples.reference (screen Samples.config)
               (debug Samples.config) (Samples.quad 2) with
       | Py.Raise e => Crashed e
       | Py.Ok q =>
           if (2 + 1) mod fps Samples.config =? 0 then
             match @thumbnail Samples.reference (Samples.quad 2)
                     (thumbnail_size Samples.config) with
             | Py.Ok scaled => Offered (q, Some scaled)
             | Py.Raise e => Crashed e
             end
           else Offered (q, None)
       end.
Proof.
  apply (@produce_offers_composite_and_thumbnail Samples.reference
           Samples.config Samples.clip 2 (Samples.quad 2)).
  - reflexivity.
  - discriminate.
  - reflexivity.
Defined.

(** [long_clip] reports four frames and has three. *)
Lemma over_reported_length_wraps_witness :
  @process_frames Samples.reference Samples.config Samples.long_clip
    (Z.to_nat 3 + 1 + 2) 0
  = @process_frames Samples.reference Samples.config Samples.long_clip
      (Z.to_nat 3) 0
    ++ Retry :: @process_frames Samples.reference Samples.config
                  Samples.long_clip 2 0
  /\ Forall (fun o => is_offered o = true)
       (@process_frames Samples.reference Samples.config Samples.long_clip
          (Z.to_nat 3) 0)
  /\ map displayed (@process_frames Samples.reference Samples.config
                      Samples.long_clip (Z.to_nat 3) 0)
     = map (fun m => @composite Samples.reference Samples.config
                       (get_data Samples.long_clip (Z.of_nat m)))
           (seq 0 (Z.to_nat 3)).
Proof.
  apply (@over_reported_length_wraps_at_true_end Samples.reference
           Samples.config Samples.long_clip 3 2).
  - reflexivity.
  - simpl. lia.
  - intros m Hm. simpl.
    destruct (Z.leb_spec 0 m); [| lia]. destruct (Z.ltb_spec m 3); [| lia].
    discriminate.
  - reflexivity.
  - vm_compute. reflexivity.
  - vm_compute. discriminate.
  - vm_compute. discriminate.
Defined.

End PairExamples.

Section FrameRateExamples.
Import Raster Geometry Heap Session Pipeline Controls.

Lemma slow_stream_crashes_the_producer_witness :
  fps (play_config MoreSamples.slow_clip (1, 1) Samples.tiny false) = 0
  /\ @process_frames Samples.reference
       (play_config MoreSamples.slow_clip (1, 1) Samples.tiny false)
       MoreSamples.slow_clip (S 4) 0
     = [Crashed match @hologrify_frame Samples.reference Samples.tiny false
                        (Samples.quad 0) with
                | Py.Ok _ => Py.ZeroDivisionError
                | Py.Raise e => e
                end]
  /\ (@composes Samples.reference Samples.tiny = true ->
      @process_frames Samples.reference
        (play_config MoreSamples.slow_clip (1, 1) Samples.tiny false)
        MoreSamples.slow_clip (S 4) 0
      = [Crashed Py.ZeroDivisionError]).
Proof.
  apply (@slow_stream_crashes_the_producer Samples.reference
           MoreSamples.slow_clip (1, 1) Samples.tiny false 0 4 (Samples.quad 0)).
  - vm_compute. discriminate.
  - reflexivity.
  - discriminate.
  - reflexivity.
Defined.

End FrameRateExamples.
(** ** The composite *)

Section CompositeFacts.
Import Raster Geometry Heap Controls.

Lemma hoare_ret {A} (P : Store -> Prop) (a : A) (Q : A -> Store -> Prop) :
  (forall s, P s -> Q a s) -> hoare P (ret a) Q.
Proof. intros HQ s Hs. apply HQ. exact Hs. Qed.

Lemma hoare_bind {A B} (P : Store -> Prop) (m : M A) (k : A -> M B)
    (Q : A -> Store -> Prop) (R : B -> Store -> Prop) :
  hoare P m Q -> (forall a, hoare (Q a) (k a) R) -> hoare P (bind m k) R.
Proof.
  intros Hm Hk s Hs. unfold bind. specialize (Hm s Hs).
  destruct (m s) as [a s1]. cbn [fst snd] in Hm. apply (Hk a s1 Hm).
Qed.

Lemma new_frame_well_formed (m : string) (w h : Z) (color : Pixel) :
  well_formed (new_frame m w h color).
Proof.
  unfold well_formed, new_frame. cbn [pixels height width]. split.
  - apply repeat_length.
  - apply List.Forall_forall. intros row Hrow. apply repeat_spec in Hrow.
    subst row. apply repeat_length.
Qed.

Lemma paste_keeps_shape `{Primitives} (dst src : Frame) (corner : Z * Z)
    (mask : option Frame) :
  header (paste dst src corner mask) = header dst
  /\ (well_formed dst -> well_formed (paste dst src corner mask)).
Proof.
  split; [reflexivity |].
  unfold well_formed, paste. cbn [pixels height width]. intros [Hrows Hcols].
  split.
  - rewrite length_imap. exact Hrows.
  - apply Forall_lookup. intros Y row Hrow.
    apply list_lookup_imap_Some in Hrow. destruct Hrow as (row0 & E & ->).
    rewrite length_imap.
    rewrite Forall_lookup in Hcols. exact (Hcols Y row0 E).
Qed.

Section Canvas.
Context `{Primitives}.
Variable canvas : ref.
Variable hdr : string * Z * Z.

Lemma holds_alloc (f : Frame) :
  hoare (holds canvas hdr) (alloc f) (fun _ => holds canvas hdr).
Proof.
  intros s (g & Hg & Hh & Hw). unfold alloc. cbn [fst snd].
  exists g. split; [| auto].
  rewrite lookup_app_l; [exact Hg |]. eapply lookup_lt_Some. exact Hg.
Qed.

Lemma holds_load (r : ref) :
  hoare (holds canvas hdr) (load r) (fun _ => holds canvas hdr).
Proof. intros s Hs. exact Hs. Qed.

Lemma holds_alloc_all (fs : list Frame) :
  hoare (holds canvas hdr) (alloc_all fs) (fun _ => holds canvas hdr).
Proof.
  induction fs as [| f fs IH]; cbn [alloc_all].
  - apply hoare_ret. auto.
  - eapply hoare_bind; [apply holds_alloc |]. intros r.
    eapply hoare_bind; [apply IH |]. intros rs. apply hoare_ret. auto.
Qed.

Lemma holds_Image_new (m : string) (size : Z * Z) (color : Pixel) :
  hoare (holds canvas hdr) (Image_new m size color) (fun _ => holds canvas hdr).
Proof. apply holds_alloc. Qed.

Lemma holds_Image_split (r : ref) :
  hoare (holds canvas hdr) (Image_split r) (fun _ => holds canvas hdr).
Proof.
  eapply hoare_bind; [apply holds_load |]. intros f. apply holds_alloc_all.
Qed.

(** Painting on the canvas keeps its mode and size. *)
Lemma holds_store_paste (src : Frame) (corner : Z * Z) (mask : option Frame) :
  hoare (holds canvas hdr)
    (fun s => store canvas
                (paste (default empty_frame (s !! canvas)) src corner mask) s)
    (fun _ => holds canvas hdr).
Proof.
  intros s (g & Hg & Hh & Hw). unfold store. cbn [fst snd].
  rewrite Hg. cbn [default].
  destruct (paste_keeps_shape g src corner mask) as [Hp Hpw].
  exists (paste g src corner mask). split; [| split].
  - apply list_lookup_insert_eq. eapply lookup_lt_Some. exact Hg.
  - rewrite Hp. exact Hh.
  - apply Hpw. exact Hw.
Qed.

Lemma holds_Image_paste (src : ref) (corner : Z * Z) (mask : option ref) :
  hoare (holds canvas hdr) (Image_paste canvas src corner mask)
    (fun _ => holds canvas hdr).
Proof.
  intros s Hs. unfold Image_paste, bind, load. cbn [fst snd].
  destruct mask as [m |]; cbn [fst snd];
    apply (holds_store_paste _ corner _ s Hs).
Qed.

Lemma holds_paste_quadrant (img : ref) (corner : Z * Z) :
  hoare (holds canvas hdr) (paste_quadrant canvas img corner)
    (fun _ => holds canvas hdr).
Proof.
  unfold paste_quadrant.
  eapply hoare_bind; [apply holds_load |]. intros f.
  destruct (String.eqb (mode f) "RGBA").
  - eapply hoare_bind; [apply holds_Image_split |]. intros bands.
    apply holds_Image_paste.
  - apply holds_Image_paste.
Qed.

Lemma holds_debug_overlay (d : Display) (clp : Z) :
  hoare (holds canvas hdr) (debug_overlay d clp canvas)
    (fun _ => holds canvas hdr).
Proof.
  unfold debug_overlay.
  eapply hoare_bind; [apply holds_Image_new |]. intros hologram.
  eapply hoare_bind; [apply holds_Image_new |]. intros context.
  eapply hoare_bind; [apply holds_Image_new |]. intros center.
  eapply hoare_bind; [apply holds_Image_paste |]. intros ?.
  eapply hoare_bind; [apply holds_Image_paste |]. intros ?.
  apply holds_Image_paste.
Qed.

End Canvas.

(** The canvas [compose] returns has the size of the display widget. *)
Lemma compose_canvas `{Primitives} (d : Display) (dbg : bool) (clp : Z)
    (q : ref * ref * ref * ref) :
  hoare (fun _ => True) (compose d dbg clp q)
    (fun r s' => holds r ("RGBA", width_px d, height_px d) s').
Proof.
  unfold compose. destruct q as [[[qt qb] ql] qr].
  eapply hoare_bind with (Q := fun _ _ => True); [intros ? ?; exact I |].
  intros top_f.
  eapply hoare_bind with (Q := fun _ _ => True); [intros ? ?; exact I |].
  intros left_f.
  eapply hoare_bind with (Q := fun _ _ => True); [intros ? ?; exact I |].
  intros right_f.
  eapply hoare_bind
    with (Q := fun r s' => holds r ("RGBA", width_px d, height_px d) s').
  { intros s1 _. unfold Image_new, alloc. cbn [fst snd].
    exists (new_frame "RGBA" (width_px d) (height_px d) [0; 0; 0; 255]).
    split; [| split].
    - rewrite lookup_app_r by lia. rewrite Nat.sub_diag. reflexivity.
    - reflexivity.
    - apply new_frame_well_formed. }
  intros canvas.
  eapply hoare_bind
    with (Q := fun _ => holds canvas ("RGBA", width_px d, height_px d)).
  { destruct dbg; [apply holds_debug_overlay | apply hoare_ret; auto]. }
  intros ?.
  eapply hoare_bind; [apply holds_paste_quadrant |]. intros ?.
  eapply hoare_bind; [apply holds_paste_quadrant |]. intros ?.
  eapply hoare_bind; [apply holds_paste_quadrant |]. intros ?.
  eapply hoare_bind; [apply holds_paste_quadrant |]. intros ?.
  apply hoare_ret. auto.
Qed.

(** Every composite [hologrify] returns is such a canvas. *)
Lemma hologrify_canvas `{Primitives} (d : Display) (dbg : bool)
    (media : ref) (s : Store) (c : ref) :
  fst (hologrify d dbg media s) = Py.Ok c ->
  holds c ("RGBA", width_px d, height_px d) (snd (hologrify d dbg media s)).
Proof.
  unfold hologrify.
  destruct (lengths fsqrt d) as [[mlp clp] | e]; [| discriminate].
  unfold bind. destruct (quadrants mlp media s) as [[q | e] s1]; [| discriminate].
  pose proof (compose_canvas d dbg clp q s1 I) as Hc.
  destruct (compose d dbg clp q s1) as [canvas s2]. cbn [fst snd] in *.
  intros E. injection E as <-. exact Hc.
Qed.

(** X15.  On a display that composes, [hologrify] returns for every source
    frame, and the composite it returns has mode RGBA and exactly the
    pixel size of the display widget; its raster has that many rows and
    columns. *)
Theorem hologrify_returns_a_display_sized_canvas `{Primitives}
    (d : Display) (dbg : bool) (media : ref) (s : Store) (f : Frame) :
  composes d = true ->
  (exists c,
     fst (hologrify d dbg media s) = Py.Ok c
     /\ holds c ("RGBA", width_px d, height_px d)
          (snd (hologrify d dbg media s)))
  /\ (exists q,
        hologrify_frame d dbg f = Py.Ok q
        /\ header q = ("RGBA", width_px d, height_px d)
        /\ well_formed q).
Proof.
  intros Hc. split.
  - destruct (hologrify_returns d dbg media s Hc) as [c Ec].
    exists c. split; [exact Ec | apply hologrify_canvas, Ec].
  - destruct (hologrify_returns d dbg 0%nat [f] Hc) as [c Ec].
    pose proof (hologrify_canvas d dbg 0%nat [f] c Ec) as Hh.
    unfold hologrify_frame.
    destruct (hologrify d dbg 0%nat [f]) as [r s']. cbn [fst snd] in *.
    subst r. destruct Hh as (g & Hg & Hh & Hw).
    exists g. rewrite Hg. auto.
Qed.

(** Where the bounding square has no pixel, [hologrify] returns no canvas
    for a frame that has pixels: [thumbnail] raises after the arithmetic
    went through.  With a zero diagonal the arithmetic itself raises. *)
Example hologrify_raises_without_a_bounding_square :
  @lengths Float.sqrt (Samples.panel 96 100) = Py.Ok (0, 377)
  /\ @hologrify_frame Samples.reference (Samples.panel 96 100) false
       (Samples.quad 1)
     = Py.Raise Py.ValueError
  /\ @hologrify_frame Samples.reference (MoreSamples.by_hand 640 360 8) false
       (Samples.quad 1)
     = Py.Raise Py.ValueError
  /\ @hologrify_frame Samples.reference (MoreSamples.by_hand 1920 1080 0) false
       (Samples.quad 1)
     = Py.Raise Py.ZeroDivisionError.
Proof.
  split; [vm_compute; reflexivity |].
  split; [apply (hologrify_frame_raises _ _ _ 377); vm_compute; reflexivity |].
  split; [apply (hologrify_frame_raises _ _ _ 361); vm_compute; reflexivity |].
  vm_compute. reflexivity.
Qed.

End CompositeFacts.

Section CompositeExamples.
Import Raster Geometry Heap Controls.

Lemma hologrify_returns_a_display_sized_canvas_witness :
  (exists c,
     fst (@hologrify Samples.reference Samples.tiny true 0%nat [Samples.quad 5])
     = Py.Ok c
     /\ holds c ("RGBA", width_px Samples.tiny, height_px Samples.tiny)
          (snd (@hologrify Samples.reference Samples.tiny true 0%nat
                  [Samples.quad 5])))
  /\ (exists q,
        @hologrify_frame Samples.reference Samples.tiny true (Samples.quad 5)
        = Py.Ok q
        /\ header q = ("RGBA", width_px Samples.tiny, height_px Samples.tiny)
        /\ well_formed q).
Proof.
  apply (@hologrify_returns_a_display_sized_canvas Samples.reference
           Samples.tiny true 0%nat [Samples.quad 5] (Samples.quad 5)).
  vm_compute. reflexivity.
Defined.

End CompositeExamples.
(** ** Where the quadrants are placed *)

Section PlacementFacts.
Import Raster Geometry Heap Controls.

Lemma int_half (a : Z) : Py.int (inject_Z a / 2) = Z.quot a 2.
Proof. unfold Py.int. cbn. rewrite Z.mul_1_r. reflexivity. Qed.

Lemma int_half_of_half_minus (a h : Z) :
  Py.int ((inject_Z a / 2 - inject_Z h) / 2) = Z.quot (a - 2 * h) 4.
Proof.
  unfold Py.int. cbn. f_equal. lia.
Qed.

(** X16.  The four quadrants are arranged about one point, the middle of
    the screen's height and 300 pixels right of the middle of a square of
    that height: top and bottom mirror each other about the horizontal
    midline and share their column, left and right mirror each other about
    the vertical axis and share their row, and top (with bottom) and left
    (with right) are centred on those two lines to within one pixel. *)
Theorem placement_is_symmetric (d : Display) (clp top_w top_h left_h right_w : Z) :
  top_y (placement d clp top_w top_h left_h right_w)
    + top_h + bottom_y (placement d clp top_w top_h left_h right_w)
  = height_px d
  /\ bottom_x (placement d clp top_w top_h left_h right_w)
     = top_x (placement d clp top_w top_h left_h right_w)
  /\ left_x (placement d clp top_w top_h left_h right_w)
     + (right_x (placement d clp top_w top_h left_h right_w) + right_w)
     = height_px d + 600
  /\ right_y (placement d clp top_w top_h left_h right_w)
     = left_y (placement d clp top_w top_h left_h right_w)
  /\ -1 <= (height_px d + 600)
            - (2 * top_x (placement d clp top_w top_h left_h right_w) + top_w)
        <= 1
  /\ -1 <= height_px d
            - (2 * left_y (placement d clp top_w top_h left_h right_w) + left_h)
        <= 1.
Proof.
  unfold placement.
  cbn [top_x top_y bottom_x bottom_y left_x left_y right_x right_y].
  rewrite !int_half, int_half_of_half_minus.
  repeat split; try lia; Z.quot_rem_to_equations; lia.
Qed.

(** X17.  When the scaled top image is no taller than half the height the
    centre square leaves free, the top quadrant lies between the top edge
    of the screen and the centre square, and the bottom quadrant between
    the centre square and the bottom edge: neither covers a row of the
    centre square. *)
Theorem top_and_bottom_clear_the_centre
    (d : Display) (clp top_w top_h left_h right_w : Z) :
  0 <= clp -> 0 <= top_h -> 2 * top_h <= height_px d - clp ->
  0 <= top_y (placement d clp top_w top_h left_h right_w)
  /\ top_y (placement d clp top_w top_h left_h right_w) + top_h
     <= center_coord d clp
  /\ center_coord d clp + clp
     <= bottom_y (placement d clp top_w top_h left_h right_w)
  /\ bottom_y (placement d clp top_w top_h left_h right_w) + top_h
     <= height_px d.
Proof.
  intros Hc Hh Hfit. unfold placement, center_coord.
  cbn [top_y bottom_y]. rewrite int_half, int_half_of_half_minus.
  repeat split; Z.quot_rem_to_equations; lia.
Qed.

Lemma top_and_bottom_clear_the_centre_witness :
  0 <= top_y (placement Samples.tiny 2 2 1 2 2)
  /\ top_y (placement Samples.tiny 2 2 1 2 2) + 1 <= center_coord Samples.tiny 2
  /\ center_coord Samples.tiny 2 + 2 <= bottom_y (placement Samples.tiny 2 2 1 2 2)
  /\ bottom_y (placement Samples.tiny 2 2 1 2 2) + 1 <= height_px Samples.tiny.
Proof.
  apply (top_and_bottom_clear_the_centre Samples.tiny 2 2 1 2 2);
    simpl; lia.
Defined.

(** The arithmetic of lines 375 to 384 on the values: each rounding adds
    at most [eps] of the value and [eps], which keeps the products far
    below the top of the range and leaves the sum of the lengths below
    the next integer above the height. *)
Lemma fits_after_roundings (h hf dp sh t mm : Q) :
  (0 < h)%Q -> (h <= inject_Z (2 ^ 31))%Q ->
  (0 <= dp)%Q -> (100 <= sh)%Q -> (0 <= t)%Q -> (0 <= mm)%Q ->
  (hf <= h * (1 + Float.eps) + Float.eps)%Q ->
  (sh * dp <= hf * (1 + Float.eps) + Float.eps * dp)%Q ->
  (t <= (sh - 100) * (1 + Float.eps) + Float.eps)%Q ->
  (mm * 2 <= t * (1 + Float.eps) + Float.eps * 2)%Q ->
  (mm * dp <= inject_Z (2 ^ 40))%Q
  /\ (100 * dp <= inject_Z (2 ^ 40))%Q
  /\ forall pm pc : Q,
       (pm <= mm * dp * (1 + Float.eps) + Float.eps)%Q ->
       (pc <= 100 * dp * (1 + Float.eps) + Float.eps)%Q ->
       (2 * pm + pc < h + 1)%Q.
Proof.
  intros Hh Hhi Hd Hsh Ht Hmm H1 H2 H3 H4.
  assert (Eeps : (Float.eps == 1 # 4503599627370496)%Q) by reflexivity.
  assert (E40 : (inject_Z (2 ^ 40) == 1099511627776)%Q) by reflexivity.
  rewrite E40.
  set (u := Float.eps) in *.
  assert (Hu : (0 < u)%Q) by (rewrite Eeps; reflexivity).
  assert (Hu1 : (u <= 1 # 4503599627370496)%Q) by (rewrite Eeps; apply Qle_refl).
  (* products with [dp] *)
  assert (H3d : (t * dp <= (sh * dp - 100 * dp) * (1 + u) + u * dp)%Q).
  { assert (E : ((sh * dp - 100 * dp) * (1 + u) + u * dp
                 == ((sh - 100) * (1 + u) + u) * dp)%Q) by ring.
    rewrite E. apply Qmult_le_compat_r; assumption. }
  assert (H4d : (mm * dp * 2 <= t * dp * (1 + u) + u * dp * 2)%Q).
  { assert (E1 : (mm * dp * 2 == mm * 2 * dp)%Q) by ring.
    assert (E2 : (t * dp * (1 + u) + u * dp * 2 == (t * (1 + u) + u * 2) * dp)%Q)
      by ring.
    rewrite E1, E2. apply Qmult_le_compat_r; assumption. }
  assert (Hsd : (100 * dp <= sh * dp)%Q)
    by (apply Qmult_le_compat_r; assumption).
  set (a := (mm * dp)%Q) in *. set (b := (t * dp)%Q) in *.
  set (c := (sh * dp)%Q) in *.
  assert (Ha0 : (0 <= a)%Q) by (apply Qmult_le_0_compat; assumption).
  assert (Hb0 : (0 <= b)%Q) by (apply Qmult_le_0_compat; assumption).
  clearbody a b c u.
  assert (Hc0 : (0 <= c)%Q) by lra.
  (* every quantity is below 2^32 *)
  assert (Hhf : (hf <= h + u * h + u)%Q).
  { eapply Qle_trans; [exact H1 |]. apply Qle_lteq. right. ring. }
  assert (Hc : (c <= hf + u * hf + u * dp)%Q).
  { eapply Qle_trans; [exact H2 |]. apply Qle_lteq. right. ring. }
  assert (Hb : (b <= c - 100 * dp + u * (c - 100 * dp) + u * dp)%Q).
  { eapply Qle_trans; [exact H3d |]. apply Qle_lteq. right. ring. }
  assert (Ha : (2 * a <= b + u * b + 2 * (u * dp))%Q).
  { assert (E : (2 * a == a * 2)%Q) by ring. rewrite E.
    eapply Qle_trans; [exact H4d |]. apply Qle_lteq. right. ring. }
  assert (Big : (inject_Z (2 ^ 31) == 2147483648)%Q) by reflexivity.
  rewrite Big in Hhi.
  assert (Small : forall x k : Q,
            (x <= k)%Q -> (0 <= k)%Q -> (u * x <= (1 # 4503599627370496) * k)%Q).
  { intros x k Hx Hk.
    apply Qle_trans with (u * k)%Q;
      [apply Qmult_le_l; assumption | apply Qmult_le_compat_r; assumption]. }
  assert (Uh : (u * h <= (1 # 4503599627370496) * 2147483648)%Q)
    by (apply Small; [exact Hhi | discriminate]).
  assert (Hhf2 : (hf <= 2147483649)%Q) by lra.
  assert (Uhf : (u * hf <= (1 # 4503599627370496) * 2147483649)%Q)
    by (apply Small; [exact Hhf2 | discriminate]).
  (* [dp] is at most a hundredth of the height *)
  assert (Udp0 : (u * dp <= (1 # 4503599627370496) * dp)%Q)
    by (apply Qmult_le_compat_r; assumption).
  assert (Hdp : (dp <= 21474837)%Q) by lra.
  assert (Udp : (u * dp <= (1 # 4503599627370496) * 21474837)%Q)
    by (apply Small; [exact Hdp | discriminate]).
  assert (Hc2 : (c <= 2147483650)%Q) by lra.
  assert (Ucd : (u * (c - 100 * dp) <= (1 # 4503599627370496) * 2147483650)%Q)
    by (apply Small; [lra | discriminate]).
  assert (Hb2 : (b <= 2147483651)%Q) by lra.
  assert (Ub : (u * b <= (1 # 4503599627370496) * 2147483651)%Q)
    by (apply Small; [exact Hb2 | discriminate]).
  assert (Ha2 : (a <= 1073741826)%Q) by lra.
  assert (Ua : (u * a <= (1 # 4503599627370496) * 1073741826)%Q)
    by (apply Small; [exact Ha2 | discriminate]).
  assert (U100 : (u * (100 * dp) <= (1 # 4503599627370496) * 2147483700)%Q)
    by (apply Small; [lra | discriminate]).
  split; [lra |]. split; [lra |].
  intros pm pc H5 H6.
  assert (P5 : (pm <= a + u * a + u)%Q).
  { eapply Qle_trans; [exact H5 |]. apply Qle_lteq. right. ring. }
  assert (Hpc : (pc <= 100 * dp + u * (100 * dp) + u)%Q).
  { eapply Qle_trans; [exact H6 |]. apply Qle_lteq. right. ring. }
  lra.
Qed.

Lemma difference_small (sh t : Q) :
  (100 <= sh <= inject_Z (2 ^ 31))%Q ->
  (t <= (sh - 100) * (1 + Float.eps) + Float.eps)%Q ->
  (t <= inject_Z (2 ^ 40) * 2)%Q.
Proof.
  intros [Hlo Hhi] Ht.
  assert (Eeps : (Float.eps == 1 # 4503599627370496)%Q) by reflexivity.
  assert (E40 : (inject_Z (2 ^ 40) == 1099511627776)%Q) by reflexivity.
  assert (E31 : (inject_Z (2 ^ 31) == 2147483648)%Q) by reflexivity.
  rewrite Eeps in Ht. rewrite E31 in Hhi. rewrite E40. lra.
Qed.

Lemma of_int_hundred :
  exists (m : positive) (e : Z),
    Float.of_int center_length_mm = Py.Ok (S754_finite false m e)
    /\ (Float.value (S754_finite false m e) == 100)%Q.
Proof.
  eexists. eexists. split; [vm_compute; reflexivity | reflexivity].
Qed.

Lemma of_int_two :
  exists (m : positive) (e : Z),
    Float.of_int 2 = Py.Ok (S754_finite false m e)
    /\ (Float.value (S754_finite false m e) == 2)%Q.
Proof.
  eexists. eexists. split; [vm_compute; reflexivity | reflexivity].
Qed.

(** Line 378 of the manual branch: the height in mm is the height in
    pixels over [dpmm]. *)
Lemma sizing_manual_height `{Primitives} (d : Display)
    (dpmm : Float.float) (swmm : Float.num) (shmm : Float.float) :
  sizing fsqrt d = Py.Ok (dpmm, swmm, Float.Flt shmm) ->
  exists hf : Float.float,
    Float.of_int (height_px d) = Py.Ok hf
    /\ Float.truediv hf dpmm = Py.Ok shmm.
Proof.
  unfold sizing. destruct (autosize d).
  - destruct (Float.of_int (physicalDpiX d)); cbn [Py.bind]; discriminate.
  - destruct (Float.of_int (output_screen_size d)) as [inches | e];
      cbn [Py.bind]; [| discriminate].
    destruct (Float.of_int (width_px d ^ 2 + height_px d ^ 2)) as [sq | e];
      cbn [Py.bind]; [| discriminate].
    destruct (Float.truediv _ _) as [dp | e]; cbn [Py.bind]; [| discriminate].
    destruct (Float.of_int (width_px d)) as [w | e];
      cbn [Py.bind]; [| discriminate].
    destruct (Float.truediv w dp) as [sw | e]; cbn [Py.bind]; [| discriminate].
    destruct (Float.of_int (height_px d)) as [hf | e];
      cbn [Py.bind]; [| discriminate].
    destruct (Float.truediv hf dp) as [sh | e] eqn:Esh;
      cbn [Py.bind]; [| discriminate].
    intros E. injection E as -> _ ->.
    exists hf. split; [reflexivity | exact Esh].
Qed.

(** X18.  With a manual diagonal, a display at most 2^31 pixels high and
    a screen between 100 mm and 2^31 mm high, [hologrify] computes both
    lengths without an exception, neither is negative, and two quadrant
    sides and the centre square fit in the height of the display:
    [2 * media_length_px + center_length_px] is at most the height in
    pixels.  The floats are doubles; every operation of lines 375 to 384
    rounds. *)
Theorem manual_sizing_fits_the_height `{Primitives} (d : Display)
    (dpmm : Float.float) (swmm : Float.num) (shmm : Float.float) :
  autosize d = false ->
  0 < height_px d <= 2 ^ 31 ->
  sizing fsqrt d = Py.Ok (dpmm, swmm, Float.Flt shmm) ->
  (100 <= Float.value shmm <= inject_Z (2 ^ 31))%Q ->
  exists mlp clp : Z,
    lengths fsqrt d = Py.Ok (mlp, clp)
    /\ 0 <= mlp /\ 0 <= clp
    /\ 2 * mlp + clp <= height_px d.
Proof.
  intros _ [Hh0 Hh1] Hs [Hlo Hhi].
  destruct (sizing_manual_height d dpmm swmm shmm Hs) as (hf & Ehf & Esh).
  unfold lengths. rewrite Hs. cbn [Py.bind]. clear Hs.
  destruct (of_int_finite (height_px d) hf ltac:(lia) Ehf) as [Ehf' Hhfn].
  destruct (nonneg_not_negative hf Hhfn) as [Hhfneg Hhffin].
  (* the divisor and the quotient are positive finite doubles *)
  unfold Float.truediv in Esh.
  destruct (Float.is_zero dpmm) eqn:Ez; [discriminate |].
  injection Esh as Esh.
  assert (Hshpos : (0 < Float.value shmm)%Q) by lra.
  pose proof Hshpos as Hdivpos. rewrite <- Esh in Hdivpos.
  destruct (div_positive_divisor hf dpmm Hhfn Hdivpos) as (md & ed & ->).
  destruct (positive_value shmm Hshpos) as (ms & es & ->).
  clear Hdivpos Hshpos Ez.
  assert (Hfinsh : Float.is_finite (Float.div hf (S754_finite false md ed)) = true)
    by (rewrite Esh; reflexivity).
  assert (B1 : (Float.value hf
                <= inject_Z (height_px d) * (1 + Float.eps) + Float.eps)%Q).
  { rewrite Ehf'. apply of_Z_upper; [lia | rewrite <- Ehf'; exact Hhffin]. }
  pose proof (div_upper hf md ed Hhfn Hfinsh) as B2. rewrite Esh in B2.
  clear Esh Hfinsh Ehf Ehf'.
  (* the constants *)
  destruct of_int_hundred as (m100 & e100 & E100 & V100).
  destruct of_int_two as (m2 & e2 & E2 & V2).
  unfold media_length_px, center_length_px, media_length_mm.
  rewrite E100, E2. cbn [Py.bind]. unfold Float.truediv. cbn [Float.is_zero].
  cbn [Py.bind].
  set (dp := S754_finite false md ed) in *.
  set (sh := S754_finite false ms es) in *.
  set (c100 := S754_finite false m100 e100) in *.
  set (c2 := S754_finite false m2 e2) in *.
  (* the difference *)
  assert (Tfin : Float.is_finite (Float.sub sh c100) = true).
  { apply sub_small_finite. fold sh. fold c100. rewrite V100.
    rewrite Qabs_pos by lra.
    assert (E40 : (inject_Z (2 ^ 40) == 1099511627776)%Q) by reflexivity.
    assert (E31 : (inject_Z (2 ^ 31) == 2147483648)%Q) by reflexivity.
    rewrite E31 in Hhi. rewrite E40. lra. }
  pose proof (sub_upper ms m100 es e100 Tfin) as B3.
  fold sh in B3. fold c100 in B3. rewrite V100 in B3.
  rewrite (Qabs_pos (Float.value sh - 100)) in B3 by lra.
  set (t := Float.sub sh c100) in *.
  assert (Hat : Float.nonneg (Float.abs t) = true).
  { apply finite_not_negative_nonneg;
      [rewrite abs_finite; exact Tfin | apply abs_not_negative]. }
  (* its half *)
  assert (Mfin : Float.is_finite (Float.div (Float.abs t) c2) = true).
  { apply div_small_finite with (b := inject_Z (2 ^ 40));
      [exact Hat | | apply Qle_refl].
    fold c2. rewrite V2, value_abs.
    apply difference_small with (sh := Float.value sh); [split; assumption | exact B3]. }
  pose proof (div_upper (Float.abs t) m2 e2 Hat Mfin) as B4.
  fold c2 in B4. rewrite V2, value_abs in B4.
  assert (Mneg : Float.negative (Float.div (Float.abs t) c2) = false)
    by (apply div_not_negative, abs_not_negative).
  set (mm := Float.div (Float.abs t) c2) in *.
  assert (Mnn : Float.nonneg mm = true)
    by (apply finite_not_negative_nonneg; assumption).
  (* the two products *)
  assert (Hdp0 : (0 <= Float.value dp)%Q) by (apply value_nonneg; reflexivity).
  assert (Hmm0 : (0 <= Float.value mm)%Q) by (apply value_nonneg; exact Mneg).
  assert (Hh : (0 < inject_Z (height_px d))%Q)
    by (change 0%Q with (inject_Z 0); rewrite <- Zlt_Qlt; lia).
  assert (Hh31 : (inject_Z (height_px d) <= inject_Z (2 ^ 31))%Q)
    by (rewrite <- Zle_Qle; lia).
  destruct (fits_after_roundings _ _ _ _ _ _ Hh Hh31 Hdp0 Hlo
              (Qabs_nonneg (Float.value t)) Hmm0 B1 B2 B3 B4)
    as (A1 & A2 & A3).
  assert (Dnn : Float.nonneg dp = true) by reflexivity.
  assert (Cnn : Float.nonneg c100 = true) by reflexivity.
  assert (PMfin : Float.is_finite (Float.mul mm dp) = true)
    by (apply mul_small_finite; assumption).
  assert (PCfin : Float.is_finite (Float.mul c100 dp) = true)
    by (apply mul_small_finite; [exact Cnn | exact Dnn | rewrite V100; exact A2]).
  pose proof (mul_nonneg_upper mm dp Mnn Dnn PMfin) as B5.
  pose proof (mul_nonneg_upper c100 dp Cnn Dnn PCfin) as B6.
  rewrite V100 in B6.
  specialize (A3 _ _ B5 B6).
  assert (PMneg : Float.negative (Float.mul mm dp) = false)
    by (apply mul_not_negative; [exact Mneg | reflexivity]).
  assert (PCneg : Float.negative (Float.mul c100 dp) = false)
    by (apply mul_not_negative; reflexivity).
  rewrite (to_int_floor _ PMfin PMneg). cbn [Py.bind].
  rewrite (to_int_floor _ PCfin PCneg). cbn [Py.bind].
  set (pm := Float.value (Float.mul mm dp)) in *.
  set (pc := Float.value (Float.mul c100 dp)) in *.
  assert (Hpm0 : (0 <= pm)%Q) by (apply value_nonneg; exact PMneg).
  assert (Hpc0 : (0 <= pc)%Q) by (apply value_nonneg; exact PCneg).
  exists (Qfloor pm), (Qfloor pc).
  split; [reflexivity |].
  split; [change 0 with (Qfloor 0); apply Qfloor_resp_le; exact Hpm0 |].
  split; [change 0 with (Qfloor 0); apply Qfloor_resp_le; exact Hpc0 |].
  pose proof (Qfloor_le pm) as Fm. pose proof (Qfloor_le pc) as Fc.
  assert (Hlt : (inject_Z (2 * Qfloor pm + Qfloor pc)
                 < inject_Z (height_px d + 1))%Q).
  { rewrite !inject_Z_plus, inject_Z_mult.
    change (inject_Z 2) with 2%Q. change (inject_Z 1) with 1%Q.
    set (fm := inject_Z (Qfloor pm)) in *. set (fc := inject_Z (Qfloor pc)) in *.
    set (hq := inject_Z (height_px d)) in *.
    clearbody fm fc hq pm pc. lra. }
  rewrite <- Zlt_Qlt in Hlt. lia.
Qed.

End PlacementFacts.

Section PlacementExamples.
Import Raster Geometry Heap Controls.

Lemma manual_sizing_fits_the_height_witness :
  exists mlp clp : Z,
    lengths (@fsqrt Samples.reference) MoreSamples.manual_panel
    = Py.Ok (mlp, clp)
    /\ 0 <= mlp /\ 0 <= clp
    /\ 2 * mlp + clp <= height_px MoreSamples.manual_panel.
Proof.
  eapply (@manual_sizing_fits_the_height Samples.reference
            MoreSamples.manual_panel).
  - reflexivity.
  - vm_compute. split; [reflexivity | discriminate].
  - vm_compute. reflexivity.
  - vm_compute. split; discriminate.
Defined.

End PlacementExamples.

(** ** The sizes of the quadrants *)

Section QuadrantSizes.
Import Raster Geometry Heap Controls.

(** [thumbnail] into a box of at least one pixel each way: the result fits
    the box, is no larger than the image, and has at least one pixel each
    way. *)
Lemma thumbnail_size_bounds (w h : Z) (size : Z * Z) :
  1 <= w -> 1 <= h -> 1 <= fst size -> 1 <= snd size ->
  1 <= fst (thumbnail_size w h size) <= Z.min (fst size) w
  /\ 1 <= snd (thumbnail_size w h size) <= Z.min (snd size) h.
Proof.
  intros Hw Hh Hx Hy. unfold thumbnail_size.
  destruct (Z.gtb_spec w (fst size)) as [G1 | G1].
  - assert (Hq : 0 <= h * fst size / w <= h).
    { split; [apply Z.div_pos; nia |].
      apply Z.div_le_upper_bound; [lia | nia]. }
    destruct (Z.gtb_spec (Z.max (h * fst size / w) 1) (snd size)) as [G2 | G2];
      cbn [fst snd].
    + assert (Hq2 : 0 <= fst size * snd size / Z.max (h * fst size / w) 1
                    <= fst size).
      { split; [apply Z.div_pos; nia |].
        apply Z.div_le_upper_bound; [lia | nia]. }
      lia.
    + lia.
  - destruct (Z.gtb_spec h (snd size)) as [G2 | G2]; cbn [fst snd].
    + assert (Hq2 : 0 <= w * snd size / h <= w).
      { split; [apply Z.div_pos; nia |].
        apply Z.div_le_upper_bound; [lia | nia]. }
      lia.
    + lia.
Qed.

Lemma thumbnail_dimensions `{Primitives} (f f' : Frame) (size : Z * Z) :
  thumbnail f size = Py.Ok f' ->
  width f' = fst (thumbnail_size (width f) (height f) size)
  /\ height f' = snd (thumbnail_size (width f) (height f) size).
Proof.
  unfold thumbnail.
  destruct (thumbnail_size (width f) (height f) size) as [x y]. cbn [fst snd].
  destruct (Z.eqb_spec x (width f)) as [Ex | Ex];
    destruct (Z.eqb_spec y (height f)) as [Ey | Ey]; cbn [andb];
    try (destruct ((x <? 1) || (y <? 1)); [discriminate |]);
    intros E; injection E as <-; cbn [width height]; auto.
Qed.

Ltac fold_contents :=
  repeat match goal with
  | |- context [default empty_frame (?x !! ?r)] =>
      change (default empty_frame (x !! r)) with (content x r)
  end.

(** The contents of the four objects [quadrants] returns. *)
Lemma quadrants_contents `{Primitives} (mlp : Z) (media : ref) (s : Store) :
  match quadrants mlp media s with
  | (Py.Ok (top, bottom, lft, rgt), s') =>
      exists T,
        thumbnail (content s media) (mlp, mlp) = Py.Ok T
        /\ content s' top = T
        /\ content s' bottom = flip T
        /\ content s' lft = flip (rotate90 T)
        /\ content s' rgt = mirror (flip (rotate90 T))
  | (Py.Raise e, _) => thumbnail (content s media) (mlp, mlp) = Py.Raise e
  end.
Proof.
  unfold quadrants, Image_copy, Image_thumbnail, bind, load, alloc, ret.
  cbn [fst snd]. fold_contents.
  set (f0 := content s media).
  rewrite (content_app_last s f0).
  destruct (thumbnail f0 (mlp, mlp)) as [T | e] eqn:ET; [| reflexivity].
  unfold store, ImageOps_flip, ImageOps_mirror, Image_rotate90, bind, load,
    alloc, ret.
  cbn [fst snd]. fold_contents.
  set (s2 := <[length s := T]> (s ++ [f0])).
  assert (L2 : length s2 = S (length s)).
  { unfold s2. rewrite length_insert, length_app. simpl. lia. }
  assert (E2 : content s2 (length s) = T).
  { unfold s2. apply content_insert_eq. rewrite length_app. simpl. lia. }
  rewrite E2.
  set (s3 := s2 ++ [flip T]).
  assert (L3 : length s3 = S (S (length s))).
  { unfold s3. rewrite length_app, L2. simpl. lia. }
  assert (E3 : content s3 (length s) = T).
  { unfold s3. rewrite content_app_lt by lia. exact E2. }
  assert (B3 : content s3 (length s2) = flip T) by apply content_app_last.
  rewrite E3.
  set (s4 := s3 ++ [rotate90 T]).
  assert (L4 : length s4 = S (S (S (length s)))).
  { unfold s4. rewrite length_app, L3. simpl. lia. }
  assert (R4 : content s4 (length s3) = rotate90 T) by apply content_app_last.
  rewrite R4.
  set (s5 := s4 ++ [flip (rotate90 T)]).
  assert (L5 : length s5 = S (S (S (S (length s))))).
  { unfold s5. rewrite length_app, L4. simpl. lia. }
  assert (F5 : content s5 (length s4) = flip (rotate90 T))
    by apply content_app_last.
  rewrite F5.
  set (s6 := s5 ++ [mirror (flip (rotate90 T))]).
  assert (ET6 : content s6 (length s) = T).
  { unfold s6. rewrite content_app_lt by lia.
    unfold s5. rewrite content_app_lt by lia.
    unfold s4. rewrite content_app_lt by lia. exact E3. }
  assert (EB : content s6 (length s2) = flip T).
  { unfold s6. rewrite content_app_lt by lia.
    unfold s5. rewrite content_app_lt by lia.
    unfold s4. rewrite content_app_lt by lia. exact B3. }
  assert (EL : content s6 (length s4) = flip (rotate90 T)).
  { unfold s6. rewrite content_app_lt by lia. exact F5. }
  assert (ER : content s6 (length s5) = mirror (flip (rotate90 T)))
    by apply content_app_last.
  exists T. rewrite ET6, EB, EL, ER. repeat split.
Qed.

(** X19.  For a source of at least one pixel each way and a bounding
    square of at least one pixel, the four quadrants are built; the top
    quadrant fits the bounding square, is never larger than the source,
    and is not empty; the bottom quadrant has the same size, and the left
    and right quadrants have that size with width and height exchanged. *)
Theorem quadrants_fit_the_bounding_square `{Primitives}
    (mlp : Z) (media : ref) (s : Store) :
  1 <= mlp ->
  1 <= width (content s media) ->
  1 <= height (content s media) ->
  match quadrants mlp media s with
  | (Py.Ok (top, bottom, lft, rgt), s') =>
      1 <= width (content s' top) <= Z.min mlp (width (content s media))
      /\ 1 <= height (content s' top) <= Z.min mlp (height (content s media))
      /\ width (content s' bottom) = width (content s' top)
      /\ height (content s' bottom) = height (content s' top)
      /\ width (content s' lft) = height (content s' top)
      /\ height (content s' lft) = width (content s' top)
      /\ width (content s' rgt) = height (content s' top)
      /\ height (content s' rgt) = width (content s' top)
  | (Py.Raise _, _) => False
  end.
Proof.
  intros Hm Hw Hh.
  pose proof (quadrants_contents mlp media s) as Hq.
  destruct (thumbnail_returns (content s media) (mlp, mlp) Hm Hm) as [T' ET'].
  destruct (quadrants mlp media s) as [[[[[top bottom] lft] rgt] | e] s'];
    [| congruence].
  destruct Hq as (T & ET & Et & EB & EL & ER). rewrite Et, EB, EL, ER.
  destruct (thumbnail_dimensions (content s media) T (mlp, mlp) ET) as [Dw Dh].
  destruct (thumbnail_size_bounds (width (content s media))
              (height (content s media)) (mlp, mlp) Hw Hh Hm Hm) as [Bw Bh].
  cbn [fst snd] in Bw, Bh.
  cbn [flip mirror rotate90 width height]. rewrite Dw, Dh.
  repeat split; try reflexivity; lia.
Qed.

End QuadrantSizes.

Section QuadrantSizeExamples.
Import Raster Geometry Heap Controls.

Lemma quadrants_fit_the_bounding_square_witness :
  match @quadrants Samples.reference 1 0%nat [Samples.quad 3] with
  | (Py.Ok (top, bottom, lft, rgt), s') =>
      1 <= width (content s' top)
        <= Z.min 1 (width (content [Samples.quad 3] 0%nat))
      /\ 1 <= height (content s' top)
           <= Z.min 1 (height (content [Samples.quad 3] 0%nat))
      /\ width (content s' bottom) = width (content s' top)
      /\ height (content s' bottom) = height (content s' top)
      /\ width (content s' lft) = height (content s' top)
      /\ height (content s' lft) = width (content s' top)
      /\ width (content s' rgt) = height (content s' top)
      /\ height (content s' rgt) = width (content s' top)
  | (Py.Raise _, _) => False
  end.
Proof.
  apply (@quadrants_fit_the_bounding_square Samples.reference 1 0%nat
           [Samples.quad 3]); simpl; lia.
Defined.

End QuadrantSizeExamples.
(** ** The queue and the end of [stop] *)

Section QueueFacts.
Import Raster Session Pipeline Threads Controls.
Context `{Primitives}.
Variable cfg : Config.

(** One step either leaves queue and display history alone, appends one
    pair at the tail of the queue, or moves the pair at the head of the
    queue to the display. *)
Lemma step_queue (c : Choice) (s s' : State) :
  step cfg c s = Some s' ->
  (length (frame_buffer s) <= capacity)%nat ->
  (length (frame_buffer s') <= capacity)%nat
  /\ exists new,
       (length new <= 1)%nat
       /\ rev (shown s') ++ frame_buffer s'
          = (rev (shown s) ++ frame_buffer s) ++ new.
Proof.
  intros Hstep Hcap. destruct c; cbn [step] in Hstep.
  - unfold step_main in Hstep.
    destruct (main_pc s); try discriminate;
      try (injection Hstep as <-; cbn; split; [exact Hcap |];
           exists []; rewrite app_nil_r; auto).
    destruct (player_exited s); [| discriminate].
    injection Hstep as <-. cbn. split; [exact Hcap |].
    exists []. rewrite app_nil_r. auto.
  - unfold step_player in Hstep.
    destruct (player_pc s); try discriminate.
    + injection Hstep as <-. cbn. split; [exact Hcap |].
      exists []. rewrite app_nil_r. auto.
    + destruct (frame_buffer s) as [| p q] eqn:Eq; [discriminate |].
      injection Hstep as <-. cbn. split; [simpl in Hcap; lia |].
      exists []. rewrite app_nil_r, <- app_assoc. auto.
    + injection Hstep as <-. cbn. split; [exact Hcap |].
      exists []. rewrite app_nil_r. auto.
    + destruct (producer_exited s); [| discriminate].
      injection Hstep as <-. cbn. split; [exact Hcap |].
      exists []. rewrite app_nil_r. auto.
  - unfold step_producer in Hstep.
    destruct (producer_pc s); try discriminate.
    + injection Hstep as <-. cbn. split; [exact Hcap |].
      exists []. rewrite app_nil_r. auto.
    + destruct (produce cfg (media s) (counter s)) as [i' o].
      injection Hstep as <-. cbn. split; [exact Hcap |].
      exists []. rewrite app_nil_r. auto.
    + destruct (Nat.ltb_spec (length (frame_buffer s)) capacity) as [Hlt | Hge];
        [| discriminate].
      injection Hstep as <-. cbn. split.
      * rewrite length_app. simpl. lia.
      * exists [p]. rewrite app_assoc. auto.
  - unfold step_timeout in Hstep.
    destruct (producer_pc s); try discriminate.
    destruct (length (frame_buffer s) <? capacity)%nat; [discriminate |].
    injection Hstep as <-. cbn. split; [exact Hcap |].
    exists []. rewrite app_nil_r. auto.
Qed.

(** X20.  Along every interleaving the queue never holds more than ten
    pairs, and the pairs displayed so far followed by the pairs still
    queued are the earlier ones followed by the newly queued ones, in
    order: pairs reach the display in the order in which they were put,
    none is displayed twice and none that was queued is skipped. *)
Theorem queue_is_bounded_and_first_in_first_out
    (sched : list Choice) (s0 s : State) :
  (length (frame_buffer s0) <= capacity)%nat ->
  run cfg sched s0 = Some s ->
  (length (frame_buffer s) <= capacity)%nat
  /\ exists new,
       (length new <= length sched)%nat
       /\ rev (shown s) ++ frame_buffer s
          = (rev (shown s0) ++ frame_buffer s0) ++ new.
Proof.
  revert s0. induction sched as [| c rest IH]; intros s0 Hcap Hrun.
  - injection Hrun as <-. split; [exact Hcap |].
    exists []. rewrite app_nil_r. auto.
  - cbn [run] in Hrun.
    destruct (step cfg c s0) as [s1 |] eqn:Hstep; [| discriminate].
    destruct (step_queue c s0 s1 Hstep Hcap) as [Hcap1 (n1 & Hn1 & E1)].
    destruct (IH s1 Hcap1 Hrun) as [Hcap2 (n2 & Hn2 & E2)].
    split; [exact Hcap2 |].
    exists (n1 ++ n2). split.
    + rewrite length_app. simpl. lia.
    + rewrite E2, E1, <- app_assoc. reflexivity.
Qed.

(** The main thread alone writes the shared reference, the local [video]
    and the closed flag. *)
Lemma step_main_fields (c : Choice) (s s' : State) :
  step cfg c s = Some s' -> c <> Run_main ->
  media s' = media s /\ video s' = video s /\ closed s' = closed s
  /\ main_pc s' = main_pc s.
Proof.
  intros Hstep Hc. destruct c; [contradiction | | |]; cbn [step] in Hstep.
  - unfold step_player in Hstep.
    destruct (player_pc s); try discriminate;
      try (injection Hstep as <-; cbn; auto).
    + destruct (frame_buffer s); [discriminate |].
      injection Hstep as <-. cbn. auto.
    + destruct (producer_exited s); [| discriminate].
      injection Hstep as <-. cbn. auto.
  - unfold step_producer in Hstep.
    destruct (producer_pc s); try discriminate;
      try (injection Hstep as <-; cbn; auto).
    + destruct (produce cfg (media s) (counter s)) as [i' o].
      injection Hstep as <-. cbn. auto.
    + destruct (length (frame_buffer s) <? capacity)%nat; [| discriminate].
      injection Hstep as <-. cbn. auto.
  - unfold step_timeout in Hstep.
    destruct (producer_pc s); try discriminate.
    destruct (length (frame_buffer s) <? capacity)%nat; [discriminate |].
    injection Hstep as <-. cbn. auto.
Qed.

Lemma Choice_eq_main (c : Choice) : c = Run_main \/ c <> Run_main.
Proof. destruct c; [left; reflexivity | right | right | right]; discriminate. Qed.

Lemma stop_progress_step (v : Video) (c : Choice) (s s' : State) :
  step cfg c s = Some s' ->
  stop_progress v s -> stop_progress v s'.
Proof.
  intros Hstep Hp. destruct (Choice_eq_main c) as [-> | Hc].
  - cbn [step] in Hstep. unfold step_main in Hstep.
    unfold stop_progress in *.
    destruct (main_pc s) eqn:Epc; try discriminate.
    + injection Hstep as <-. cbn. destruct Hp as (Hm & Hcl). rewrite Hm. auto.
    + injection Hstep as <-. cbn. tauto.
    + injection Hstep as <-. cbn. tauto.
    + destruct (player_exited s); [| discriminate].
      injection Hstep as <-. cbn. tauto.
  - destruct (step_main_fields c s s' Hstep Hc) as (Em & Ev & Ec & Epc).
    unfold stop_progress in *. rewrite Em, Ev, Ec, Epc. exact Hp.
Qed.

(** X21.  When [stop()], started on a playing reader [v], has returned,
    the shared reference is [None], the reader that has been closed is
    [v], and both loops have exited: the state the callers of [stop] in
    [set_media] and [clear_media] rely on. *)
Theorem stop_returns_with_the_reader_closed
    (v : Video) (s0 : State) (sched : list Choice) (s : State) :
  playing s0 = true ->
  media s0 = MVideo v ->
  run cfg sched s0 = Some s ->
  main_pc s = Stop_ret ->
  media s = MNone /\ video s = MVideo v /\ closed s = true
  /\ player_exited s = true /\ producer_exited s = true.
Proof.
  intros Hplay Hv Hrun Hret.
  assert (Hinv : stop_invariant s).
  { eapply run_invariant; [exact Hrun |]. apply playing_invariant. exact Hplay. }
  assert (Hprog : stop_progress v s).
  { assert (H0 : stop_progress v s0).
    { unfold stop_progress. unfold playing in Hplay.
      repeat (apply andb_true_iff in Hplay; destruct Hplay as [Hplay ?]).
      destruct (main_pc s0); try discriminate.
      split; [exact Hv |]. destruct (closed s0); [discriminate | reflexivity]. }
    clear Hplay Hv Hinv Hret. revert s0 Hrun H0.
    induction sched as [| c rest IH]; intros s0 Hrun H0.
    - injection Hrun as <-. exact H0.
    - cbn [run] in Hrun.
      destruct (step cfg c s0) as [s1 |] eqn:Hstep; [| discriminate].
      apply (IH s1 Hrun). eapply stop_progress_step; eauto. }
  unfold stop_invariant in Hinv. unfold stop_progress in Hprog.
  rewrite Hret in Hinv, Hprog.
  destruct Hinv as [[Hm Hpe] Hjoin]. destruct Hprog as (Hvid & Hcl & _).
  repeat split; auto.
Qed.

(** X24.  [stop()] need not return.  Whenever it is called while the
    player waits in [frame_buffer.get()] on an empty queue and the producer
    stands at its loop test, there is an interleaving (the three
    statements of [stop], then the producer's loop test) after which the
    producer has left its loop, the player still waits for a pair that
    will never come, and the join of [stop] waits for the player: no
    thread can move again. *)
Theorem stop_can_block_forever (s0 : State) :
  playing s0 = true ->
  player_pc s0 = Play_get ->
  producer_pc s0 = Prod_test ->
  frame_buffer s0 = [] ->
  exists s,
    run cfg [Run_main; Run_main; Run_main; Run_producer] s0 = Some s
    /\ main_pc s = Stop_join
    /\ player_pc s = Play_get
    /\ producer_exited s = true
    /\ forall c, step cfg c s = None.
Proof.
  intros Hplay Hpl Hpr Hq.
  unfold playing in Hplay.
  repeat (apply andb_true_iff in Hplay; destruct Hplay as [Hplay ?]).
  destruct s0 as [m vd cl mpc ppc prpc i q sh]. cbn in *.
  subst ppc prpc q. destruct mpc; try discriminate.
  eexists. split; [cbn; reflexivity |].
  cbn. repeat split. intros []; reflexivity.
Qed.

End QueueFacts.

Section QueueExamples.
Import Raster Session Pipeline Threads Controls.

(** Two frames produced, one of them displayed. *)
Lemma queue_is_bounded_and_first_in_first_out_witness :
  let sched := [Run_producer; Run_producer; Run_producer; Run_player;
                Run_producer; Run_producer; Run_producer] in
  let s0 := rolling Samples.clip 0 Play_get Prod_test in
  exists s,
    @run Samples.reference Samples.config sched s0 = Some s
    /\ length (shown s) = 1%nat
    /\ length (frame_buffer s) = 1%nat
    /\ (length (frame_buffer s) <= capacity)%nat
    /\ exists new,
         (length new <= length sched)%nat
         /\ rev (shown s) ++ frame_buffer s
            = (rev (shown s0) ++ frame_buffer s0) ++ new.
Proof.
  intros sched s0.
  destruct (@run Samples.reference Samples.config sched s0) as [s |] eqn:Hrun;
    [| vm_compute in Hrun; discriminate].
  exists s. split; [reflexivity |].
  split; [vm_compute in Hrun; injection Hrun as <-; reflexivity |].
  split; [vm_compute in Hrun; injection Hrun as <-; reflexivity |].
  apply (@queue_is_bounded_and_first_in_first_out Samples.reference
           Samples.config sched s0 s).
  - simpl. lia.
  - exact Hrun.
Defined.

Lemma stop_returns_with_the_reader_closed_witness :
  media {| media := MNone; video := MVideo Samples.clip; closed := true;
           main_pc := Stop_ret; player_pc := Play_done;
           producer_pc := Prod_done None; counter := 0; frame_buffer := [];
           shown := [] |} = MNone
  /\ video {| media := MNone; video := MVideo Samples.clip; closed := true;
              main_pc := Stop_ret; player_pc := Play_done;
              producer_pc := Prod_done None; counter := 0; frame_buffer := [];
              shown := [] |} = MVideo Samples.clip
  /\ closed {| media := MNone; video := MVideo Samples.clip; closed := true;
               main_pc := Stop_ret; player_pc := Play_done;
               producer_pc := Prod_done None; counter := 0;
               frame_buffer := []; shown := [] |} = true
  /\ player_exited
       {| media := MNone; video := MVideo Samples.clip; closed := true;
          main_pc := Stop_ret; player_pc := Play_done;
          producer_pc := Prod_done None; counter := 0; frame_buffer := [];
          shown := [] |} = true
  /\ producer_exited
       {| media := MNone; video := MVideo Samples.clip; closed := true;
          main_pc := Stop_ret; player_pc := Play_done;
          producer_pc := Prod_done None; counter := 0; frame_buffer := [];
          shown := [] |} = true.
Proof.
  apply (@stop_returns_with_the_reader_closed Samples.reference Samples.config
           Samples.clip (rolling Samples.clip 0 Play_test Prod_test)
           [Run_main; Run_main; Run_main; Run_producer; Run_player; Run_player;
            Run_main]).
  - reflexivity.
  - reflexivity.
  - reflexivity.
  - reflexivity.
Defined.

Lemma stop_can_block_forever_witness :
  exists s,
    @run Samples.reference Samples.config
      [Run_main; Run_main; Run_main; Run_producer]
      (rolling Samples.clip 0 Play_get Prod_test) = Some s
    /\ main_pc s = Stop_join
    /\ player_pc s = Play_get
    /\ producer_exited s = true
    /\ forall c, @step Samples.reference Samples.config c s = None.
Proof.
  apply (@stop_can_block_forever Samples.reference Samples.config
           (rolling Samples.clip 0 Play_get Prod_test)).
  - reflexivity.
  - reflexivity.
  - reflexivity.
  - reflexivity.
Defined.

End QueueExamples.

(** ** The size field *)

Section SizeFieldFacts.
Import Raster Geometry Session Controls.




(** A first character that is no digit, no sign and no white space. *)
Lemma int_of_other_character (c1 c2 : ascii) (rest : string) :
  digit_value c1 = None -> is_space c1 = false ->
  c1 <> "+"%char -> c1 <> "-"%char ->
  int_of_str (substring 0 2 (String c1 (String c2 rest)))
  = Py.Raise Py.ValueError.
Proof.
  intros H1 Hs Hp Hm. cbn [substring].
  replace (substring 0 0 rest) with EmptyString
    by (destruct rest; reflexivity).
  apply Ascii.eqb_neq in Hp. apply Ascii.eqb_neq in Hm.
  unfold int_of_str. cbn [lstrip]. rewrite Hs. cbn [rstrip].
  destruct (is_space c2); cbn -[Ascii.eqb digit_value is_space];
    rewrite ?Hs; cbn -[Ascii.eqb digit_value is_space];
    rewrite Hp, Hm; cbn -[Ascii.eqb digit_value is_space];
    rewrite H1; reflexivity.
Qed.

Context `{Primitives}.
Variable debug : bool.


(** X23.  When the size field starts with a character that is no digit, no
    sign and no white space, [size_changed] raises ValueError before it has
    changed anything. *)
Theorem size_changed_rejects_other_text
    (c1 c2 : ascii) (rest : string) (s : Polo) :
  digit_value c1 = None -> is_space c1 = false ->
  c1 <> "+"%char -> c1 <> "-"%char ->
  size_changed debug (String c1 (String c2 rest)) s
  = (s, Py.Raise Py.ValueError).
Proof.
  intros H1 Hs Hp Hm. unfold size_changed.
  rewrite (int_of_other_character c1 c2 rest H1 Hs Hp Hm). reflexivity.
Qed.

End SizeFieldFacts.

Section SizeFieldExamples.
Import Raster Geometry Session Controls.


(** The field reads [in]. *)
Lemma size_changed_rejects_other_text_witness :
  @size_changed Samples.reference false "in" Samples.showing
  = (Samples.showing, Py.Raise Py.ValueError).
Proof.
  apply (@size_changed_rejects_other_text Samples.reference false
           "i"%char "n"%char "" Samples.showing).
  - reflexivity.
  - reflexivity.
  - discriminate.
  - discriminate.
Defined.

End SizeFieldExamples.

